(** * Racer: track builder, projection, road pass and vehicle integrator

    A shallow embedding of the TypeScript sources

      - [core/Track.ts]         (segment store, track builder, export),
      - [core/WebGLRenderer.ts] (perspective projection, road pass, fog,
                                 road geometry, sprite pass),
      - [core/Game.ts]          (vehicle integrator, frame time),
      - [core/Input.ts]         (keyboard state),
      - [data/TrackData.ts], [types/game.ts], [config/constants.ts],
        [config/colors.ts].

    A JavaScript [number] is an IEEE 754 binary64 value; it is modelled by
    Rocq's primitive [float], whose operations are the same binary64
    operations, so that every definition below evaluates to the value the
    program computes.  Counts and array indices (piece lengths, segment
    indices), which the track format declares as integers, are [Z]. *)

From Stdlib Require Import ZArith Floats Lia Sorted.
From stdpp Require Import base list strings.

Set Warnings "-inexact-float".

(* ===================================================================== *)
(** ** JavaScript numbers *)
(* ===================================================================== *)

Abbreviation number := float.

Module Num.

(** An integer-valued [number]; exact for magnitudes below 2^53. *)
Definition of_int (z : Z) : number :=
  match z with
  | Z0 => 0%float
  | Zpos _ => of_uint63 (Uint63.of_Z z)
  | Zneg p => (- of_uint63 (Uint63.of_Z (Zpos p)))%float
  end.

Definition signed (s : bool) (m : positive) : Z :=
  if s then Zneg m else Zpos m.

(** The integer part (rounded towards minus infinity) of a finite number;
    [None] for NaN and the infinities. *)
Definition floorZ (x : number) : option Z :=
  match Prim2SF x with
  | S754_zero _ => Some 0%Z
  | S754_finite s m e => Some (Z.shiftl (signed s m) e)
  | S754_infinity _ | S754_nan => None
  end.

(** Removes the trailing zero bits of a mantissa. *)
Fixpoint strip (m : positive) (e : Z) : positive * Z :=
  match m with
  | xO m' => strip m' (e + 1)%Z
  | _ => (m, e)
  end.

(** The number [m * 2^e], for [m] with at most 53 significant bits. *)
Definition of_scaled (m : positive) (e : Z) : number :=
  let '(m', e') := strip m e in
  Z.ldexp (of_uint63 (Uint63.of_Z (Zpos m'))) e'.

(** The [%] operator: remainder of the truncated division, exact, with the
    sign of the dividend. *)
Definition rem (x y : number) : number :=
  match Prim2SF x, Prim2SF y with
  | S754_nan, _ | _, S754_nan => nan
  | S754_infinity _, _ => nan
  | _, S754_zero _ => nan
  | _, S754_infinity _ => x
  | S754_zero _, _ => x
  | S754_finite sx mx ex, S754_finite _ my ey =>
      let e := Z.min ex ey in
      let r := Z.rem (Z.shiftl (Zpos mx) (ex - e)) (Z.shiftl (Zpos my) (ey - e)) in
      match r with
      | Zpos p => if sx then (- of_scaled p e)%float else of_scaled p e
      | _ => if sx then (-0)%float else 0%float
      end
  end.

End Num.

Module Math.

Definition abs (x : number) : number := PrimFloat.abs x.

Definition floor (x : number) : number :=
  match Prim2SF x with
  | S754_finite s m e =>
      if (0 <=? e)%Z then x else Num.of_int (Z.shiftl (Num.signed s m) e)
  | _ => x
  end.

(** Nearest integer, ties towards plus infinity; a result of zero keeps the
    sign of the argument. *)
Definition round (x : number) : number :=
  match Prim2SF x with
  | S754_finite s m e =>
      if (0 <=? e)%Z then x
      else
        let n := Z.shiftl (2 * Num.signed s m + 2 ^ (- e)) (e - 1) in
        if (n =? 0)%Z then (if s then (-0)%float else 0%float)
        else Num.of_int n
  | _ => x
  end.

Definition sign (x : number) : number :=
  if is_nan x then nan
  else if (0 <? x)%float then 1%float
  else if (x <? 0)%float then (-1)%float
  else x.

Definition min (a b : number) : number :=
  if is_nan a || is_nan b then nan
  else if (a <? b)%float then a
  else if (b <? a)%float then b
  else if get_sign a then a else b.

Definition max (a b : number) : number :=
  if is_nan a || is_nan b then nan
  else if (b <? a)%float then a
  else if (a <? b)%float then b
  else if get_sign a then b else a.

End Math.

(* ===================================================================== *)
(** ** Random source *)
(* ===================================================================== *)

(** [Math.random()] returns a number in [[0, 1)].  The source of randomness
    is a sequence of integers read through a cursor; a draw is its 53 low
    bits divided by 2^53, so every draw is in range by construction. *)
Record RNG : Set := { draws : nat -> Z; cursor : nat }.

Definition two53 : Z := 9007199254740992.

Definition random (g : RNG) : number * RNG :=
  ((Num.of_int (draws g (cursor g) mod two53) / Num.of_int two53)%float,
   {| draws := draws g; cursor := S (cursor g) |}).

(** An identifier is the string [Math.random().toString(36).substring(2, 9)]
    or a string of the track file; the former is kept as the draw it renders. *)
Inductive Id : Set :=
  | IdString (s : string)
  | IdRandom (r : number).

Definition generateId (g : RNG) : Id * RNG :=
  let '(r, g') := random g in (IdRandom r, g').

(* ===================================================================== *)
(** ** Data model ([types/game.ts], [data/TrackData.ts]) *)
(* ===================================================================== *)

Definition SpriteType : Set := string.

Record Sprite : Set := { sprite_type : SpriteType; sprite_offset : number }.

Module WorldCoord.
Record t : Set := mk { x : number; y : number; z : number }.
End WorldCoord.

Module Screen.
Record t : Set := mk { x : number; y : number; w : number }.
End Screen.

Record ScreenCoord : Set := {
  world : WorldCoord.t;
  camera : WorldCoord.t;
  screen : Screen.t;
  scale : number
}.

Record SegmentColor : Set := {
  road : string; grass : string; rumble : string; lane : string
}.

Record Segment : Set := {
  index : Z;
  p1 : ScreenCoord;
  p2 : ScreenCoord;
  curve : number;
  hill : number;
  color : SegmentColor;
  sprites : list Sprite
}.

Inductive TrackPieceType : Set := Straight | Curve | Hill.

Record TrackPiece : Set := {
  piece_id : Id;
  piece_type : TrackPieceType;
  piece_length : Z;
  piece_value : number
}.

Record PlacedSprite : Set := {
  placed_id : Id;
  segmentIndex : Z;
  placed_type : SpriteType;
  placed_offset : number
}.

Record TrackData : Set := {
  pieces : list TrackPiece;
  placed : list PlacedSprite
}.

Module Player.
Record t : Set := mk {
  x : number;
  speed : number;
  maxSpeed : number;
  accel : number;
  decel : number;
  offRoadDecel : number;
  offRoadMaxSpeed : number
}.
End Player.

Record InputState : Set := { left : bool; right : bool; up : bool; down : bool }.

(** [createDefaultTrackData], with the identifiers drawn from [g]. *)
Definition createDefaultTrackData (g : RNG) : TrackData * RNG :=
  let '(i1, g) := generateId g in
  let '(i2, g) := generateId g in
  let '(i3, g) := generateId g in
  let '(i4, g) := generateId g in
  let '(i5, g) := generateId g in
  ({| pieces :=
        [ {| piece_id := i1; piece_type := Straight; piece_length := 50; piece_value := 0 |};
          {| piece_id := i2; piece_type := Curve; piece_length := 50; piece_value := 2 |};
          {| piece_id := i3; piece_type := Hill; piece_length := 80; piece_value := 50 |};
          {| piece_id := i4; piece_type := Straight; piece_length := 50; piece_value := 0 |};
          {| piece_id := i5; piece_type := Hill; piece_length := 80; piece_value := -50 |} ];
      placed := [] |}, g).

(* ===================================================================== *)
(** ** Constants ([config/constants.ts], [sprites/SpriteRegistry.ts]) *)
(* ===================================================================== *)

Module RENDER.
Definition RETRO_WIDTH : number := 640.
Definition RETRO_HEIGHT : number := 480.
Definition DRAW_DISTANCE : Z := 350.
End RENDER.

Module CAMERA.
Definition HEIGHT : number := 1000.
Definition DEPTH : number := 0.84.
Definition ROAD_WIDTH : number := 2000.
End CAMERA.

Module ROAD.
Definition SEGMENT_LENGTH : number := 200.
Definition RUMBLE_LENGTH : number := 3.
Definition RUMBLE_WIDTH_RATIO : number := 1 / 8.
Definition LANE_WIDTH_RATIO : number := 1 / 32.
Definition LANE_POSITION_RATIO : number := 1 / 3.
End ROAD.

Module FOG.
Definition DEFAULT_DENSITY : number := 5.
Definition START_DISTANCE : number := 50.
Definition END_DISTANCE_MULTIPLIER : number := 1.1.
End FOG.

Module SPRITE_PLACEMENT.
Definition TREE_INTERVAL_LEFT : Z := 12.
Definition TREE_INTERVAL_RIGHT : Z := 15.
Definition BUSH_INTERVAL_LEFT : Z := 20.
Definition BUSH_INTERVAL_RIGHT : Z := 25.
Definition COLUMN_INTERVAL : Z := 30.
Definition ROCK_INTERVAL : Z := 40.
Definition BILLBOARD_INTERVAL : Z := 80.
Module OFFSETS.
Definition TREE_BASE : number := 1.3.
Definition TREE_RANDOM : number := 0.5.
Definition BUSH_BASE : number := 1.15.
Definition BUSH_RANDOM : number := 0.2.
Definition COLUMN : number := 1.1.
Definition ROCK_BASE : number := 1.5.
Definition ROCK_RANDOM : number := 0.3.
Definition BILLBOARD_BASE : number := 1.4.
Definition BILLBOARD_RANDOM : number := 0.3.
End OFFSETS.
End SPRITE_PLACEMENT.

Definition TREE_SPRITES : list SpriteType :=
  ["palm_tree"; "tree1"; "tree2"; "dead_tree1"; "dead_tree2"]%string.
Definition VEGETATION_SPRITES : list SpriteType :=
  ["bush1"; "bush2"; "cactus"; "stump"]%string.
Definition OBJECT_SPRITES : list SpriteType :=
  ["boulder1"; "boulder2"; "boulder3"; "column"]%string.
Definition BILLBOARD_SPRITES : list SpriteType :=
  ["billboard01"; "billboard02"; "billboard03"; "billboard04"; "billboard05";
   "billboard06"; "billboard07"; "billboard08"; "billboard09"]%string.

Module COLORS.
Definition LIGHT : SegmentColor :=
  {| road := "#6b6b6b"; grass := "#10aa10"; rumble := "#ff0000"; lane := "#cccccc" |}.
Definition DARK : SegmentColor :=
  {| road := "#696969"; grass := "#009a00"; rumble := "#ffffff"; lane := "#696969" |}.
End COLORS.

(* ===================================================================== *)
(** ** Track ([core/Track.ts]) *)
(* ===================================================================== *)

Record Track : Set := {
  segments : list Segment;
  segmentLength : number;
  rumbleLength : number;
  trackLength : number;
  currentPieces : list TrackPiece
}.

(** The field initialisers of the class. *)
Definition Track_fields : Track :=
  {| segments := [];
     segmentLength := ROAD.SEGMENT_LENGTH;
     rumbleLength := ROAD.RUMBLE_LENGTH;
     trackLength := 0;
     currentPieces := [] |}.

Definition set_segments (t : Track) (s : list Segment) : Track :=
  {| segments := s; segmentLength := segmentLength t; rumbleLength := rumbleLength t;
     trackLength := trackLength t; currentPieces := currentPieces t |}.

Definition set_trackLength (t : Track) (l : number) : Track :=
  {| segments := segments t; segmentLength := segmentLength t;
     rumbleLength := rumbleLength t; trackLength := l;
     currentPieces := currentPieces t |}.

Definition set_currentPieces (t : Track) (ps : list TrackPiece) : Track :=
  {| segments := segments t; segmentLength := segmentLength t;
     rumbleLength := rumbleLength t; trackLength := trackLength t;
     currentPieces := ps |}.

Definition set_sprites (seg : Segment) (sp : list Sprite) : Segment :=
  {| index := index seg; p1 := p1 seg; p2 := p2 seg; curve := curve seg;
     hill := hill seg; color := color seg; sprites := sp |}.

Definition set_world_y (p : ScreenCoord) (v : number) : ScreenCoord :=
  {| world := WorldCoord.mk (WorldCoord.x (world p)) v (WorldCoord.z (world p));
     camera := camera p; screen := screen p; scale := scale p |}.

(** [segment.sprites.push(sp)] *)
Definition push_sprite (sp : Sprite) (seg : Segment) : Segment :=
  set_sprites seg (sprites seg ++ [sp]).

(** [segments.length] *)
Definition segments_length (t : Track) : Z := Z.of_nat (length (segments t)).

(** [for (let i = 0; i < count; i++) body(i)] *)
Definition for_range {S : Type} (count : Z) (body : Z -> S -> S) (s : S) : S :=
  fold_left (fun acc i => body (Z.of_nat i) acc) (seq 0 (Z.to_nat count)) s.

Definition createScreenCoord (t : Track) (i : Z) : ScreenCoord :=
  {| world := WorldCoord.mk 0 0 (Num.of_int i * segmentLength t);
     camera := WorldCoord.mk 0 0 0;
     screen := Screen.mk 0 0 0;
     scale := 0 |}.

Definition addSegment (t : Track) (c h : number) : Track :=
  let n := segments_length t in
  let col :=
    if (Num.rem (Math.floor (Num.of_int n / rumbleLength t)) 2 =? 0)%float
    then COLORS.LIGHT else COLORS.DARK in
  set_segments t
    (segments t ++
     [ {| index := n;
          p1 := createScreenCoord t n;
          p2 := createScreenCoord t (n + 1);
          curve := c;
          hill := h;
          color := col;
          sprites := [] |} ]).

Definition addStraight (t : Track) (count : Z) : Track :=
  for_range count (fun _ t => addSegment t 0 0) t.

Definition addCurve (t : Track) (count : Z) (c : number) : Track :=
  let enterCount := (count / 4)%Z in
  let holdCount := (count / 2)%Z in
  let exitCount := (count - enterCount - holdCount)%Z in
  let t := for_range enterCount
             (fun i t => addSegment t ((c * Num.of_int i) / Num.of_int enterCount) 0) t in
  let t := for_range holdCount (fun _ t => addSegment t c 0) t in
  for_range exitCount
    (fun i t => addSegment t (c * (1 - Num.of_int i / Num.of_int exitCount)) 0) t.

Definition addHill (t : Track) (count : Z) (height : number) : Track :=
  let enterCount := (count / 4)%Z in
  let holdCount := (count / 2)%Z in
  let exitCount := (count - enterCount - holdCount)%Z in
  let t := for_range enterCount
             (fun i t => addSegment t 0 ((height * Num.of_int i) / Num.of_int enterCount)) t in
  let t := for_range holdCount (fun _ t => addSegment t 0 height) t in
  for_range exitCount
    (fun i t => addSegment t 0 (height * (1 - Num.of_int i / Num.of_int exitCount))) t.

Definition addCurveWithHill (t : Track) (count : Z) (c height : number) : Track :=
  let enterCount := (count / 4)%Z in
  let holdCount := (count / 2)%Z in
  let exitCount := (count - enterCount - holdCount)%Z in
  let t := for_range enterCount
             (fun i t =>
                let k := (Num.of_int i / Num.of_int enterCount)%float in
                addSegment t (c * k) (height * k)) t in
  let t := for_range holdCount (fun _ t => addSegment t c height) t in
  for_range exitCount
    (fun i t =>
       let k := (1 - Num.of_int i / Num.of_int exitCount)%float in
       addSegment t (c * k) (height * k)) t.

(** The running sum of [calculateYPositions], from height [y] on. *)
Fixpoint elevate (y : number) (segs : list Segment) : list Segment :=
  match segs with
  | [] => []
  | seg :: rest =>
      let y' := (y + hill seg)%float in
      {| index := index seg;
         p1 := set_world_y (p1 seg) y;
         p2 := set_world_y (p2 seg) y';
         curve := curve seg; hill := hill seg; color := color seg;
         sprites := sprites seg |} :: elevate y' rest
  end.

Definition calculateYPositions (t : Track) : Track :=
  set_segments t (elevate 0 (segments t)).

(** One piece of [buildFromData]'s [switch]. *)
Definition addPiece (t : Track) (p : TrackPiece) : Track :=
  match piece_type p with
  | Straight => addStraight t (piece_length p)
  | Curve => addCurve t (piece_length p) (piece_value p)
  | Hill => addHill t (piece_length p) (piece_value p)
  end.

(** A run-time error of the language (here: a property read on [undefined]). *)
Inductive Result (A : Type) : Type :=
  | Ok (a : A)
  | TypeError.
Arguments Ok {A} a.
Arguments TypeError {A}.

Definition bind {A B : Type} (r : Result A) (k : A -> Result B) : Result B :=
  match r with Ok a => k a | TypeError => TypeError end.

(** [segments[i].sprites.push(sp)]: an error when [segments[i]] is undefined. *)
Definition pushAt (segs : list Segment) (i : Z) (sp : Sprite) : Result (list Segment) :=
  if (i <? 0)%Z then TypeError
  else
    match segs !! Z.to_nat i with
    | Some seg => Ok (<[Z.to_nat i := push_sprite sp seg]> segs)
    | None => TypeError
    end.

(** The loop over [data.sprites] of [buildFromData]. *)
Fixpoint placeSprites (segs : list Segment) (sps : list PlacedSprite)
  : Result (list Segment) :=
  match sps with
  | [] => Ok segs
  | sp :: rest =>
      if ((0 <=? segmentIndex sp)%Z && (segmentIndex sp <? Z.of_nat (length segs))%Z)%bool
      then
        bind (pushAt segs (segmentIndex sp)
                {| sprite_type := placed_type sp; sprite_offset := placed_offset sp |})
             (fun segs' => placeSprites segs' rest)
      else placeSprites segs rest
  end.

(** The part of [buildFromData] before the sprites are placed. *)
Definition buildRoad (t : Track) (data : TrackData) : Track :=
  let t := set_segments t [] in
  let t := set_currentPieces t (pieces data) in
  let t := fold_left addPiece (pieces data) t in
  let t := if (segments_length t =? 0)%Z then addStraight t 100 else t in
  let t := set_trackLength t (Num.of_int (segments_length t) * segmentLength t) in
  calculateYPositions t.

Definition buildFromData (t : Track) (data : TrackData) : Result Track :=
  let t := buildRoad t data in
  bind (placeSprites (segments t) (placed data)) (fun segs => Ok (set_segments t segs)).

(** The inner loop of [getTrackData] for segment [i]. *)
Fixpoint exportSegmentSprites (g : RNG) (i : Z) (sps : list Sprite)
  : list PlacedSprite * RNG :=
  match sps with
  | [] => ([], g)
  | sp :: rest =>
      let '(id, g) := generateId g in
      let '(out, g) := exportSegmentSprites g i rest in
      ({| placed_id := id; segmentIndex := i;
          placed_type := sprite_type sp; placed_offset := sprite_offset sp |} :: out, g)
  end.

(** The outer loop of [getTrackData], from segment [i] on. *)
Fixpoint exportSprites (g : RNG) (i : Z) (segs : list Segment)
  : list PlacedSprite * RNG :=
  match segs with
  | [] => ([], g)
  | seg :: rest =>
      let '(a, g) := exportSegmentSprites g i (sprites seg) in
      let '(b, g) := exportSprites g (i + 1) rest in
      (a ++ b, g)
  end.

Definition getTrackData (g : RNG) (t : Track) : TrackData * RNG :=
  let '(sps, g) := exportSprites g 0 (segments t) in
  ({| pieces := currentPieces t; placed := sps |}, g).

(** [getSegment].  [Math.floor] yields an integer-valued number, on which
    [%] and the addition of [segments.length] are exact; the index is
    therefore computed in [Z].  A quotient that is NaN or infinite gives the
    index NaN, and an empty store gives [k % 0], NaN as well: the array
    lookup is then [undefined]. *)
Definition getSegment (t : Track) (z : number) : option Segment :=
  match Num.floorZ (z / segmentLength t) with
  | None => None
  | Some k =>
      let n := segments_length t in
      if (n =? 0)%Z then None
      else
        let i := Z.rem k n in
        segments t !! Z.to_nat (if (i <? 0)%Z then i + n else i)
  end.

(** [Math.floor(x)] read as an integer, for the finite [x] of the generator. *)
Definition floorInt (x : number) : Z := default 0%Z (Num.floorZ x).

(** [list[Math.floor(Math.random() * list.length)]] *)
Definition pick (g : RNG) (l : list SpriteType) : SpriteType * RNG :=
  let '(r, g) := random g in
  (nth (Z.to_nat (floorInt (r * Num.of_int (Z.of_nat (length l))))) l "undefined"%string, g).

Definition push_piece (t : Track) (p : TrackPiece) : Track :=
  set_currentPieces t (currentPieces t ++ [p]).

(** The sprites [addSprites] attaches to segment [i]. *)
Definition roadside (g : RNG) (i : Z) (seg : Segment) : Segment * RNG :=
  let rocks := List.filter (String.prefix "boulder") OBJECT_SPRITES in
  let '(seg, g) :=
    if (Z.rem i SPRITE_PLACEMENT.TREE_INTERVAL_LEFT =? 0)%Z then
      let '(ty, g) := pick g TREE_SPRITES in
      let '(r, g) := random g in
      (push_sprite {| sprite_type := ty;
                      sprite_offset := - (SPRITE_PLACEMENT.OFFSETS.TREE_BASE
                                          + r * SPRITE_PLACEMENT.OFFSETS.TREE_RANDOM) |} seg, g)
    else (seg, g) in
  let '(seg, g) :=
    if (Z.rem i SPRITE_PLACEMENT.TREE_INTERVAL_RIGHT =? 0)%Z then
      let '(ty, g) := pick g TREE_SPRITES in
      let '(r, g) := random g in
      (push_sprite {| sprite_type := ty;
                      sprite_offset := SPRITE_PLACEMENT.OFFSETS.TREE_BASE
                                       + r * SPRITE_PLACEMENT.OFFSETS.TREE_RANDOM |} seg, g)
    else (seg, g) in
  let '(seg, g) :=
    if (Z.rem i SPRITE_PLACEMENT.BUSH_INTERVAL_LEFT =? 0)%Z then
      let '(ty, g) := pick g VEGETATION_SPRITES in
      let '(r, g) := random g in
      (push_sprite {| sprite_type := ty;
                      sprite_offset := - (SPRITE_PLACEMENT.OFFSETS.BUSH_BASE
                                          + r * SPRITE_PLACEMENT.OFFSETS.BUSH_RANDOM) |} seg, g)
    else (seg, g) in
  let '(seg, g) :=
    if (Z.rem i SPRITE_PLACEMENT.BUSH_INTERVAL_RIGHT =? 0)%Z then
      let '(ty, g) := pick g VEGETATION_SPRITES in
      let '(r, g) := random g in
      (push_sprite {| sprite_type := ty;
                      sprite_offset := SPRITE_PLACEMENT.OFFSETS.BUSH_BASE
                                       + r * SPRITE_PLACEMENT.OFFSETS.BUSH_RANDOM |} seg, g)
    else (seg, g) in
  let seg :=
    if (Z.rem i SPRITE_PLACEMENT.COLUMN_INTERVAL =? 0)%Z then
      push_sprite {| sprite_type := "column"; sprite_offset := SPRITE_PLACEMENT.OFFSETS.COLUMN |}
        (push_sprite {| sprite_type := "column";
                        sprite_offset := - SPRITE_PLACEMENT.OFFSETS.COLUMN |} seg)
    else seg in
  let '(seg, g) :=
    if ((Z.rem i SPRITE_PLACEMENT.ROCK_INTERVAL =? 0)%Z && (0 <? length rocks)%nat)%bool then
      let '(ty, g) := pick g rocks in
      let '(r, g) := random g in
      (push_sprite {| sprite_type := ty;
                      sprite_offset := - (SPRITE_PLACEMENT.OFFSETS.ROCK_BASE
                                          + r * SPRITE_PLACEMENT.OFFSETS.ROCK_RANDOM) |} seg, g)
    else (seg, g) in
  if ((Z.rem i SPRITE_PLACEMENT.BILLBOARD_INTERVAL =? 0)%Z
      && (0 <? length BILLBOARD_SPRITES)%nat)%bool then
    let '(ty, g) := pick g BILLBOARD_SPRITES in
    let '(r, g) := random g in
    let side : number := if (0.5 <? r)%float then 1%float else (-1)%float in
    let '(r', g) := random g in
    (push_sprite {| sprite_type := ty;
                    sprite_offset := side * (SPRITE_PLACEMENT.OFFSETS.BILLBOARD_BASE
                                             + r' * SPRITE_PLACEMENT.OFFSETS.BILLBOARD_RANDOM) |}
       seg, g)
  else (seg, g).

(** The loop of [addSprites], from segment [i] on. *)
Fixpoint addSpritesFrom (g : RNG) (i : Z) (segs : list Segment) : list Segment * RNG :=
  match segs with
  | [] => ([], g)
  | seg :: rest =>
      let '(seg', g) := roadside g i seg in
      let '(rest', g) := addSpritesFrom g (i + 1) rest in
      (seg' :: rest', g)
  end.

Definition addSprites (g : RNG) (t : Track) : Track * RNG :=
  let '(segs, g) := addSpritesFrom g 0 (segments t) in
  (set_segments t segs, g).

(** One round of the section loop of [buildRandomTrack]. *)
Definition randomSection (st : Track * RNG) : Track * RNG :=
  let '(t, g) := st in
  let '(sectionType, g) := random g in
  if (sectionType <? 0.3)%float then
    let '(r, g) := random g in
    let len := (30 + floorInt (r * 50))%Z in
    let '(id, g) := generateId g in
    let t := push_piece t {| piece_id := id; piece_type := Straight;
                             piece_length := len; piece_value := 0 |} in
    (addStraight t len, g)
  else if (sectionType <? 0.6)%float then
    let '(r, g) := random g in
    let len := (30 + floorInt (r * 50))%Z in
    let '(r, g) := random g in
    let intensity := (r * 6 - 3)%float in
    let '(id, g) := generateId g in
    let t := push_piece t {| piece_id := id; piece_type := Curve;
                             piece_length := len; piece_value := intensity |} in
    (addCurve t len intensity, g)
  else if (sectionType <? 0.85)%float then
    let '(r, g) := random g in
    let len := (40 + floorInt (r * 80))%Z in
    let '(r, g) := random g in
    let height := (r * 300 - 150)%float in
    let '(id, g) := generateId g in
    let t := push_piece t {| piece_id := id; piece_type := Hill;
                             piece_length := len; piece_value := height |} in
    (addHill t len height, g)
  else
    let '(r, g) := random g in
    let len := (40 + floorInt (r * 60))%Z in
    let '(r, g) := random g in
    let curveIntensity := (r * 4 - 2)%float in
    let '(r, g) := random g in
    let hillHeight := (r * 200 - 100)%float in
    let '(id, g) := generateId g in
    let t := push_piece t {| piece_id := id; piece_type := Curve;
                             piece_length := (len / 2)%Z; piece_value := curveIntensity |} in
    let '(id, g) := generateId g in
    let t := push_piece t {| piece_id := id; piece_type := Hill;
                             piece_length := (len / 2)%Z; piece_value := hillHeight |} in
    (addCurveWithHill t len curveIntensity hillHeight, g).

Definition buildRandomTrack (g : RNG) (t : Track) : Track * RNG :=
  let t := set_segments t [] in
  let t := set_currentPieces t [] in
  let minSections := 12%Z in
  let maxSections := 20%Z in
  let '(r, g) := random g in
  let numSections := (minSections + floorInt (r * Num.of_int (maxSections - minSections)))%Z in
  let '(r, g) := random g in
  let startLength := (30 + floorInt (r * 30))%Z in
  let '(id, g) := generateId g in
  let t := push_piece t {| piece_id := id; piece_type := Straight;
                           piece_length := startLength; piece_value := 0 |} in
  let t := addStraight t startLength in
  let '(t, g) := for_range numSections (fun _ st => randomSection st) (t, g) in
  let '(r, g) := random g in
  let endLength := (40 + floorInt (r * 40))%Z in
  let '(id, g) := generateId g in
  let t := push_piece t {| piece_id := id; piece_type := Straight;
                           piece_length := endLength; piece_value := 0 |} in
  let t := addStraight t endLength in
  let t := set_trackLength t (Num.of_int (segments_length t) * segmentLength t) in
  let t := calculateYPositions t in
  addSprites g t.


(* ===================================================================== *)
(** ** Renderer ([core/WebGLRenderer.ts]): projection and road pass *)
(* ===================================================================== *)

Record Renderer : Set := {
  width : number;
  height : number;
  roadWidth : number;
  cameraHeight : number;
  cameraDepth : number;
  drawDistance : Z;
  fogDensity : number
}.

Definition Renderer_fields : Renderer :=
  {| width := RENDER.RETRO_WIDTH;
     height := RENDER.RETRO_HEIGHT;
     roadWidth := CAMERA.ROAD_WIDTH;
     cameraHeight := CAMERA.HEIGHT;
     cameraDepth := CAMERA.DEPTH;
     drawDistance := RENDER.DRAW_DISTANCE;
     fogDensity := 5 |}.

(** A division, together with the record of its divisor. *)
Definition traced_div (a b : number) : number * list number := ((a / b)%float, [b]).

(** [project], returning the projected point and the divisors of the
    divisions it evaluated, in order. *)
Definition project_traced (r : Renderer) (p : ScreenCoord) (cameraX cameraY cameraZ : number)
  : ScreenCoord * list number :=
  let cam := WorldCoord.mk (WorldCoord.x (world p) - cameraX)
                           (WorldCoord.y (world p) - cameraY)
                           (WorldCoord.z (world p) - cameraZ) in
  if (WorldCoord.z cam <=? 0)%float then
    ({| world := world p; camera := cam;
        screen := Screen.mk 0 (height r) 0; scale := 0 |}, [])
  else
    let '(s, d0) := traced_div (cameraDepth r) (WorldCoord.z cam) in
    let '(hw, d1) := traced_div (width r) 2 in
    let '(ox, d2) := traced_div (s * WorldCoord.x cam * width r) 2 in
    let '(hh, d3) := traced_div (height r) 2 in
    let '(oy, d4) := traced_div (s * WorldCoord.y cam * height r) 2 in
    let '(ow, d5) := traced_div (s * roadWidth r * width r) 2 in
    ({| world := world p; camera := cam;
        screen := Screen.mk (Math.round (hw + ox)) (Math.round (hh - oy)) (Math.round ow);
        scale := s |},
     d0 ++ d1 ++ d2 ++ d3 ++ d4 ++ d5).

Definition project (r : Renderer) (p : ScreenCoord) (cameraX cameraY cameraZ : number)
  : ScreenCoord :=
  fst (project_traced r p cameraX cameraY cameraZ).

Definition set_points (seg : Segment) (q1 q2 : ScreenCoord) : Segment :=
  {| index := index seg; p1 := q1; p2 := q2; curve := curve seg; hill := hill seg;
     color := color seg; sprites := sprites seg |}.

(** The state of the road pass of [render]: the segment store (projected in
    place), the locals [maxy], [x], [dx], the sprite pool (segment index and
    clip), the loop counters of the segments drawn, and the successive values
    of [maxy], oldest first. *)
Record RoadPass : Set := {
  store : list Segment;
  maxy : number;
  acc_x : number;
  acc_dx : number;
  pool : list (Z * number);
  drawn : list Z;
  horizons : list number
}.

(** One iteration of the projection loop, for loop counter [n]. *)
Definition roadStep (r : Renderer) (t : Track) (position playerX camPlayerY : number)
    (baseIndex : Z) (n : Z) (st : RoadPass) : Result RoadPass :=
  let segmentIndex := Z.rem (baseIndex + n) (Z.of_nat (length (store st))) in
  if (segmentIndex <? 0)%Z then TypeError
  else
  match store st !! Z.to_nat segmentIndex with
  | None => TypeError
  | Some segment =>
      let looped := (segmentIndex <? baseIndex)%Z in
      let camZ := (position - (if looped then trackLength t else 0))%float in
      let camY := (camPlayerY + cameraHeight r)%float in
      let q1 := project r (p1 segment) (playerX * roadWidth r - acc_x st) camY camZ in
      let q2 := project r (p2 segment) (playerX * roadWidth r - acc_x st - acc_dx st) camY camZ in
      let segment := set_points segment q1 q2 in
      let st :=
        {| store := <[Z.to_nat segmentIndex := segment]> (store st);
           maxy := maxy st;
           acc_x := acc_x st + acc_dx st;
           acc_dx := acc_dx st + curve segment;
           pool := pool st ++ [(segmentIndex, maxy st)];
           drawn := drawn st;
           horizons := horizons st |} in
      if (WorldCoord.z (camera q1) <=? cameraDepth r)%float then Ok st
      else if (Screen.y (screen q1) <=? Screen.y (screen q2))%float then Ok st
      else if (maxy st <=? Screen.y (screen q2))%float then Ok st
      else
        Ok {| store := store st;
              maxy := Screen.y (screen q1);
              acc_x := acc_x st;
              acc_dx := acc_dx st;
              pool := pool st;
              drawn := drawn st ++ [n];
              horizons := horizons st ++ [Screen.y (screen q1)] |}
  end.

(** [for (let n = 0; n < drawDistance; n++)], stopping at an error. *)
Definition roadLoop (r : Renderer) (t : Track) (position playerX camPlayerY : number)
    (baseIndex : Z) (st : RoadPass) : Result RoadPass :=
  for_range (drawDistance r)
    (fun n acc => bind acc (roadStep r t position playerX camPlayerY baseIndex n))
    (Ok st).

(** The road pass of [render]: everything up to the end of the projection
    loop.  [playerY] is optional in the source.  The locals [playerSegment]
    and [playerPercent], which the pass computes and does not use, are left
    out; the sprite pool is filled in the order of the loop. *)
Definition renderRoadPass (r : Renderer) (t : Track) (position playerX : number)
    (playerY : option number) : Result RoadPass :=
  match getSegment t position with
  | None => TypeError
  | Some baseSegment =>
      let basePercent := (Num.rem position (segmentLength t) / segmentLength t)%float in
      let camPlayerY :=
        match playerY with
        | Some v => v
        | None =>
            (WorldCoord.y (world (p1 baseSegment))
             + (WorldCoord.y (world (p2 baseSegment)) - WorldCoord.y (world (p1 baseSegment)))
               * basePercent)%float
        end in
      roadLoop r t position playerX camPlayerY (index baseSegment)
        {| store := segments t;
           maxy := height r;
           acc_x := 0;
           acc_dx := - (curve baseSegment * basePercent);
           pool := [];
           drawn := [];
           horizons := [height r] |}
  end.

(* ===================================================================== *)
(** ** Vehicle integrator ([core/Game.ts]) *)
(* ===================================================================== *)

Record Game : Set := {
  track : Track;
  renderer : Renderer;
  input : InputState;
  position : number;
  player : Player.t;
  playerY : number;
  centrifugalForce : number;
  steeringRate : number;
  steeringSpeedScale : number
}.

Definition Player_fields : Player.t :=
  Player.mk 0 0 600 2 0.5 1 200.

Definition Game_fields (t : Track) (i : InputState) : Game :=
  {| track := t; renderer := Renderer_fields; input := i; position := 0;
     player := Player_fields; playerY := 0;
     centrifugalForce := 3.0; steeringRate := 3.0; steeringSpeedScale := 0.5 |}.

Definition speedPercent (g : Game) : number :=
  (Player.speed (player g) / Player.maxSpeed (player g))%float.

(** Lines 292-307: the lateral position after steering. *)
Definition steer (g : Game) (dt : number) : number :=
  let steerRate :=
    (dt * steeringRate g * speedPercent g
     * (1 - speedPercent g * steeringSpeedScale g))%float in
  let x := Player.x (player g) in
  if (0 <? Player.speed (player g))%float then
    let x := if left (input g) then (x - steerRate)%float else x in
    if right (input g) then (x + steerRate)%float else x
  else x.

Definition offRoadAmount (x : number) : number := Math.max 0 (Math.abs x - 1.0).
Definition isOffRoad (x : number) : bool := (0 <? offRoadAmount x)%float.
Definition offRoadFactor (x : number) : number := Math.min (offRoadAmount x) 1.0.

(** Lines 314-317: the local [maxSpeed] of the tick, for lateral position [x]. *)
Definition effectiveMaxSpeed (g : Game) (x : number) : number :=
  if isOffRoad x then
    (Player.maxSpeed (player g)
     - (Player.maxSpeed (player g) - Player.offRoadMaxSpeed (player g)) * offRoadFactor x)%float
  else Player.maxSpeed (player g).

(** Lines 319-335: the speed before the final clamp. *)
Definition unclampedSpeed (g : Game) (x dt : number) : number :=
  let p := player g in
  let s := Player.speed p in
  let s :=
    if up (input g) then
      let accelReduction :=
        if isOffRoad x then (1 - offRoadFactor x * 0.7)%float else 1%float in
      (s + Player.accel p * dt * 100 * accelReduction)%float
    else if down (input g) then (s - Player.accel p * dt * 100 * 2)%float
    else (s - Player.decel p * dt * 100)%float in
  let s :=
    if (left (input g) || right (input g))%bool
    then (s - Player.decel p * dt * 100 * speedPercent g)%float else s in
  if (isOffRoad x && (effectiveMaxSpeed g x <? s)%float)%bool
  then (s - Player.offRoadDecel p * dt * 100 * offRoadFactor x)%float
  else s.

(** Line 337. *)
Definition nextSpeed (g : Game) (x dt : number) : number :=
  Math.max 0 (Math.min (unclampedSpeed g x dt) (effectiveMaxSpeed g x)).

(** Lines 346-355: the lateral position after the centrifugal push, before
    the final clamp; [c0] and [c1] are the curvatures of the segment under
    the camera and of the next one. *)
Definition unclampedX (g : Game) (x dt c0 c1 : number) : number :=
  let segmentPercent :=
    (Num.rem (position g) (segmentLength (track g)) / segmentLength (track g))%float in
  let rawCurveValue := (c0 + (c1 - c0) * segmentPercent)%float in
  let curveValue := (Math.sign rawCurveValue * Math.min (Math.abs rawCurveValue) 5)%float in
  let centrifugal :=
    (curveValue * speedPercent g * speedPercent g * dt * centrifugalForce g)%float in
  (x - centrifugal)%float.

(** Line 358. *)
Definition nextX (g : Game) (x dt c0 c1 : number) : number :=
  Math.max (-2) (Math.min 2 (unclampedX g x dt c0 c1)).

(** The two loops that wrap [position] into the track; [None] when they are
    still running after [fuel] rounds. *)
Fixpoint wrapDown (fuel : nat) (len pos : number) : option number :=
  if (len <=? pos)%float then
    match fuel with
    | O => None
    | S fuel' => wrapDown fuel' len (pos - len)%float
    end
  else Some pos.

Fixpoint wrapUp (fuel : nat) (len pos : number) : option number :=
  if (pos <? 0)%float then
    match fuel with
    | O => None
    | S fuel' => wrapUp fuel' len (pos + len)%float
    end
  else Some pos.

(** The outcome of a tick: a new state, a run-time error (the fields the
    source has assigned by then are not kept), or loops that did not finish
    within the fuel. *)
Definition update (fuel : nat) (g : Game) (dt : number) : option (Result Game) :=
  let x1 := steer g dt in
  let speed' := nextSpeed g x1 dt in
  match getSegment (track g) (position g),
        getSegment (track g) (position g + segmentLength (track g))%float with
  | Some segment, Some nextSegment =>
      let x' := nextX g x1 dt (curve segment) (curve nextSegment) in
      let pos := (position g + (speed' * dt * segmentLength (track g)) / 10)%float in
      let playerZ := (cameraHeight (renderer g) * cameraDepth (renderer g))%float in
      match getSegment (track g) (pos + playerZ)%float with
      | Some playerSegment =>
          let playerPercent :=
            (Num.rem (pos + playerZ) (segmentLength (track g))
             / segmentLength (track g))%float in
          let roadY :=
            (WorldCoord.y (world (p1 playerSegment))
             + (WorldCoord.y (world (p2 playerSegment))
                - WorldCoord.y (world (p1 playerSegment))) * playerPercent)%float in
          match wrapDown fuel (trackLength (track g)) pos with
          | None => None
          | Some pos =>
              match wrapUp fuel (trackLength (track g)) pos with
              | None => None
              | Some pos =>
                  let p := player g in
                  Some (Ok {| track := track g; renderer := renderer g; input := input g;
                              position := pos;
                              player := Player.mk x' speed' (Player.maxSpeed p)
                                          (Player.accel p) (Player.decel p)
                                          (Player.offRoadDecel p)
                                          (Player.offRoadMaxSpeed p);
                              playerY := roadY;
                              centrifugalForce := centrifugalForce g;
                              steeringRate := steeringRate g;
                              steeringSpeedScale := steeringSpeedScale g |})
              end
          end
      | None => Some TypeError
      end
  | _, _ => Some TypeError
  end.

(** [loop] clamps the frame time before it calls [update]. *)
Definition frame_dt (elapsed_ms : number) : number :=
  Math.min (elapsed_ms / 1000) 0.1.

(* ===================================================================== *)
(** ** Definitions used to state the properties *)
(* ===================================================================== *)

(** The object literal [addSegment] pushes when the store holds [n] segments. *)
Definition newSegment (t : Track) (n : Z) (c h : number) : Segment :=
  {| index := n;
     p1 := createScreenCoord t n;
     p2 := createScreenCoord t (n + 1);
     curve := c;
     hill := h;
     color := if (Num.rem (Math.floor (Num.of_int n / rumbleLength t)) 2 =? 0)%float
              then COLORS.LIGHT else COLORS.DARK;
     sprites := [] |}.

(** The segments a loop [for i < k: addSegment(f i, h i)] appends to a store
    of [n] segments. *)
Definition emitted (t : Track) (n : Z) (k : nat) (f h : Z -> number) : list Segment :=
  map (fun i : nat => newSegment t (n + Z.of_nat i) (f (Z.of_nat i)) (h (Z.of_nat i)))
      (seq 0 k).

(** The fields of a track that no builder step changes. *)
Definition same_fields (t t' : Track) : Prop :=
  segmentLength t' = segmentLength t /\ rumbleLength t' = rumbleLength t /\
  trackLength t' = trackLength t /\ currentPieces t' = currentPieces t.

(** [t'] is [t] with bare segments appended. *)
Definition extends (t t' : Track) : Prop :=
  same_fields t t' /\
  exists l, segments t' = segments t ++ l /\ Forall (fun seg => sprites seg = []) l.

(** The decoration a placed sprite becomes on its segment. *)
Definition to_sprite (sp : PlacedSprite) : Sprite :=
  {| sprite_type := placed_type sp; sprite_offset := placed_offset sp |}.

(** The decorations of the placed sprites addressed to segment [i], in order. *)
Fixpoint spritesFor (i : Z) (sps : list PlacedSprite) : list Sprite :=
  match sps with
  | [] => []
  | sp :: rest =>
      if (segmentIndex sp =? i)%Z then to_sprite sp :: spritesFor i rest
      else spritesFor i rest
  end.

(** The store [segs] with the placed sprites of [sps] attached. *)
Definition decorated (segs : list Segment) (sps : list PlacedSprite) : list Segment :=
  imap (fun i seg => set_sprites seg (sprites seg ++ spritesFor (Z.of_nat i) sps)) segs.

(** [y] of the world coordinates of the two end points of a segment. *)
Definition y1 (seg : Segment) : number := WorldCoord.y (world (p1 seg)).
Definition y2 (seg : Segment) : number := WorldCoord.y (world (p2 seg)).

(** [r] is a value, and the value satisfies [P]. *)
Definition holds {A : Type} (r : Result A) (P : A -> Prop) : Prop :=
  match r with
  | Ok a => P a
  | TypeError => False
  end.

(** A track file with one piece. *)
Definition single_piece (ty : TrackPieceType) (len : Z) (v : number) : TrackData :=
  {| pieces := [ {| piece_id := IdString "p"; piece_type := ty;
                    piece_length := len; piece_value := v |} ];
     placed := [] |}.

(** A source of randomness whose draws are all 0. *)
Definition zero_rng : RNG := {| draws := fun _ => 0%Z; cursor := 0 |}.

(** The running sum of the elevation pass, read off a store: the first
    segment starts at 0, every segment ends at its start plus its [hill]
    (a binary64 addition), and the next segment starts where it ends. *)
Definition runningSum (segs : list Segment) : Prop :=
  forall (i : nat) seg, segs !! i = Some seg ->
    (i = 0%nat -> y1 seg = 0%float) /\
    y2 seg = (y1 seg + hill seg)%float /\
    (forall next, segs !! Datatypes.S i = Some next -> y1 next = y2 seg).

(** Two segments that differ at most in their sprites. *)
Definition same_road (seg seg' : Segment) : Prop :=
  index seg' = index seg /\ p1 seg' = p1 seg /\ p2 seg' = p2 seg /\
  curve seg' = curve seg /\ hill seg' = hill seg /\ color seg' = color seg.




(** The player after a tick that ends. *)
Definition after_tick (fuel : nat) (g : Game) (dt : number) : option Player.t :=
  match update fuel g dt with
  | Some (Ok g') => Some (player g')
  | _ => None
  end.

(** A game on track [t] with the class's physics parameters. *)
Definition game_with (t : Track) (p : Player.t) (i : InputState) : Game :=
  {| track := t; renderer := Renderer_fields; input := i; position := 0;
     player := p; playerY := 0;
     centrifugalForce := 3.0; steeringRate := 3.0; steeringSpeedScale := 0.5 |}.

Definition no_keys : InputState :=
  {| left := false; right := false; up := false; down := false |}.
Definition key_up : InputState :=
  {| left := false; right := false; up := true; down := false |}.
Definition key_left : InputState :=
  {| left := true; right := false; up := false; down := false |}.

(** A record of the rounding procedure whose mantissa is non-negative and has
    at most [d] binary digits. *)
Definition small (d : Z) (mrs : shr_record) : Prop :=
  (0 <= shr_m mrs)%Z /\ (Zdigits2 (shr_m mrs) <= Z.max 0 d)%Z.

(** A specification float that is a number other than the infinities. *)
Definition SFfinite (x : spec_float) : Prop :=
  match x with
  | S754_zero _ | S754_finite _ _ _ => True
  | _ => False
  end.

(* ===================================================================== *)
(** ** Definitions used to state further properties of the track *)
(* ===================================================================== *)

(** [z] of the world coordinates of the two end points of a segment. *)
Definition z1 (seg : Segment) : number := WorldCoord.z (world (p1 seg)).
Definition z2 (seg : Segment) : number := WorldCoord.z (world (p2 seg)).

(** Every segment of a store carries its own position: in [index], and as
    the distance of its near and far edge for segments of length [sl]. *)
Definition indexedList (sl : number) (segs : list Segment) : Prop :=
  forall (i : nat) seg, segs !! i = Some seg ->
    index seg = Z.of_nat i /\
    z1 seg = (Num.of_int (Z.of_nat i) * sl)%float /\
    z2 seg = (Num.of_int (Z.of_nat i + 1) * sl)%float.

Definition indexed (t : Track) : Prop := indexedList (segmentLength t) (segments t).

(** The number of segments the three loops of a curve, hill or combined
    section run for a piece of length [count]. *)
Definition phaseCount (count : Z) : Z :=
  (Z.max 0 (count / 4) + Z.max 0 (count / 2)
   + Z.max 0 (count - count / 4 - count / 2))%Z.

(** The number of segments a piece makes. *)
Definition pieceCount (p : TrackPiece) : Z :=
  match piece_type p with
  | Straight => Z.max 0 (piece_length p)
  | Curve | Hill => phaseCount (piece_length p)
  end.

Definition totalCount (ps : list TrackPiece) : Z :=
  fold_right (fun p acc => (pieceCount p + acc)%Z) 0%Z ps.

(** The sum of the [length] fields of the pieces. *)
Definition totalLength (ps : list TrackPiece) : Z :=
  fold_right (fun p acc => (piece_length p + acc)%Z) 0%Z ps.

(** The intervals of [addSprites]: segment [i] is decorated when [i] is a
    multiple of one of them. *)
Definition decorationIntervals : list Z :=
  [ SPRITE_PLACEMENT.TREE_INTERVAL_LEFT; SPRITE_PLACEMENT.TREE_INTERVAL_RIGHT;
    SPRITE_PLACEMENT.BUSH_INTERVAL_LEFT; SPRITE_PLACEMENT.BUSH_INTERVAL_RIGHT;
    SPRITE_PLACEMENT.COLUMN_INTERVAL; SPRITE_PLACEMENT.ROCK_INTERVAL;
    SPRITE_PLACEMENT.BILLBOARD_INTERVAL ].

Definition undecorated (i : Z) : Prop :=
  Forall (fun k => Z.rem i k <> 0%Z) decorationIntervals.

(** A store without elevation: no segment climbs, and both edges of every
    segment lie at height 0. *)
Definition flat (segs : list Segment) : Prop :=
  Forall (fun seg => hill seg = 0%float /\ y1 seg = 0%float /\ y2 seg = 0%float) segs.

(** A store without bends. *)
Definition straight (segs : list Segment) : Prop :=
  Forall (fun seg => curve seg = 0%float) segs.

(** The segment indices [getTrackData] writes, from segment [i] on: one per
    sprite, segment after segment. *)
Fixpoint indicesFrom (i : Z) (segs : list Segment) : list Z :=
  match segs with
  | [] => []
  | seg :: rest => replicate (length (sprites seg)) i ++ indicesFrom (i + 1) rest
  end.

(** The two column posts of [addSprites]. *)
Definition leftColumn : Sprite :=
  {| sprite_type := "column"; sprite_offset := - SPRITE_PLACEMENT.OFFSETS.COLUMN |}.
Definition rightColumn : Sprite :=
  {| sprite_type := "column"; sprite_offset := SPRITE_PLACEMENT.OFFSETS.COLUMN |}.

(** [seg'] is [seg] with at most [n] sprites appended. *)
Definition grows (n : nat) (seg seg' : Segment) : Prop :=
  exists added, sprites seg' = sprites seg ++ added /\ (length added <= n)%nat.

(** A specification float with sign bit [s], or NaN. *)
Definition SFsigned (s : bool) (x : spec_float) : Prop :=
  match x with
  | S754_nan => True
  | S754_zero s' | S754_infinity s' | S754_finite s' _ _ => s' = s
  end.

(** A number that is not negative: NaN, or a number whose sign bit is clear. *)
Definition unsigned (x : number) : Prop := SFsigned false (Prim2SF x).

(** The colour band of the segment with index [i], for bands of [rl]
    segments: [Math.floor(i / rl) % 2 === 0]. *)
Definition lightBand (i : Z) (rl : number) : bool :=
  (Num.rem (Math.floor (Num.of_int i / rl)) 2 =? 0)%float.

(** Every segment of the track has the colours of the band of its index. *)
Definition banded (rl : number) (segs : list Segment) : Prop :=
  Forall (fun seg => color seg = if lightBand (index seg) rl
                                 then COLORS.LIGHT else COLORS.DARK) segs.

(* ===================================================================== *)
(** ** Renderer ([core/WebGLRenderer.ts]): fog and road geometry *)
(* ===================================================================== *)

Module RGB.
Record t : Set := mk { r : number; g : number; b : number }.
End RGB.

(** [SEGMENT_COLORS] of [config/colors.ts]. *)
Module SEGMENT_COLORS.
Record t : Set := mk { road : RGB.t; grass : RGB.t; rumble : RGB.t; lane : RGB.t }.
Definition LIGHT : t :=
  mk (RGB.mk 107 107 107) (RGB.mk 16 170 16) (RGB.mk 255 0 0) (RGB.mk 204 204 204).
Definition DARK : t :=
  mk (RGB.mk 105 105 105) (RGB.mk 0 154 0) (RGB.mk 255 255 255) (RGB.mk 105 105 105).
End SEGMENT_COLORS.

Definition with_fogDensity (r : Renderer) (d : number) : Renderer :=
  {| width := width r; height := height r; roadWidth := roadWidth r;
     cameraHeight := cameraHeight r; cameraDepth := cameraDepth r;
     drawDistance := drawDistance r; fogDensity := d |}.

Definition getFogAmount (r : Renderer) (z : number) : number :=
  if (fogDensity r =? 0)%float then 0%float
  else
    let fogStart := FOG.START_DISTANCE in
    let fogEnd :=
      (Num.of_int (drawDistance r)
       * (FOG.END_DISTANCE_MULTIPLIER - fogDensity r / 10))%float in
    if (z <=? fogStart)%float then 0%float
    else if (fogEnd <=? z)%float then 1%float
    else ((z - fogStart) / (fogEnd - fogStart))%float.

(** One vertex of the road buffers: its entry in [roadPositions],
    [roadColors] and [roadFogAmounts].  The buffers are [Float32Array]s; a
    vertex records the numbers the program stores, before the conversion to
    single precision of the store. *)
Record Vertex : Set := {
  pos_x : number; pos_y : number;
  col_r : number; col_g : number; col_b : number;
  fog : number
}.

(** The road buffers from vertex 0 up to the vertex offset: [addQuad] writes
    six vertices at the offset and returns the offset advanced by six. *)
Definition addQuad (buf : list Vertex) (x1 y1 x2 y2 x3 y3 x4 y4 : number)
    (color : RGB.t) (fogAmount : number) : list Vertex :=
  let r := (RGB.r color / 255)%float in
  let g := (RGB.g color / 255)%float in
  let b := (RGB.b color / 255)%float in
  let v x y := {| pos_x := x; pos_y := y; col_r := r; col_g := g; col_b := b;
                  fog := fogAmount |} in
  buf ++ [v x1 y1; v x2 y2; v x4 y4; v x2 y2; v x3 y3; v x4 y4].

Definition isLight (segment : Segment) : bool :=
  (Num.rem (Math.floor (Num.of_int (index segment) / ROAD.RUMBLE_LENGTH)) 2 =? 0)%float.

Definition buildSegmentGeometry (r : Renderer) (segment : Segment) (n : Z)
    (buf : list Vertex) : list Vertex :=
  let x1 := Screen.x (screen (p1 segment)) in
  let y1 := Screen.y (screen (p1 segment)) in
  let w1 := Screen.w (screen (p1 segment)) in
  let x2 := Screen.x (screen (p2 segment)) in
  let y2 := Screen.y (screen (p2 segment)) in
  let w2 := Screen.w (screen (p2 segment)) in
  let fogAmount := getFogAmount r (Num.of_int n) in
  let colors := if isLight segment then SEGMENT_COLORS.LIGHT else SEGMENT_COLORS.DARK in
  let buf := addQuad buf 0 y1 (width r) y1 (width r) y2 0 y2
               (SEGMENT_COLORS.grass colors) fogAmount in
  let rw1 := (w1 * ROAD.RUMBLE_WIDTH_RATIO)%float in
  let rw2 := (w2 * ROAD.RUMBLE_WIDTH_RATIO)%float in
  let buf := addQuad buf (x1 - w1 - rw1) y1 (x1 - w1) y1 (x2 - w2) y2 (x2 - w2 - rw2) y2
               (SEGMENT_COLORS.rumble colors) fogAmount in
  let buf := addQuad buf (x1 + w1) y1 (x1 + w1 + rw1) y1 (x2 + w2 + rw2) y2 (x2 + w2) y2
               (SEGMENT_COLORS.rumble colors) fogAmount in
  let buf := addQuad buf (x1 - w1) y1 (x1 + w1) y1 (x2 + w2) y2 (x2 - w2) y2
               (SEGMENT_COLORS.road colors) fogAmount in
  if isLight segment then
    let lw1 := (w1 * ROAD.LANE_WIDTH_RATIO)%float in
    let lw2 := (w2 * ROAD.LANE_WIDTH_RATIO)%float in
    let lx1a := (x1 - w1 * ROAD.LANE_POSITION_RATIO)%float in
    let lx2a := (x2 - w2 * ROAD.LANE_POSITION_RATIO)%float in
    let lx1b := (x1 + w1 * ROAD.LANE_POSITION_RATIO)%float in
    let lx2b := (x2 + w2 * ROAD.LANE_POSITION_RATIO)%float in
    let buf := addQuad buf (lx1a - lw1) y1 (lx1a + lw1) y1 (lx2a + lw2) y2 (lx2a - lw2) y2
                 (SEGMENT_COLORS.lane colors) fogAmount in
    addQuad buf (lx1b - lw1) y1 (lx1b + lw1) y1 (lx2b + lw2) y2 (lx2b - lw2) y2
      (SEGMENT_COLORS.lane colors) fogAmount
  else buf.

(** The road pass together with the road buffers it fills.  An iteration
    of the projection loop reaches [buildSegmentGeometry] exactly when
    [roadStep] records its counter in [drawn]; the geometry is built from the
    segment as that iteration projected it. *)
Record Frame : Set := { pass : RoadPass; roadVertices : list Vertex }.

Definition renderStep (r : Renderer) (t : Track) (position playerX camPlayerY : number)
    (baseIndex : Z) (n : Z) (f : Frame) : Result Frame :=
  bind (roadStep r t position playerX camPlayerY baseIndex n (pass f)) (fun st =>
    if (length (drawn (pass f)) <? length (drawn st))%nat then
      let segmentIndex := Z.rem (baseIndex + n) (Z.of_nat (length (store (pass f)))) in
      match store st !! Z.to_nat segmentIndex with
      | Some segment =>
          Ok {| pass := st;
                roadVertices := buildSegmentGeometry r segment n (roadVertices f) |}
      | None => TypeError
      end
    else Ok {| pass := st; roadVertices := roadVertices f |}).

Definition renderLoop (r : Renderer) (t : Track) (position playerX camPlayerY : number)
    (baseIndex : Z) (f : Frame) : Result Frame :=
  for_range (drawDistance r)
    (fun n acc => bind acc (renderStep r t position playerX camPlayerY baseIndex n))
    (Ok f).

(** [render], up to the end of the projection loop: the state of the road
    pass and the vertices handed to [renderRoad]. *)
Definition renderRoad (r : Renderer) (t : Track) (position playerX : number)
    (playerY : option number) : Result Frame :=
  match getSegment t position with
  | None => TypeError
  | Some baseSegment =>
      let basePercent := (Num.rem position (segmentLength t) / segmentLength t)%float in
      let camPlayerY :=
        match playerY with
        | Some v => v
        | None =>
            (WorldCoord.y (world (p1 baseSegment))
             + (WorldCoord.y (world (p2 baseSegment)) - WorldCoord.y (world (p1 baseSegment)))
               * basePercent)%float
        end in
      renderLoop r t position playerX camPlayerY (index baseSegment)
        {| pass := {| store := segments t;
                      maxy := height r;
                      acc_x := 0;
                      acc_dx := - (curve baseSegment * basePercent);
                      pool := [];
                      drawn := [];
                      horizons := [height r] |};
           roadVertices := [] |}
  end.

(** The capacity of the road buffers, in vertices:
    [maxRoadVertices = drawDistance * 6 * 6]. *)
Definition maxRoadVertices (r : Renderer) : Z := (drawDistance r * 6 * 6)%Z.

(** A segment of the store after a road pass: the pass writes the camera and
    screen coordinates and the scale of its two points and nothing else. *)
Definition same_world (seg seg' : Segment) : Prop :=
  index seg' = index seg /\ curve seg' = curve seg /\ hill seg' = hill seg /\
  color seg' = color seg /\ sprites seg' = sprites seg /\
  world (p1 seg') = world (p1 seg) /\ world (p2 seg') = world (p2 seg).

(** The fog amounts of the loop counters [0 .. count - 1] for the integer
    fog density [d]: all in [0, 1], and never decreasing with the counter. *)
Definition fogProfileOk (r : Renderer) (count : nat) : bool :=
  forallb (fun n : nat =>
             let f := getFogAmount r (Num.of_int (Z.of_nat n)) in
             let f' := getFogAmount r (Num.of_int (Z.of_nat n + 1)) in
             (0 <=? f)%float && (f <=? 1)%float && (f <=? f')%float)
          (seq 0 count).

(** The invariant of the projection loop after [k] iterations, on a track
    whose store was [segs0] when the pass began. *)
Definition passInv (segs0 : list Segment) (k : nat) (st : RoadPass) : Prop :=
  length (pool st) = k /\
  Forall (fun e : Z * number => (0 <= fst e < Z.of_nat (length segs0))%Z) (pool st) /\
  (length (drawn st) <= k)%nat /\
  StronglySorted Z.lt (drawn st) /\
  Forall (fun n => (0 <= n < Z.of_nat k)%Z) (drawn st) /\
  length (store st) = length segs0 /\
  (forall (i : nat) seg', store st !! i = Some seg' ->
     exists seg, segs0 !! i = Some seg /\ same_world seg seg').

(** What the road buffers hold during the projection loop: four to six
    quads of six vertices for every counter drawn, each vertex with the fog
    amount of the counter it was drawn for. *)
Definition frameInv (r : Renderer) (f : Frame) : Prop :=
  (24 * length (drawn (pass f)) <= length (roadVertices f)
   <= 36 * length (drawn (pass f)))%nat /\
  Forall (fun v => exists n, n ∈ drawn (pass f) /\
                             fog v = getFogAmount r (Num.of_int n))
         (roadVertices f).

(** The frame and the road pass fail together, and otherwise the frame
    holds the state of the road pass. *)
Definition frameOf (r : Renderer) (accF : Result Frame) (accP : Result RoadPass) : Prop :=
  match accP with
  | Ok st => exists f, accF = Ok f /\ pass f = st /\ frameInv r f
  | TypeError => accF = TypeError
  end.

(** The number of drawn counters below [n]. *)
Definition drawnBefore (n : Z) (l : list Z) : nat :=
  length (List.filter (fun d => (d <? n)%Z) l).


(* ===================================================================== *)
(** ** Keyboard input ([core/Input.ts]) *)
(* ===================================================================== *)

(** [case k1: case k2: case k3:] of a [switch] on a string. *)
Definition key_in (key : string) (labels : list string) : bool :=
  existsb (String.eqb key) labels.

Definition handleKey (st : InputState) (key : string) (pressed : bool) : InputState :=
  if key_in key ["ArrowLeft"; "a"; "A"]%string then
    {| left := pressed; right := right st; up := up st; down := down st |}
  else if key_in key ["ArrowRight"; "d"; "D"]%string then
    {| left := left st; right := pressed; up := up st; down := down st |}
  else if key_in key ["ArrowUp"; "w"; "W"]%string then
    {| left := left st; right := right st; up := pressed; down := down st |}
  else if key_in key ["ArrowDown"; "s"; "S"]%string then
    {| left := left st; right := right st; up := up st; down := pressed |}
  else st.

(** The flag a key is bound to: 0 to 3 for left, right, up, down. *)
Definition flagOf (key : string) : option nat :=
  if key_in key ["ArrowLeft"; "a"; "A"]%string then Some 0%nat
  else if key_in key ["ArrowRight"; "d"; "D"]%string then Some 1%nat
  else if key_in key ["ArrowUp"; "w"; "W"]%string then Some 2%nat
  else if key_in key ["ArrowDown"; "s"; "S"]%string then Some 3%nat
  else None.

(** A game at a given position of its track. *)
Definition game_at (t : Track) (pos : number) (p : Player.t) (i : InputState) : Game :=
  {| track := t; renderer := Renderer_fields; input := i; position := pos;
     player := p; playerY := 0;
     centrifugalForce := 3.0; steeringRate := 3.0; steeringSpeedScale := 0.5 |}.

(** The position a tick reaches before it is wrapped into the track. *)
Definition advanced (g : Game) (dt : number) : number :=
  (position g
   + (nextSpeed g (steer g dt) dt * dt * segmentLength (track g)) / 10)%float.

(** [Game.render] chooses the steering direction of the car sprite. *)
Definition steerDirection (i : InputState) : number :=
  let d := 0%float in
  let d := if left i then (-1)%float else d in
  if right i then 1%float else d.

(* ===================================================================== *)
(** ** Renderer ([core/WebGLRenderer.ts]): the sprite pass *)
(* ===================================================================== *)


(** A frame of the sprite sheet. *)
Record SpriteFrame : Set := {
  frame_x : number; frame_y : number; frame_w : number; frame_h : number
}.


Section SpritePass.

(** The tables of [sprites/spritesheet-data] (generated, not part of the
    sources) and the [scale] field of [SPRITE_REGISTRY]: a type is mapped
    to its frame and to its scale, if it has one. *)
Variable SPRITESHEET_FRAMES : SpriteType -> option SpriteFrame.
Variable SPRITESHEET_SIZE : number * number.
Variable SPRITE_REGISTRY : SpriteType -> option number.





End SpritePass.


(* ===================================================================== *)
(** * Facts *)
(* ===================================================================== *)

(** ** Number primitives on sample values *)

Example floor_examples :
  (Math.floor 2.5 = 2 /\ Math.floor (-2.5) = -3 /\ Math.floor 0.25 = 0 /\
   Math.floor (-0.25) = -1 /\ Math.floor 1e300 = 1e300)%float.
Proof. repeat split; reflexivity. Qed.

Example round_examples :
  (Math.round 1248.0 = 1248 /\ Math.round 441.6 = 442 /\ Math.round 2.5 = 3 /\
   Math.round (-2.5) = -2 /\ Math.round (-0.2) = -0 /\ Math.round 0.49 = 0)%float.
Proof. repeat split; reflexivity. Qed.

Example rem_examples :
  (Num.rem 450 200 = 50 /\ Num.rem (-450) 200 = -50 /\ Num.rem 5.5 2 = 1.5 /\
   Num.rem 0 200 = 0 /\ Num.rem 1 0 = nan /\ Num.rem 1e300 200 = 160)%float.
Proof. repeat split; vm_compute; reflexivity. Qed.

(** ** Order of binary64 numbers

    The comparisons of primitive floats are specified by [SFcompare] on
    [spec_float]; the facts below are the ones the clamps of the integrator
    rely on.  NaN is unordered, so each fact names the operands that must be
    numbers. *)

Section FloatOrder.
Local Open Scope float_scope.

Lemma SFcompare_antisym a b :
  SFcompare b a = option_map CompOpp (SFcompare a b).
Proof.
  destruct a as [sa|sa| |sa ma ea], b as [sb|sb| |sb mb eb]; simpl;
    try reflexivity; try (destruct sa; reflexivity); try (destruct sb; reflexivity);
    try (destruct sa, sb; reflexivity).
  change (Pos.compare_cont Eq) with Pos.compare.
  rewrite (Z.compare_antisym ea eb), (Pos.compare_antisym ma mb).
  destruct sa, sb; simpl; try reflexivity;
    destruct (ea ?= eb)%Z; simpl; try reflexivity.
Qed.

Lemma SFcompare_refl a : a <> S754_nan -> SFcompare a a = Some Eq.
Proof.
  destruct a as [s|s| |s m e]; simpl; intros H; try congruence.
  - destruct s; reflexivity.
  - rewrite Z.compare_refl. 
    change (Pos.compare_cont Eq m m) with (Pos.compare m m). rewrite Pos.compare_refl. destruct s; reflexivity.
Qed.

Lemma is_nan_Prim2SF x : is_nan x = false -> Prim2SF x <> S754_nan.
Proof.
  unfold is_nan. rewrite FloatAxioms.eqb_spec. intros H E. rewrite E in H. discriminate.
Qed.

Lemma Prim2SF_is_nan x : Prim2SF x <> S754_nan -> is_nan x = false.
Proof.
  intros H. unfold is_nan. rewrite FloatAxioms.eqb_spec. unfold SFeqb.
  rewrite SFcompare_refl by exact H. reflexivity.
Qed.

Lemma SFcompare_some a b :
  a <> S754_nan -> b <> S754_nan -> exists c, SFcompare a b = Some c.
Proof.
  destruct a, b; simpl; intros; try congruence; eauto.
Qed.

Lemma ltb_leb x y : (x <? y) = true -> (x <=? y) = true.
Proof.
  rewrite FloatAxioms.ltb_spec, FloatAxioms.leb_spec. unfold SFltb, SFleb.
  destruct (SFcompare _ _) as [[]|]; congruence.
Qed.

Lemma leb_refl x : is_nan x = false -> (x <=? x) = true.
Proof.
  intros H. rewrite FloatAxioms.leb_spec. unfold SFleb.
  rewrite SFcompare_refl by (apply is_nan_Prim2SF, H). reflexivity.
Qed.

Lemma not_ltb_leb x y :
  is_nan x = false -> is_nan y = false -> (x <? y) = false -> (y <=? x) = true.
Proof.
  intros Hx Hy. rewrite FloatAxioms.ltb_spec, FloatAxioms.leb_spec. unfold SFltb, SFleb.
  rewrite (SFcompare_antisym (Prim2SF x) (Prim2SF y)).
  destruct (SFcompare_some _ _ (is_nan_Prim2SF _ Hx) (is_nan_Prim2SF _ Hy)) as [c ->].
  destruct c; simpl; congruence.
Qed.

Lemma leb_not_nan x y : (x <=? y) = true -> is_nan x = false /\ is_nan y = false.
Proof.
  rewrite FloatAxioms.leb_spec. unfold SFleb. intros H.
  split; apply Prim2SF_is_nan; intros E; rewrite E in H; simpl in H;
    try discriminate. destruct (Prim2SF x); discriminate.
Qed.

Lemma SFleb_trans a b c : SFleb a b = true -> SFleb b c = true -> SFleb a c = true.
Proof.
  unfold SFleb.
  destruct a as [sa|sa| |sa ma ea], b as [sb|sb| |sb mb eb], c as [sc|sc| |sc mc ec];
    simpl; try discriminate; try reflexivity;
    try (destruct sa; simpl; try discriminate; try reflexivity);
    try (destruct sb; simpl; try discriminate; try reflexivity);
    try (destruct sc; simpl; try discriminate; try reflexivity).
  all: change (Pos.compare_cont Eq) with Pos.compare.
  all: destruct (Z.compare_spec ea eb), (Z.compare_spec eb ec), (Z.compare_spec ea ec);
    try discriminate; try reflexivity; try lia; subst.
  all: destruct (Pos.compare_spec ma mb), (Pos.compare_spec mb mc), (Pos.compare_spec ma mc);
    simpl; try discriminate; try reflexivity; try lia.
Qed.

Lemma leb_trans x y z : (x <=? y) = true -> (y <=? z) = true -> (x <=? z) = true.
Proof. rewrite !FloatAxioms.leb_spec. apply SFleb_trans. Qed.

Lemma min_not_nan a b :
  is_nan (Math.min a b) = false -> is_nan a = false /\ is_nan b = false.
Proof.
  unfold Math.min. destruct (is_nan a) eqn:Ha, (is_nan b) eqn:Hb; simpl;
    intros H; try (vm_compute in H; discriminate). auto.
Qed.

Lemma max_not_nan a b :
  is_nan (Math.max a b) = false -> is_nan a = false /\ is_nan b = false.
Proof.
  unfold Math.max. destruct (is_nan a) eqn:Ha, (is_nan b) eqn:Hb; simpl;
    intros H; try (vm_compute in H; discriminate). auto.
Qed.

Lemma min_spec a b :
  is_nan a = false -> is_nan b = false ->
  (Math.min a b = a \/ Math.min a b = b) /\
  (Math.min a b <=? a) = true /\ (Math.min a b <=? b) = true.
Proof.
  intros Ha Hb. unfold Math.min. rewrite Ha, Hb. simpl.
  destruct (a <? b) eqn:Hab.
  { repeat split; auto using leb_refl, ltb_leb. }
  destruct (b <? a) eqn:Hba.
  { repeat split; auto using leb_refl, ltb_leb. }
  pose proof (not_ltb_leb _ _ Ha Hb Hab). pose proof (not_ltb_leb _ _ Hb Ha Hba).
  destruct (get_sign a); repeat split; auto using leb_refl.
Qed.

Lemma max_spec a b :
  is_nan a = false -> is_nan b = false ->
  (Math.max a b = a \/ Math.max a b = b) /\
  (a <=? Math.max a b) = true /\ (b <=? Math.max a b) = true.
Proof.
  intros Ha Hb. unfold Math.max. rewrite Ha, Hb. simpl.
  destruct (b <? a) eqn:Hba.
  { repeat split; auto using leb_refl, ltb_leb. }
  destruct (a <? b) eqn:Hab.
  { repeat split; auto using leb_refl, ltb_leb. }
  pose proof (not_ltb_leb _ _ Ha Hb Hab). pose proof (not_ltb_leb _ _ Hb Ha Hba).
  destruct (get_sign a); repeat split; auto using leb_refl.
Qed.

(** [Math.max lo (Math.min v hi)] and [Math.max lo (Math.min hi v)]. *)
Lemma clamp_bounds lo v hi r :
  r = Math.max lo (Math.min v hi) \/ r = Math.max lo (Math.min hi v) ->
  is_nan r = false -> (lo <=? hi) = true ->
  (lo <=? r) = true /\ (r <=? hi) = true /\ is_nan v = false.
Proof.
  intros Hr Hn Hle.
  assert (exists w, r = Math.max lo w /\ is_nan w = false /\ (w <=? hi) = true
                    /\ is_nan v = false) as (w & -> & Hw & Hwhi & Hv).
  { destruct Hr as [-> | ->]; eexists; split; try reflexivity;
      destruct (max_not_nan _ _ Hn) as [_ Hm];
      destruct (min_not_nan _ _ Hm) as [H1 H2];
      destruct (min_spec _ _ H1 H2) as (_ & ? & ?); auto. }
  destruct (max_not_nan _ _ Hn) as [Hlo _].
  destruct (max_spec _ _ Hlo Hw) as ([-> | ->] & ? & ?); auto.
Qed.
End FloatOrder.

(** ** Division by the segment length

    [Math.floor(z / segmentLength)] is a finite integer for every finite [z]:
    dividing by 200 lowers the exponent, so the rounding of the quotient
    cannot overflow.  The facts are read off the specification of binary64
    division ([SFdiv]). *)

Lemma digits2_pos_size p : digits2_pos p = Pos.size p.
Proof. induction p; simpl; congruence. Qed.

Lemma Zdigits2_nonneg m : (0 <= Zdigits2 m)%Z.
Proof. destruct m; simpl; lia. Qed.

(** A non-negative integer below [2^k] has at most [k] binary digits. *)
Lemma Zdigits2_le m k : (0 <= m < 2 ^ k)%Z -> (0 <= k)%Z -> (Zdigits2 m <= k)%Z.
Proof.
  intros [H0 Hm] Hk. destruct m as [|p|p]; simpl; try lia.
  rewrite digits2_pos_size.
  destruct (Z.le_gt_cases (Z.pos (Pos.size p)) k) as [|Hgt]; [assumption|exfalso].
  pose proof (Pos.size_le p) as Hle.
  assert (H2 : (2 ^ Z.pos (Pos.size p) <= 2 * Z.pos p)%Z).
  { rewrite <- Pos2Z.inj_pow. change (2 * Z.pos p)%Z with (Z.pos p~0). lia. }
  assert (H3 : (2 ^ (k + 1) <= 2 ^ Z.pos (Pos.size p))%Z)
    by (apply Z.pow_le_mono_r; lia).
  rewrite Z.pow_add_r in H3 by lia. lia.
Qed.

(** Adding one adds at most one digit. *)
Lemma Zdigits2_succ m : (0 <= m)%Z -> (Zdigits2 (m + 1) <= Zdigits2 m + 1)%Z.
Proof.
  intros H0. pose proof (Zdigits2_nonneg m) as Hd.
  apply Zdigits2_le; [|lia]. split; [lia|].
  destruct m as [|p|p]; simpl Zdigits2 in *; try lia.
  rewrite digits2_pos_size. pose proof (Pos.size_gt p) as Hgt.
    assert (Z.pos p < 2 ^ Z.pos (Pos.size p))%Z by (rewrite <- Pos2Z.inj_pow; lia).
    rewrite Z.pow_add_r by lia. lia.
Qed.

Lemma shr_1_small d mrs : small d mrs -> small (d - 1) (shr_1 mrs).
Proof.
  destruct mrs as [m r s]. unfold small. simpl.
  destruct m as [|[p|p|]|p]; simpl; intros [H0 Hd]; try lia.
Qed.

Lemma iter_shr_1_small p : forall d mrs,
  small d mrs -> small (d - Z.pos p) (SpecFloat.iter_pos shr_1 p mrs).
Proof.
  induction p as [p IH|p IH|]; intros d mrs H; simpl.
  - apply shr_1_small in H. apply IH in H. apply IH in H.
    replace (d - Z.pos p~1)%Z with (d - 1 - Z.pos p - Z.pos p)%Z by lia. exact H.
  - apply IH in H. apply IH in H.
    replace (d - Z.pos p~0)%Z with (d - Z.pos p - Z.pos p)%Z by lia. exact H.
  - now apply shr_1_small.
Qed.

(** After [shr_fexp] the mantissa is non-negative and the exponent and the
    number of digits stay within the bounds they started in. *)
Lemma shr_fexp_bounds m e l bound :
  (0 <= m)%Z -> (e <= bound)%Z -> (Zdigits2 m + e <= bound + prec)%Z ->
  (-1074 <= bound)%Z ->
  let '(mrs, e') := shr_fexp prec emax m e l in
  (0 <= shr_m mrs)%Z /\ (e' <= bound)%Z /\ (Zdigits2 (shr_m mrs) + e' <= bound + prec)%Z.
Proof.
  intros H0 He Hd Hb. unfold shr_fexp, shr.
  set (rec0 := shr_record_of_loc m l).
  assert (Hrec : shr_m rec0 = m) by (unfold rec0; destruct l as [|[]]; reflexivity).
  assert (Hf : fexp prec emax (Zdigits2 m + e)
               = Z.max (Zdigits2 m + e - 53) (-1074)) by reflexivity.
  destruct (fexp prec emax (Zdigits2 m + e) - e)%Z as [|n|n] eqn:Hn.
  - rewrite Hrec. repeat split; assumption.
  - assert (Hs : small (Zdigits2 m) rec0) by (unfold small; rewrite Hrec; lia).
    apply (iter_shr_1_small n) in Hs. destruct Hs as [Hs0 Hs1].
    unfold prec in *. repeat split; [assumption|lia|lia].
  - rewrite Hrec. repeat split; assumption.
Qed.

Lemma round_nearest_even_bounds m l :
  (0 <= m)%Z ->
  (0 <= round_nearest_even m l)%Z /\
  (Zdigits2 (round_nearest_even m l) <= Zdigits2 m + 1)%Z.
Proof.
  intros H0. pose proof (Zdigits2_succ m H0). pose proof (Zdigits2_nonneg m).
  unfold round_nearest_even. destruct l as [|[]]; try destruct (Z.even m); split; lia.
Qed.

(** Rounding a non-negative mantissa of moderate size does not overflow. *)
Lemma binary_round_aux_finite s m e l :
  (0 <= m)%Z -> (e <= 969)%Z -> (Zdigits2 m + e <= 1022)%Z ->
  SFfinite (binary_round_aux prec emax s m e l).
Proof.
  intros H0 He Hd. unfold binary_round_aux.
  pose proof (shr_fexp_bounds m e l 969 H0 He ltac:(unfold prec; lia) ltac:(lia)) as H1.
  destruct (shr_fexp prec emax m e l) as [mrs' e']. destruct H1 as (A0 & A1 & A2).
  destruct (round_nearest_even_bounds (shr_m mrs') (loc_of_shr_record mrs') A0)
    as [B0 B1].
  pose proof (shr_fexp_bounds (round_nearest_even (shr_m mrs') (loc_of_shr_record mrs'))
                e' loc_Exact 970 B0 ltac:(lia) ltac:(unfold prec in *; lia) ltac:(lia))
    as H2.
  destruct (shr_fexp prec emax _ e' loc_Exact) as [mrs'' e'']. destruct H2 as (C0 & C1 & _).
  destruct (shr_m mrs'') as [|p|p]; [exact I| |lia].
  replace (e'' <=? emax - prec)%Z with true; [exact I|].
  symmetry. apply Z.leb_le. unfold emax, prec. lia.
Qed.

(** The quotient the division core hands to the rounding. *)
Lemma SFdiv_core_bounds mx ex my ey :
  (2 ^ 52 <= Z.pos my)%Z -> (Z.pos mx < 2 ^ 53)%Z ->
  let '(q, e', _) := SFdiv_core_binary prec emax (Z.pos mx) ex (Z.pos my) ey in
  (0 <= q)%Z /\
  (e' <= Z.max (Z.pos (digits2_pos mx) + ex - (Z.pos (digits2_pos my) + ey) - 53) (-1074))%Z /\
  (Zdigits2 q + e' <= Z.max (ex - ey + 1) e')%Z.
Proof.
  intros Hmy Hmx. unfold SFdiv_core_binary.
  set (e' := Z.min _ _).
  assert (He' : (e' <= Z.max (Z.pos (digits2_pos mx) + ex - (Z.pos (digits2_pos my) + ey) - 53)
                            (-1074))%Z /\ (e' <= ex - ey)%Z).
  { unfold e'. cbn [Zdigits2]. unfold fexp, SpecFloat.emin, prec, emax. lia. }
  set (s := (ex - ey - e')%Z).
  set (m' := match s with Z.pos _ => Z.shiftl (Z.pos mx) s | 0%Z => Z.pos mx | Z.neg _ => 0%Z end).
  assert (Hm' : (0 <= m' < 2 ^ (53 + s))%Z).
  { assert (0 <= s)%Z by (unfold s; lia).
    unfold m'. destruct s as [|p|p] eqn:Hs; try lia.
    rewrite Z.shiftl_mul_pow2 by lia. rewrite Z.pow_add_r by lia.
    split; [lia|]. apply Z.mul_lt_mono_pos_r; lia. }
  pose proof (Z.div_eucl_eq m' (Z.pos my) ltac:(lia)) as Heq.
  pose proof (Z.mod_pos_bound m' (Z.pos my) ltac:(lia)) as Hr.
  unfold Z.modulo in Hr.
  destruct (Z.div_eucl m' (Z.pos my)) as [q r].
  assert (Hq0 : (0 <= q)%Z) by nia.
  split; [exact Hq0|]. split; [apply He'|].
  assert (Hs0 : (0 <= s)%Z) by (unfold s; lia).
  assert (Hq : (q < 2 ^ (s + 1))%Z).
  { assert (q * 2 ^ 52 < 2 ^ (53 + s))%Z by nia.
    replace (53 + s)%Z with ((s + 1) + 52)%Z in H by lia.
    rewrite Z.pow_add_r in H by lia. nia. }
  pose proof (Zdigits2_le q (s + 1) (conj Hq0 Hq) ltac:(lia)). unfold s in *. lia.
Qed.

Lemma is_finite_SFfinite x : is_finite x = true <-> SFfinite (Prim2SF x).
Proof.
  unfold is_finite, is_nan, is_infinity.
  rewrite !FloatAxioms.eqb_spec, abs_spec.
  change (Prim2SF infinity) with (S754_infinity false).
  destruct (Prim2SF x) as [s|s| |s m e]; unfold SFeqb; cbn;
    rewrite ?Z.compare_refl, ?Pos.compare_cont_refl;
    try destruct s; cbn; split; intros H;
    try exact I; try reflexivity; try discriminate; try contradiction.
Qed.

(** A finite number divided by 200 is finite: the exponent only goes down. *)
Lemma div_200_finite z : is_finite z = true -> is_finite (z / 200) = true.
Proof.
  rewrite !is_finite_SFfinite, div_spec.
  change (Prim2SF 200) with (S754_finite false 7036874417766400 (-45)).
  pose proof (Prim2SF_valid z) as Hv.
  destruct (Prim2SF z) as [s|s| |s m e]; cbn; try tauto.
  intros _. unfold SF64div, SFdiv.
  cbn in Hv. unfold bounded, canonical_mantissa in Hv.
  apply andb_true_iff in Hv as [Hc He].
  apply Z.eqb_eq in Hc. apply Z.leb_le in He.
  unfold fexp, SpecFloat.emin, prec, emax in Hc, He.
  assert (Hd : (Z.pos (digits2_pos m) <= 53)%Z) by lia.
  assert (Hm : (Z.pos m < 2 ^ 53)%Z).
  { pose proof (Pos.size_gt m) as Hgt. rewrite digits2_pos_size in Hd.
    assert (Z.pos m < 2 ^ Z.pos (Pos.size m))%Z by (rewrite <- Pos2Z.inj_pow; lia).
    assert (2 ^ Z.pos (Pos.size m) <= 2 ^ 53)%Z by (apply Z.pow_le_mono_r; lia).
    lia. }
  pose proof (SFdiv_core_bounds m e 7036874417766400 (-45) ltac:(lia) Hm) as Hcore.
  destruct (SFdiv_core_binary prec emax (Z.pos m) e 7036874417766400 (-45))
    as [[q e'] l].
  destruct Hcore as (Hq & He' & Hdq).
  change (Z.pos (digits2_pos 7036874417766400)) with 53%Z in He'.
  apply binary_round_aux_finite; lia.
Qed.

(** ** Loops and the segment store *)

Section Loops.
Context {S : Type}.
Implicit Types (body : Z -> S -> S) (s : S).

Lemma for_range_nonpos count body s : (count <= 0)%Z -> for_range count body s = s.
Proof.
  intros H. unfold for_range. replace (Z.to_nat count) with 0%nat by lia. reflexivity.
Qed.

(** A loop invariant indexed by the number of rounds done. *)
Lemma for_range_inv (Inv : nat -> S -> Prop) count body s :
  Inv 0%nat s ->
  (forall k acc, (k < Z.to_nat count)%nat -> Inv k acc ->
                 Inv (Datatypes.S k) (body (Z.of_nat k) acc)) ->
  Inv (Z.to_nat count) (for_range count body s).
Proof.
  unfold for_range. induction (Z.to_nat count) as [|n IH]; intros H0 Hstep.
  - exact H0.
  - rewrite seq_S, fold_left_app. simpl. apply Hstep; [lia|].
    apply IH; [exact H0|]. intros k acc Hk. apply Hstep. lia.
Qed.

Lemma for_range_preserves (P : S -> Prop) count body s :
  P s -> (forall i acc, P acc -> P (body i acc)) -> P (for_range count body s).
Proof.
  intros H0 Hstep.
  apply (for_range_inv (fun _ => P) count body s H0). intros. now apply Hstep.
Qed.
End Loops.

Lemma same_fields_refl t : same_fields t t.
Proof. repeat split. Qed.

Lemma same_fields_trans t1 t2 t3 :
  same_fields t1 t2 -> same_fields t2 t3 -> same_fields t1 t3.
Proof. unfold same_fields. intros (-> & -> & -> & ->) (-> & -> & -> & ->). repeat split. Qed.

Lemma newSegment_same_fields t t' n c h :
  same_fields t t' -> newSegment t' n c h = newSegment t n c h.
Proof.
  intros (Hs & Hr & _). unfold newSegment, createScreenCoord. now rewrite Hs, Hr.
Qed.

Lemma addSegment_eq t c h :
  addSegment t c h = set_segments t (segments t ++ [newSegment t (segments_length t) c h]).
Proof. reflexivity. Qed.

(** What a loop of [addSegment] calls does to the track. *)
Lemma for_range_addSegment t count (f h : Z -> number) :
  let t' := for_range count (fun i t => addSegment t (f i) (h i)) t in
  segments t' = segments t ++ emitted t (segments_length t) (Z.to_nat count) f h
  /\ same_fields t t'.
Proof.
  apply (for_range_inv
           (fun k t' => segments t' = segments t ++ emitted t (segments_length t) k f h
                        /\ same_fields t t')).
  - split; [|apply same_fields_refl]. unfold emitted. simpl. now rewrite app_nil_r.
  - intros k acc _ [Hseg Hf]. split.
    + rewrite addSegment_eq. simpl. rewrite Hseg, <- app_assoc. f_equal.
      unfold emitted. rewrite seq_S, map_app. simpl. f_equal. f_equal.
      rewrite (newSegment_same_fields t acc) by exact Hf.
      f_equal. unfold segments_length. rewrite Hseg, length_app.
      unfold emitted. rewrite length_map, length_seq. lia.
    + destruct Hf as (? & ? & ? & ?). repeat split; assumption.
Qed.

Lemma length_emitted t n k f h : length (emitted t n k f h) = k.
Proof. unfold emitted. now rewrite length_map, length_seq. Qed.

Lemma lookup_emitted t n k f h (i : nat) :
  (i < k)%nat ->
  emitted t n k f h !! i
  = Some (newSegment t (n + Z.of_nat i) (f (Z.of_nat i)) (h (Z.of_nat i))).
Proof.
  intros Hi. unfold emitted.
  change (map ?g ?l) with (g <$> l).
  rewrite list_lookup_fmap, lookup_seq_lt by exact Hi. reflexivity.
Qed.

Lemma emitted_same_fields t t' n k f h :
  same_fields t t' -> emitted t' n k f h = emitted t n k f h.
Proof.
  intros Hf. unfold emitted. apply map_ext. intros i. now apply newSegment_same_fields.
Qed.

Lemma Forall_bare_emitted t n k f h :
  Forall (fun seg => sprites seg = []) (emitted t n k f h).
Proof. unfold emitted. induction (seq 0 k); simpl; constructor; auto. Qed.

(** The enter, hold and exit loops of [addCurve], [addHill] and
    [addCurveWithHill], one after the other. *)
Lemma three_loops t a b c (fa ha fb hb fc hc : Z -> number) :
  let n := segments_length t in
  let t1 := for_range a (fun i t => addSegment t (fa i) (ha i)) t in
  let t2 := for_range b (fun i t => addSegment t (fb i) (hb i)) t1 in
  let t3 := for_range c (fun i t => addSegment t (fc i) (hc i)) t2 in
  segments t3
  = segments t ++ emitted t n (Z.to_nat a) fa ha
    ++ emitted t (n + Z.of_nat (Z.to_nat a)) (Z.to_nat b) fb hb
    ++ emitted t (n + Z.of_nat (Z.to_nat a) + Z.of_nat (Z.to_nat b)) (Z.to_nat c) fc hc
  /\ same_fields t t3.
Proof.
  intros n t1 t2 t3.
  destruct (for_range_addSegment t a fa ha) as [H1 F1]. fold t1 in H1, F1.
  destruct (for_range_addSegment t1 b fb hb) as [H2 F2]. fold t2 in H2, F2.
  destruct (for_range_addSegment t2 c fc hc) as [H3 F3]. fold t3 in H3, F3.
  assert (L1 : segments_length t1 = (n + Z.of_nat (Z.to_nat a))%Z).
  { unfold segments_length, n. rewrite H1, length_app, length_emitted.
    unfold segments_length. lia. }
  assert (L2 : segments_length t2
               = (n + Z.of_nat (Z.to_nat a) + Z.of_nat (Z.to_nat b))%Z).
  { unfold segments_length at 1.
    rewrite H2, length_app, length_emitted, Nat2Z.inj_add.
    change (Z.of_nat (length (segments t1))) with (segments_length t1).
    now rewrite L1. }
  split; [|eauto using same_fields_trans].
  rewrite H3, H2, H1, L2, L1, <- !app_assoc.
  rewrite (emitted_same_fields t t1) by exact F1.
  rewrite (emitted_same_fields t t2) by eauto using same_fields_trans.
  reflexivity.
Qed.

Lemma addStraight_segments t count :
  segments (addStraight t count)
  = segments t ++ emitted t (segments_length t) (Z.to_nat count)
                    (fun _ => 0%float) (fun _ => 0%float)
  /\ same_fields t (addStraight t count).
Proof. exact (for_range_addSegment t count _ _). Qed.

Lemma addCurve_segments t count c :
  let a := (count / 4)%Z in
  let b := (count / 2)%Z in
  let e := (count - a - b)%Z in
  let n := segments_length t in
  segments (addCurve t count c)
  = segments t
    ++ emitted t n (Z.to_nat a)
         (fun i => (c * Num.of_int i / Num.of_int a)%float) (fun _ => 0%float)
    ++ emitted t (n + Z.of_nat (Z.to_nat a)) (Z.to_nat b) (fun _ => c) (fun _ => 0%float)
    ++ emitted t (n + Z.of_nat (Z.to_nat a) + Z.of_nat (Z.to_nat b)) (Z.to_nat e)
         (fun i => (c * (1 - Num.of_int i / Num.of_int e))%float) (fun _ => 0%float)
  /\ same_fields t (addCurve t count c).
Proof. intros a b e n. exact (three_loops t a b e _ _ _ _ _ _). Qed.

Lemma addHill_segments t count v :
  let a := (count / 4)%Z in
  let b := (count / 2)%Z in
  let e := (count - a - b)%Z in
  let n := segments_length t in
  segments (addHill t count v)
  = segments t
    ++ emitted t n (Z.to_nat a)
         (fun _ => 0%float) (fun i => (v * Num.of_int i / Num.of_int a)%float)
    ++ emitted t (n + Z.of_nat (Z.to_nat a)) (Z.to_nat b) (fun _ => 0%float) (fun _ => v)
    ++ emitted t (n + Z.of_nat (Z.to_nat a) + Z.of_nat (Z.to_nat b)) (Z.to_nat e)
         (fun _ => 0%float) (fun i => (v * (1 - Num.of_int i / Num.of_int e))%float)
  /\ same_fields t (addHill t count v).
Proof. intros a b e n. exact (three_loops t a b e _ _ _ _ _ _). Qed.

Lemma addCurveWithHill_segments t count c v :
  exists l, segments (addCurveWithHill t count c v) = segments t ++ l
            /\ Forall (fun seg => sprites seg = []) l
            /\ same_fields t (addCurveWithHill t count c v).
Proof.
  destruct (three_loops t (count / 4) (count / 2) (count - count / 4 - count / 2)
              (fun i => (c * (Num.of_int i / Num.of_int (count / 4)))%float)
              (fun i => (v * (Num.of_int i / Num.of_int (count / 4)))%float)
              (fun _ => c) (fun _ => v)
              (fun i => (c * (1 - Num.of_int i
                                  / Num.of_int (count - count / 4 - count / 2)))%float)
              (fun i => (v * (1 - Num.of_int i
                                  / Num.of_int (count - count / 4 - count / 2)))%float))
    as [H F].
  eexists. split; [exact H|]. split; [|exact F].
  repeat apply Forall_app_2; apply Forall_bare_emitted.
Qed.

(** Positions in a store followed by the three phases of a piece. *)
Lemma lookup_hold {A} (l0 l1 l2 l3 : list A) (j : nat) :
  (length l1 <= j < length l1 + length l2)%nat ->
  (l0 ++ l1 ++ l2 ++ l3) !! (length l0 + j)%nat = l2 !! (j - length l1)%nat.
Proof.
  intros Hj. rewrite lookup_app_r by lia. rewrite lookup_app_r by lia.
  rewrite lookup_app_l by lia. f_equal. lia.
Qed.

Lemma lookup_exit {A} (l0 l1 l2 l3 : list A) (j : nat) :
  (length l1 + length l2 <= j)%nat ->
  (l0 ++ l1 ++ l2 ++ l3) !! (length l0 + j)%nat = l3 !! (j - length l1 - length l2)%nat.
Proof.
  intros Hj. rewrite lookup_app_r by lia. rewrite lookup_app_r by lia.
  rewrite lookup_app_r by lia. f_equal. lia.
Qed.

(** ** The elevation pass *)

Lemma length_elevate y segs : length (elevate y segs) = length segs.
Proof. revert y. induction segs as [|seg rest IH]; intros y; simpl; [|rewrite IH]; reflexivity. Qed.

(** The pass changes the world [y] of the end points and nothing else. *)
Lemma lookup_elevate y segs i seg' :
  elevate y segs !! i = Some seg' ->
  exists seg, segs !! i = Some seg /\
    index seg' = index seg /\ curve seg' = curve seg /\ hill seg' = hill seg /\
    color seg' = color seg /\ sprites seg' = sprites seg.
Proof.
  revert y i. induction segs as [|seg rest IH]; intros y i; simpl; [discriminate|].
  destruct i as [|i]; simpl.
  - intros [= <-]. exists seg. repeat split.
  - apply IH.
Qed.

(** The running sum: the first segment starts at [y], each segment ends at
    its start plus its [hill], and the next one starts where it ends. *)
Lemma elevate_chain y segs i seg :
  elevate y segs !! i = Some seg ->
  (i = 0%nat -> y1 seg = y) /\
  y2 seg = (y1 seg + hill seg)%float /\
  (forall next, elevate y segs !! Datatypes.S i = Some next -> y1 next = y2 seg).
Proof.
  revert y i. induction segs as [|s rest IH]; intros y i; simpl; [discriminate|].
  destruct i as [|i]; simpl.
  - intros [= <-]. unfold y1, y2. simpl. repeat split.
    intros next Hn. destruct rest as [|s' rest']; simpl in Hn; [discriminate|].
    injection Hn as <-. reflexivity.
  - intros H. destruct (IH _ _ H) as (_ & H2 & H3).
    split; [discriminate|]. split; [exact H2|exact H3].
Qed.

Lemma Forall_bare_elevate y segs :
  Forall (fun seg => sprites seg = []) segs ->
  Forall (fun seg => sprites seg = []) (elevate y segs).
Proof.
  intros H. revert y. induction H as [|seg rest Hs _ IH]; intros y; simpl; constructor; auto.
Qed.

(** ** The builder *)

Lemma extends_refl t : extends t t.
Proof. split; [apply same_fields_refl|]. exists []. now rewrite app_nil_r. Qed.

Lemma extends_trans t1 t2 t3 : extends t1 t2 -> extends t2 t3 -> extends t1 t3.
Proof.
  intros [F1 (l1 & H1 & B1)] [F2 (l2 & H2 & B2)].
  split; [eauto using same_fields_trans|].
  exists (l1 ++ l2). rewrite H2, H1, app_assoc. split; [reflexivity|].
  now apply Forall_app_2.
Qed.

Lemma addStraight_extends t count : extends t (addStraight t count).
Proof.
  destruct (addStraight_segments t count) as [H F]. split; [exact F|].
  eexists. split; [exact H|]. apply Forall_bare_emitted.
Qed.

Lemma addCurve_extends t count c : extends t (addCurve t count c).
Proof.
  destruct (addCurve_segments t count c) as [H F]. split; [exact F|].
  eexists. split; [exact H|]. repeat apply Forall_app_2; apply Forall_bare_emitted.
Qed.

Lemma addHill_extends t count v : extends t (addHill t count v).
Proof.
  destruct (addHill_segments t count v) as [H F]. split; [exact F|].
  eexists. split; [exact H|]. repeat apply Forall_app_2; apply Forall_bare_emitted.
Qed.

Lemma addCurveWithHill_extends t count c v : extends t (addCurveWithHill t count c v).
Proof.
  destruct (addCurveWithHill_segments t count c v) as (l & H & B & F).
  split; [exact F|]. now exists l.
Qed.

Lemma addPiece_extends t p : extends t (addPiece t p).
Proof.
  unfold addPiece. destruct (piece_type p);
    auto using addStraight_extends, addCurve_extends, addHill_extends.
Qed.

Lemma fold_addPiece_extends ps t : extends t (fold_left addPiece ps t).
Proof.
  revert t. induction ps as [|p ps IH]; intros t; simpl; [apply extends_refl|].
  eapply extends_trans; [apply addPiece_extends|apply IH].
Qed.

(** The track before the sprites are placed. *)
Lemma buildRoad_spec t d :
  let r := buildRoad t d in
  segmentLength r = segmentLength t /\ rumbleLength r = rumbleLength t /\
  currentPieces r = pieces d /\
  trackLength r = (Num.of_int (segments_length r) * segmentLength r)%float /\
  Forall (fun seg => sprites seg = []) (segments r) /\
  (segments (fold_left addPiece (pieces d)
               (set_currentPieces (set_segments t []) (pieces d))) = [] ->
   segments_length r = 100%Z).
Proof.
  unfold buildRoad.
  set (t0 := set_currentPieces (set_segments t []) (pieces d)).
  set (t1 := fold_left addPiece (pieces d) t0).
  set (t2 := if (segments_length t1 =? 0)%Z then addStraight t1 100 else t1).
  assert (E1 : extends t0 t1) by apply fold_addPiece_extends.
  assert (E2 : extends t1 t2).
  { unfold t2. destruct (segments_length t1 =? 0)%Z;
      [apply addStraight_extends|apply extends_refl]. }
  destruct (extends_trans _ _ _ E1 E2) as [(Fs & Fr & _ & Fp) (l & Hl & Bl)].
  simpl. unfold segments_length. simpl. rewrite !length_elevate.
  repeat split; try assumption.
  - apply Forall_bare_elevate. rewrite Hl. simpl. exact Bl.
  - intros Hnil. unfold t2, segments_length. rewrite Hnil.
    change (Z.of_nat (length []) =? 0)%Z with true. cbv iota.
    destruct (addStraight_segments t1 100) as [H _].
    rewrite H, Hnil, app_nil_l, length_emitted. lia.
Qed.

Lemma buildRoad_pieces t d d' : pieces d = pieces d' -> buildRoad t d = buildRoad t d'.
Proof. unfold buildRoad. now intros ->. Qed.

(** ** Placing and exporting sprites *)

Lemma set_sprites_id seg : set_sprites seg (sprites seg) = seg.
Proof. now destruct seg. Qed.

Lemma length_decorated segs sps : length (decorated segs sps) = length segs.
Proof. apply length_imap. Qed.

Lemma lookup_decorated segs sps i :
  decorated segs sps !! i
  = (fun seg => set_sprites seg (sprites seg ++ spritesFor (Z.of_nat i) sps)) <$> segs !! i.
Proof. unfold decorated. now rewrite list_lookup_imap. Qed.

(** The loop over the placed sprites never fails, and leaves on each segment
    the sprites addressed to it, in the order of the file. *)
Lemma placeSprites_decorated sps segs : placeSprites segs sps = Ok (decorated segs sps).
Proof.
  revert segs. induction sps as [|sp rest IH]; intros segs; simpl.
  - f_equal. apply list_eq. intros i. rewrite lookup_decorated.
    destruct (segs !! i) as [seg|]; simpl; [|reflexivity].
    now rewrite app_nil_r, set_sprites_id.
  - destruct ((0 <=? segmentIndex sp)%Z && (segmentIndex sp <? Z.of_nat (length segs))%Z)
      eqn:Hb.
    + apply andb_true_iff in Hb as [H0 H1].
      apply Z.leb_le in H0. apply Z.ltb_lt in H1.
      unfold pushAt. replace (segmentIndex sp <? 0)%Z with false by (symmetry; apply Z.ltb_ge; lia).
      destruct (lookup_lt_is_Some_2 segs (Z.to_nat (segmentIndex sp))) as [seg Hseg]; [lia|].
      rewrite Hseg. simpl. rewrite IH. f_equal.
      apply list_eq. intros i. rewrite !lookup_decorated.
      destruct (decide (i = Z.to_nat (segmentIndex sp))) as [->|Hne].
      * rewrite list_lookup_insert_eq by lia. rewrite Hseg. simpl.
        cbn [spritesFor].
        replace (segmentIndex sp =? Z.of_nat (Z.to_nat (segmentIndex sp)))%Z with true
          by (symmetry; apply Z.eqb_eq; lia).
        unfold push_sprite, set_sprites. simpl. now rewrite <- app_assoc.
      * rewrite list_lookup_insert_ne by congruence. cbn [spritesFor].
        replace (segmentIndex sp =? Z.of_nat i)%Z with false
          by (symmetry; apply Z.eqb_neq; lia).
        reflexivity.
    + rewrite IH. f_equal. apply list_eq. intros i. rewrite !lookup_decorated.
      destruct (segs !! i) as [seg|] eqn:Hi; simpl; [|reflexivity].
      apply lookup_lt_Some in Hi. cbn [spritesFor].
      replace (segmentIndex sp =? Z.of_nat i)%Z with false; [reflexivity|].
      symmetry. apply Z.eqb_neq. intros E.
      apply andb_false_iff in Hb as [Hb|Hb];
        [apply Z.leb_gt in Hb|apply Z.ltb_ge in Hb]; lia.
Qed.

Lemma buildFromData_eq t d :
  buildFromData t d
  = Ok (set_segments (buildRoad t d) (decorated (segments (buildRoad t d)) (placed d))).
Proof. unfold buildFromData. now rewrite placeSprites_decorated. Qed.

Lemma spritesFor_app i a b : spritesFor i (a ++ b) = spritesFor i a ++ spritesFor i b.
Proof.
  induction a as [|sp a IH]; simpl; [reflexivity|].
  destruct (segmentIndex sp =? i)%Z; simpl; now rewrite IH.
Qed.

Lemma spritesFor_exportSegment g j sps i :
  spritesFor i (fst (exportSegmentSprites g j sps)) = if (j =? i)%Z then sps else [].
Proof.
  revert g. induction sps as [|sp rest IH]; intros g; simpl.
  - now destruct (j =? i)%Z.
  - specialize (IH (snd (generateId g))).
    unfold generateId, random in *. simpl in *.
    destruct (exportSegmentSprites _ j rest) as [out g']. simpl in *.
    destruct (j =? i)%Z; [|exact IH].
    rewrite IH. now destruct sp.
Qed.

(** The exported list, filtered by segment, gives back each segment's
    sprites in their order. *)
Lemma spritesFor_export g j segs i :
  spritesFor i (fst (exportSprites g j segs))
  = if (j <=? i)%Z then from_option sprites [] (segs !! Z.to_nat (i - j)) else [].
Proof.
  revert g j. induction segs as [|seg rest IH]; intros g j; simpl.
  - now destruct (j <=? i)%Z.
  - pose proof (spritesFor_exportSegment g j (sprites seg) i) as Ha.
    destruct (exportSegmentSprites g j (sprites seg)) as [a g1]. simpl in Ha.
    specialize (IH g1 (j + 1)%Z).
    destruct (exportSprites g1 (j + 1) rest) as [b g2]. simpl in *.
    rewrite spritesFor_app, Ha, IH.
    destruct (Z.eqb_spec j i) as [->|Hne].
    + replace (i + 1 <=? i)%Z with false by (symmetry; apply Z.leb_gt; lia).
      rewrite Z.leb_refl, Z.sub_diag, app_nil_r. reflexivity.
    + destruct (Z.leb_spec j i).
      * replace (j + 1 <=? i)%Z with true by (symmetry; apply Z.leb_le; lia).
        replace (Z.to_nat (i - j)) with (Datatypes.S (Z.to_nat (i - (j + 1)))) by lia.
        reflexivity.
      * replace (j + 1 <=? i)%Z with false by (symmetry; apply Z.leb_gt; lia).
        reflexivity.
Qed.

(** Placing the exported sprites on the bare road rebuilds the store. *)
Lemma decorated_export g road sps :
  Forall (fun seg => sprites seg = []) road ->
  decorated road (fst (exportSprites g 0 (decorated road sps))) = decorated road sps.
Proof.
  intros Hbare. apply list_eq. intros i.
  rewrite !lookup_decorated, spritesFor_export. simpl.
  replace (Z.to_nat (Z.of_nat i - 0)) with i by lia.
  replace (0 <=? Z.of_nat i)%Z with true by (symmetry; apply Z.leb_le; lia).
  rewrite lookup_decorated.
  destruct (road !! i) as [seg|] eqn:Hi; simpl; [|reflexivity].
  rewrite (proj1 (Forall_lookup _ _) Hbare i seg Hi). reflexivity.
Qed.

(** Builder steps do not look at [trackLength]. *)
Lemma for_range_commute {S : Type} (phi : S -> S) count (body : Z -> S -> S) s :
  (forall i acc, body i (phi acc) = phi (body i acc)) ->
  for_range count body (phi s) = phi (for_range count body s).
Proof.
  intros H. unfold for_range. induction (seq 0 (Z.to_nat count)) as [|k l IH] using rev_ind.
  - reflexivity.
  - rewrite !fold_left_app. simpl. now rewrite IH, H.
Qed.

Lemma addPiece_set_trackLength t p v :
  addPiece (set_trackLength t v) p = set_trackLength (addPiece t p) v.
Proof.
  unfold addPiece, addStraight, addCurve, addHill.
  destruct (piece_type p); cbv zeta;
    repeat (rewrite (for_range_commute (fun t => set_trackLength t v));
            [|reflexivity]); reflexivity.
Qed.

Lemma fold_addPiece_set_trackLength ps t v :
  fold_left addPiece ps (set_trackLength t v) = set_trackLength (fold_left addPiece ps t) v.
Proof.
  revert t. induction ps as [|p ps IH]; intros t; simpl; [reflexivity|].
  now rewrite addPiece_set_trackLength, IH.
Qed.

Lemma addStraight_set_trackLength t count v :
  addStraight (set_trackLength t v) count = set_trackLength (addStraight t count) v.
Proof.
  unfold addStraight. now rewrite (for_range_commute (fun t => set_trackLength t v)).
Qed.

Lemma finish_set_trackLength t v :
  calculateYPositions
    (set_trackLength (set_trackLength t v)
       (Num.of_int (segments_length (set_trackLength t v))
        * segmentLength (set_trackLength t v)))
  = calculateYPositions
      (set_trackLength t (Num.of_int (segments_length t) * segmentLength t)).
Proof. reflexivity. Qed.

Lemma buildRoad_set_trackLength t d v : buildRoad (set_trackLength t v) d = buildRoad t d.
Proof.
  unfold buildRoad. cbv zeta.
  replace (set_currentPieces (set_segments (set_trackLength t v) []) (pieces d))
    with (set_trackLength (set_currentPieces (set_segments t []) (pieces d)) v)
    by reflexivity.
  rewrite fold_addPiece_set_trackLength.
  generalize (fold_left addPiece (pieces d)
                (set_currentPieces (set_segments t []) (pieces d))).
  intros t1.
  replace (segments_length (set_trackLength t1 v)) with (segments_length t1)
    by reflexivity.
  destruct (segments_length t1 =? 0)%Z.
  - rewrite addStraight_set_trackLength. apply finish_set_trackLength.
  - apply finish_set_trackLength.
Qed.

(** The road depends on the track object only through its two constants. *)
Lemma buildRoad_fields t t' d :
  segmentLength t' = segmentLength t -> rumbleLength t' = rumbleLength t ->
  buildRoad t' d = buildRoad t d.
Proof.
  intros Hs Hr. rewrite <- (buildRoad_set_trackLength t d (trackLength t')).
  assert (E : set_currentPieces (set_segments t' []) (pieces d)
              = set_currentPieces
                  (set_segments (set_trackLength t (trackLength t')) []) (pieces d)).
  { unfold set_currentPieces, set_segments, set_trackLength. simpl.
    now rewrite Hs, Hr. }
  unfold buildRoad. cbv zeta. now rewrite E.
Qed.

(** Rebuilding a built track in place gives the same road. *)
Lemma buildRoad_rebuild t d segs d' :
  pieces d' = pieces d ->
  buildRoad (set_segments (buildRoad t d) segs) d' = buildRoad t d.
Proof.
  intros Hp. rewrite (buildRoad_pieces _ d' d Hp).
  destruct (buildRoad_spec t d) as (Hs & Hr & _).
  apply buildRoad_fields; assumption.
Qed.

(** ** The procedural builder *)

Lemma same_road_refl seg : same_road seg seg.
Proof. repeat split. Qed.

Lemma same_road_push sp seg seg' : same_road seg seg' -> same_road seg (push_sprite sp seg').
Proof. intros H. exact H. Qed.

Lemma roadside_same_road g i seg : same_road seg (fst (roadside g i seg)).
Proof.
  unfold roadside, pick, random. cbv zeta.
  repeat match goal with
         | |- context [if ?b then _ else _] => destruct b
         end; cbn [fst]; repeat apply same_road_push; apply same_road_refl.
Qed.

Lemma addSpritesFrom_spec g i segs :
  length (fst (addSpritesFrom g i segs)) = length segs /\
  forall k seg', fst (addSpritesFrom g i segs) !! k = Some seg' ->
                 exists seg, segs !! k = Some seg /\ same_road seg seg'.
Proof.
  revert g i. induction segs as [|seg rest IH]; intros g i; simpl.
  - split; [reflexivity|]. intros k seg' H. discriminate.
  - pose proof (roadside_same_road g i seg) as Hr.
    destruct (roadside g i seg) as [seg1 g1]. simpl in Hr.
    specialize (IH g1 (i + 1)%Z).
    destruct (addSpritesFrom g1 (i + 1) rest) as [rest1 g2]. simpl in *.
    destruct IH as [IHl IHk]. split; [now rewrite IHl|].
    intros [|k] seg'; simpl.
    + intros [= <-]. eauto.
    + apply IHk.
Qed.

Lemma segmentLength_extends t t' : extends t t' -> segmentLength t' = segmentLength t.
Proof. now intros [(H & _) _]. Qed.

Lemma randomSection_segmentLength st :
  segmentLength (fst (randomSection st)) = segmentLength (fst st).
Proof.
  destruct st as [t g]. unfold randomSection, generateId, random. cbv zeta.
  repeat match goal with
         | |- context [if ?b then _ else _] => destruct b
         end; cbn [fst];
    match goal with
    | |- segmentLength (addStraight ?x ?c) = _ =>
        rewrite (segmentLength_extends _ _ (addStraight_extends x c))
    | |- segmentLength (addCurve ?x ?c ?v) = _ =>
        rewrite (segmentLength_extends _ _ (addCurve_extends x c v))
    | |- segmentLength (addHill ?x ?c ?v) = _ =>
        rewrite (segmentLength_extends _ _ (addHill_extends x c v))
    | |- segmentLength (addCurveWithHill ?x ?c ?v ?w) = _ =>
        rewrite (segmentLength_extends _ _ (addCurveWithHill_extends x c v w))
    end; reflexivity.
Qed.

(** [buildRandomTrack] ends as [buildFromData] does: the length is set from
    the store, then comes the elevation pass, then the sprites. *)
Lemma buildRandomTrack_tail g t :
  exists road g',
    fst (buildRandomTrack g t)
    = fst (addSprites g'
             (calculateYPositions
                (set_trackLength road
                   (Num.of_int (segments_length road) * segmentLength road))))
    /\ segmentLength road = segmentLength t.
Proof.
  unfold buildRandomTrack, generateId, random. cbv zeta. cbn [fst snd].
  match goal with
  | |- context [for_range ?n ?body ?s] =>
      pose proof (for_range_preserves
                    (fun st : Track * RNG => segmentLength (fst st) = segmentLength t)
                    n body s) as Hinv;
      destruct (for_range n body s) as [t1 g1]
  end.
  do 2 eexists. split; [reflexivity|].
  match goal with
  | |- segmentLength (addStraight ?x ?c) = _ =>
      rewrite (segmentLength_extends _ _ (addStraight_extends x c))
  end.
  apply Hinv.
  - cbn [fst].
    match goal with
    | |- segmentLength (addStraight ?x ?c) = _ =>
        rewrite (segmentLength_extends _ _ (addStraight_extends x c))
    end.
    reflexivity.
  - intros _ acc Ha. now rewrite randomSection_segmentLength.
Qed.

Lemma addSprites_spec g t :
  let t' := fst (addSprites g t) in
  same_fields t t' /\ length (segments t') = length (segments t) /\
  forall k seg', segments t' !! k = Some seg' ->
                 exists seg, segments t !! k = Some seg /\ same_road seg seg'.
Proof.
  unfold addSprites.
  pose proof (addSpritesFrom_spec g 0 (segments t)) as H.
  destruct (addSpritesFrom g 0 (segments t)) as [segs g']. simpl in *.
  split; [repeat split|exact H].
Qed.

Lemma getTrackData_fst g t :
  fst (getTrackData g t)
  = {| pieces := currentPieces t; placed := fst (exportSprites g 0 (segments t)) |}.
Proof. unfold getTrackData. now destruct (exportSprites g 0 (segments t)). Qed.

Lemma runningSum_same_road segs segs' :
  runningSum segs ->
  (forall k seg', segs' !! k = Some seg' ->
                  exists seg, segs !! k = Some seg /\ same_road seg seg') ->
  runningSum segs'.
Proof.
  intros Hsum Hrel i seg' Hi.
  destruct (Hrel _ _ Hi) as (seg & Hseg & _ & E1 & E2 & _ & Eh & _).
  destruct (Hsum _ _ Hseg) as (H0 & H1 & H2).
  unfold y1, y2 in *. rewrite E1, E2, Eh. repeat split; try assumption.
  intros next' Hn.
  destruct (Hrel _ _ Hn) as (next & Hnext & _ & N1 & _).
  rewrite N1. now apply H2.
Qed.

Lemma runningSum_elevate segs : runningSum (elevate 0 segs).
Proof. intros i seg Hi. exact (elevate_chain 0 segs i seg Hi). Qed.

Lemma decorated_same_road segs sps k seg' :
  decorated segs sps !! k = Some seg' ->
  exists seg, segs !! k = Some seg /\ same_road seg seg'.
Proof.
  rewrite lookup_decorated. destruct (segs !! k) as [seg|]; simpl; [|discriminate].
  intros [= <-]. exists seg. repeat split.
Qed.

(* ===================================================================== *)
(** * The claims *)
(* ===================================================================== *)

(** ** Export and import *)

(** C1: for every track file [d], building a track from [d], exporting it
    with [getTrackData] and building again from the exported file gives the
    built track itself: the same piece list and, segment by segment, the same
    sprites (type and offset) in the same order.  This holds for a second
    track object with the same fields and for a rebuild in place, and for
    every state of the random source the export takes its identifiers from. *)
Theorem export_import_round_trip (g : RNG) (t : Track) (d : TrackData) :
  holds (buildFromData t d) (fun built =>
    let exported := fst (getTrackData g built) in
    pieces exported = pieces d /\
    (forall (i : nat) seg, segments built !! i = Some seg ->
       spritesFor (Z.of_nat i) (placed exported) = sprites seg) /\
    buildFromData t exported = Ok built /\
    buildFromData built exported = Ok built).
Proof.
  rewrite buildFromData_eq. cbn [holds]. cbv zeta.
  rewrite getTrackData_fst. cbn [pieces placed segments set_segments currentPieces].
  destruct (buildRoad_spec t d) as (_ & _ & Hp & _ & Hbare & _).
  set (r := buildRoad t d) in *.
  assert (Hx : forall segs,
             pieces {| pieces := currentPieces r;
                       placed := fst (exportSprites g 0 segs) |} = pieces d)
    by (intros; exact Hp).
  split; [exact Hp|]. split; [|split].
  - intros i seg Hi. rewrite spritesFor_export.
    replace (Z.to_nat (Z.of_nat i - 0)) with i by lia.
    replace (0 <=? Z.of_nat i)%Z with true by (symmetry; apply Z.leb_le; lia).
    now rewrite Hi.
  - rewrite buildFromData_eq, (buildRoad_pieces t _ d (Hx _)). fold r.
    cbn [placed]. now rewrite decorated_export.
  - rewrite buildFromData_eq.
    match goal with
    | |- context [buildRoad (set_segments r ?s) ?x] =>
        replace (buildRoad (set_segments r s) x) with r
          by (symmetry; exact (buildRoad_rebuild t d s x (Hx _)))
    end.
    cbn [placed]. now rewrite decorated_export.
Qed.

(** The round trip on a file with sprites in and out of range: the export
    lists the three attached sprites by segment, and the rebuild agrees. *)
Example round_trip_sample :
  let d := {| pieces := pieces (single_piece Straight 4 0);
              placed := [ {| placed_id := IdString "a"; segmentIndex := 2;
                             placed_type := "tree1"; placed_offset := 1.5 |};
                          {| placed_id := IdString "b"; segmentIndex := 7;
                             placed_type := "bush1"; placed_offset := -1.25 |};
                          {| placed_id := IdString "c"; segmentIndex := 0;
                             placed_type := "column"; placed_offset := 1.125 |};
                          {| placed_id := IdString "d"; segmentIndex := 2;
                             placed_type := "cactus"; placed_offset := -1.5 |} ] |} in
  holds (buildFromData Track_fields d) (fun built =>
    map (fun sp => (segmentIndex sp, placed_type sp, placed_offset sp))
        (placed (fst (getTrackData zero_rng built)))
    = [ (0%Z, "column"%string, 1.125%float); (2%Z, "tree1"%string, 1.5%float);
        (2%Z, "cactus"%string, (-1.5)%float) ] /\
    buildFromData Track_fields (fst (getTrackData zero_rng built)) = Ok built).
Proof. vm_compute. split; reflexivity. Qed.

(* ===================================================================== *)
(** ** The enter/hold/exit envelope *)
(* ===================================================================== *)

(** The scenario of the specification: a curve of length 40 and value 8 has
    10 enter, 20 hold and 10 exit segments. *)
Example curve_40_8 :
  holds (buildFromData Track_fields (single_piece Curve 40 8)) (fun t =>
    map curve (segments t)
    = [0; 0.80000000000000004; 1.6000000000000001; 2.3999999999999999;
       3.2000000000000002; 4; 4.7999999999999998; 5.5999999999999996;
       6.4000000000000004; 7.2000000000000002;
       8; 8; 8; 8; 8; 8; 8; 8; 8; 8; 8; 8; 8; 8; 8; 8; 8; 8; 8; 8;
       8; 7.2000000000000002; 6.4000000000000004; 5.5999999999999996;
       4.7999999999999998; 4; 3.2000000000000002; 2.4000000000000004;
       1.5999999999999996; 0.79999999999999982]%float).
Proof. vm_compute. reflexivity. Qed.

(** C2, as stated, fails: on the curve piece of length 40 and value 8 (and on
    the hill piece with the same numbers) the last segment of the exit phase
    contributes 0.79999999999999982, about [value / exitCount], which no
    floating-point tolerance takes for 0. *)
Lemma exit_phase_last_segment_not_zero :
  holds (buildFromData Track_fields (single_piece Curve 40 8)) (fun tc =>
  holds (buildFromData Track_fields (single_piece Hill 40 8)) (fun th =>
    option_map curve (last (segments tc)) = Some 0.79999999999999982%float /\
    option_map hill (last (segments th)) = Some 0.79999999999999982%float /\
    (Math.abs 0.79999999999999982 <=? 0.5)%float = false)).
Proof. vm_compute. repeat split; reflexivity. Qed.

(** C2 (amended): for a curve or hill piece of length at least 4, appended to
    any store, every segment of the hold phase contributes exactly the
    piece's value, and the last segment of the exit phase, the one for
    [i = exitCount - 1], contributes [value * (1 - (exitCount - 1) / exitCount)];
    the ramp would reach 0 one step later, at [i = exitCount], for which no
    segment is emitted. *)
Theorem envelope_hold_and_exit (t : Track) (count : Z) (v : number) :
  (4 <= count)%Z ->
  let enterCount := (count / 4)%Z in
  let holdCount := (count / 2)%Z in
  let exitCount := (count - enterCount - holdCount)%Z in
  let n := length (segments t) in
  let final := (v * (1 - Num.of_int (exitCount - 1) / Num.of_int exitCount))%float in
  (1 <= exitCount)%Z /\
  length (segments (addCurve t count v)) = (n + Z.to_nat count)%nat /\
  length (segments (addHill t count v)) = (n + Z.to_nat count)%nat /\
  (forall j : Z, (enterCount <= j < enterCount + holdCount)%Z ->
     exists sc sh,
       segments (addCurve t count v) !! (n + Z.to_nat j)%nat = Some sc /\ curve sc = v /\
       segments (addHill t count v) !! (n + Z.to_nat j)%nat = Some sh /\ hill sh = v) /\
  (exists sc sh,
     segments (addCurve t count v) !! (n + Z.to_nat (count - 1))%nat = Some sc /\
     curve sc = final /\
     segments (addHill t count v) !! (n + Z.to_nat (count - 1))%nat = Some sh /\
     hill sh = final).
Proof.
  intros Hc enterCount holdCount exitCount n final.
  assert (Hdiv : (0 <= enterCount /\ 0 <= holdCount /\ 1 <= exitCount)%Z).
  { unfold exitCount, enterCount, holdCount. Z.div_mod_to_equations. lia. }
  destruct (addCurve_segments t count v) as [HC _].
  destruct (addHill_segments t count v) as [HH _].
  cbv zeta in HC, HH.
  fold enterCount holdCount exitCount in HC, HH.
  split; [lia|]. rewrite HC, HH. subst n.
  split; [|split; [|split]].
  - rewrite !length_app, !length_emitted. unfold exitCount. lia.
  - rewrite !length_app, !length_emitted. unfold exitCount. lia.
  - intros j Hj.
    do 2 eexists.
    rewrite !lookup_hold by (rewrite !length_emitted; lia).
    rewrite !lookup_emitted by (rewrite !length_emitted; lia).
    repeat split; reflexivity.
  - do 2 eexists.
    rewrite !lookup_exit by (rewrite !length_emitted; unfold exitCount in *; lia).
    rewrite !lookup_emitted by (rewrite !length_emitted; unfold exitCount in *; lia).
    rewrite !length_emitted.
    replace (Z.of_nat (Z.to_nat (count - 1) - Z.to_nat enterCount - Z.to_nat holdCount))
      with (exitCount - 1)%Z by (unfold exitCount in *; lia).
    repeat split; reflexivity.
Qed.


Lemma envelope_hold_and_exit_witness :
  (4 <= 40)%Z /\
  exists sc sh,
    segments (addCurve Track_fields 40 8) !! 39%nat = Some sc /\
    curve sc = (8 * (1 - Num.of_int 9 / Num.of_int 10))%float /\
    segments (addHill Track_fields 40 8) !! 39%nat = Some sh /\
    hill sh = (8 * (1 - Num.of_int 9 / Num.of_int 10))%float.
Proof.
  split; [lia|].
  exact (proj2 (proj2 (proj2 (proj2
           (envelope_hold_and_exit Track_fields 40 8 ltac:(lia)))))).
Defined.

(** ** The occlusion horizon *)




(** The horizon also rises in the middle of a pass, where the road comes
    back into view behind a crest: here the segments of loop counters 14 to
    30 are hidden, and the one of counter 31 raises [maxy] from 254 to 256. *)
Example horizon_rises_behind_a_crest :
  let piece ty len v := {| piece_id := IdString "p"; piece_type := ty;
                           piece_length := len; piece_value := v |} in
  holds (buildFromData Track_fields
           {| pieces := [ piece Straight 6%Z 0%float; piece Hill 8%Z 150%float;
                          piece Hill 8%Z (-250)%float; piece Hill 24%Z 200%float;
                          piece Straight 100%Z 0%float ];
              placed := [] |}) (fun t =>
  holds (renderRoadPass Renderer_fields t 0 0 (Some 0%float)) (fun st =>
    take 12 (horizons st)
    = [480; 492; 442; 408; 384; 357; 327; 303; 284; 267; 254; 256]%float /\
    take 11 (drawn st) = [4; 5; 6; 7; 8; 9; 10; 11; 12; 13; 31]%Z)).
Proof. vm_compute. repeat split. Qed.



(** ** Vehicle speed *)

Lemma update_player fuel g dt g' :
  update fuel g dt = Some (Ok g') ->
  Player.speed (player g') = nextSpeed g (steer g dt) dt /\
  Player.maxSpeed (player g') = Player.maxSpeed (player g) /\
  exists segment nextSegment,
    getSegment (track g) (position g) = Some segment /\
    getSegment (track g) (position g + segmentLength (track g))%float = Some nextSegment /\
    Player.x (player g')
    = nextX g (steer g dt) dt (curve segment) (curve nextSegment).
Proof.
  unfold update.
  destruct (getSegment (track g) (position g)) as [segment|]; [|discriminate].
  destruct (getSegment (track g) (position g + _)%float) as [nextSegment|];
    [|discriminate].
  destruct (getSegment (track g) _) as [playerSegment|]; [|discriminate].
  destruct (wrapDown _ _ _) as [pos|]; [|discriminate].
  destruct (wrapUp _ _ _) as [pos'|]; [|discriminate].
  intros [= <-]. cbn [player Player.speed Player.maxSpeed Player.x].
  repeat split. eauto.
Qed.


(** The clamp also lets NaN through: with [maxSpeed = 0] the quotient
    [speed / maxSpeed] is [0 / 0], and steering at rest makes the speed NaN
    (the tick then fails, on the segment lookup at position NaN). *)
Example speed_nan_when_maxSpeed_zero :
  let g := game_with (addStraight Track_fields 50) (Player.mk 0 0 0 2 0.5 1 200) key_left in
  is_nan (nextSpeed g (steer g 0.016) 0.016) = true /\
  update 0 g 0.016 = Some TypeError.
Proof. vm_compute. repeat split. Qed.



(** The scenarios of the specification: at rest with steer-left held the
    lateral position does not move; fully off the road ([x = 1.8]) with the
    accelerator held the gain in speed and the top speed are below those on
    the road. *)
Example integrator_scenarios :
  let t := addStraight Track_fields 50 in
  let at_rest := game_with t (Player.mk 0.5 0 600 2 0.5 1 200) key_left in
  let on_road := game_with t (Player.mk 0 100 600 2 0.5 1 200) key_up in
  let off_road := game_with t (Player.mk 1.8 100 600 2 0.5 1 200) key_up in
  steer at_rest 0.016 = 0.5%float /\
  unclampedSpeed on_road 0 0.016 = 103.2%float /\
  unclampedSpeed off_road 1.8 0.016 = 101.408%float /\
  effectiveMaxSpeed on_road 0 = 600%float /\
  effectiveMaxSpeed off_road 1.8 = 280%float.
Proof. vm_compute. repeat split. Qed.

(** ** Lateral position *)

(** C5, as stated, fails: [speed / maxSpeed] is not guarded, and the clamp
    [Math.max(-2, Math.min(2, x))] lets NaN through.  With [maxSpeed = 0]
    and the car at rest in the middle of the road ([x = 0], [speed = 0]),
    [speedPercent] is [0 / 0], the centrifugal term is NaN, and after one
    tick of 16 ms the lateral position is NaN, which is in no interval. *)
Lemma lateral_position_nan_when_maxSpeed_zero :
  holds (buildFromData Track_fields (fst (createDefaultTrackData zero_rng))) (fun t =>
    let g := game_with t (Player.mk 0 0 0 2 0.5 1 200) no_keys in
    ((-2 <=? Player.x (player g)) && (Player.x (player g) <=? 2)
     && (0 <=? 0.016) && (0.016 <=? 0.1))%float = true /\
    option_map Player.x (after_tick 0 g 0.016) = Some nan /\
    (-2 <=? nan)%float = false /\ (nan <=? 2)%float = false).
Proof. vm_compute. repeat split. Qed.

(** C5 (amended): for every starting state, every input, every pair of
    sampled curvatures and every [dt], the lateral position after the tick
    lies in [[-2, 2]] whenever it is a number; it is NaN when the position
    before the clamp is NaN (for instance when [maxSpeed] is 0).
    The lateral position of every tick that ends is the one so computed,
    from the curvatures of the segment under the camera and the next. *)
Theorem lateral_position_clamped (g : Game) (dt c0 c1 : number) :
  let x' := nextX g (steer g dt) dt c0 c1 in
  is_nan x' = false ->
  (-2 <=? x')%float = true /\ (x' <=? 2)%float = true /\
  is_nan (unclampedX g (steer g dt) dt c0 c1) = false /\
  (forall fuel g', update fuel g dt = Some (Ok g') ->
     exists segment nextSegment,
       getSegment (track g) (position g) = Some segment /\
       getSegment (track g) (position g + segmentLength (track g))%float
       = Some nextSegment /\
       Player.x (player g')
       = nextX g (steer g dt) dt (curve segment) (curve nextSegment)).
Proof.
  intros x' Hnan.
  destruct (clamp_bounds (-2) (unclampedX g (steer g dt) dt c0 c1) 2 x'
              (or_intror eq_refl) Hnan eq_refl) as (H0 & H1 & Hv).
  repeat split; try assumption.
  intros fuel g' Hu. now apply update_player in Hu.
Qed.

Lemma lateral_position_clamped_witness :
  let g := game_with (addCurve Track_fields 40 8)
                     (Player.mk 1.9 600 600 2 0.5 1 200) key_up in
  is_nan (nextX g (steer g 0.1) 0.1 8 8) = false /\
  unclampedX g (steer g 0.1) 0.1 8 8 = 0.39999999999999991%float /\
  (-2 <=? nextX g (steer g 0.1) 0.1 8 8)%float = true /\
  (nextX g (steer g 0.1) 0.1 8 8 <=? 2)%float = true.
Proof.
  cbv zeta.
  split; [vm_compute; reflexivity|]. split; [vm_compute; reflexivity|].
  pose proof (lateral_position_clamped
                (game_with (addCurve Track_fields 40 8)
                           (Player.mk 1.9 600 600 2 0.5 1 200) key_up) 0.1 8 8) as H.
  cbv zeta in H.
  destruct H as (H1 & H2 & _).
  - vm_compute; reflexivity.
  - split; [exact H1|exact H2].
Defined.

(** A tick of 0.1 s at full speed on the tightest curve: the centrifugal
    push alone would move the car by 1.5; the clamp keeps it on the track. *)
Example lateral_push_clamped :
  let g := game_with (addCurve Track_fields 40 8)
                     (Player.mk (-1.9) 600 600 2 0.5 1 200) key_left in
  unclampedX g (steer g 0.1) 0.1 8 8 = (-3.5499999999999998)%float /\
  nextX g (steer g 0.1) 0.1 8 8 = (-2)%float.
Proof. vm_compute. repeat split. Qed.

(** ** The projection guard *)

(** C6: for every point and every camera position, if the camera-space depth
    [world.z - cameraZ] is at most 0, [project] sets [scale] to 0,
    [screen.y] to the viewport height, [screen.x] and [screen.w] to 0, and
    evaluates no division at all, so none by [camera.z]; the point it leaves
    has [camera.z <= 0] and [scale = 0]. *)
Theorem project_behind_camera (r : Renderer) (p : ScreenCoord)
    (cameraX cameraY cameraZ : number) :
  (WorldCoord.z (world p) - cameraZ <=? 0)%float = true ->
  let q := project r p cameraX cameraY cameraZ in
  camera q = WorldCoord.mk (WorldCoord.x (world p) - cameraX)
                           (WorldCoord.y (world p) - cameraY)
                           (WorldCoord.z (world p) - cameraZ) /\
  (WorldCoord.z (camera q) <=? 0)%float = true /\
  scale q = 0%float /\
  Screen.y (screen q) = height r /\
  Screen.x (screen q) = 0%float /\
  Screen.w (screen q) = 0%float /\
  world q = world p /\
  snd (project_traced r p cameraX cameraY cameraZ) = [].
Proof.
  intros H. unfold project, project_traced. cbn [WorldCoord.z].
  rewrite H. cbn. repeat split. exact H.
Qed.

Lemma project_behind_camera_witness :
  let p := createScreenCoord Track_fields 3 in
  (WorldCoord.z (world p) - 1000 <=? 0)%float = true /\
  scale (project Renderer_fields p 0 1000 1000) = 0%float /\
  Screen.y (screen (project Renderer_fields p 0 1000 1000)) = 480%float.
Proof.
  cbv zeta. split; [reflexivity|].
  pose proof (project_behind_camera Renderer_fields (createScreenCoord Track_fields 3)
                0 1000 1000 eq_refl) as H.
  cbv zeta in H. split; [apply H|]. destruct H as (_ & _ & _ & -> & _). reflexivity.
Defined.

(** In front of the camera the first division is by [camera.z], which is
    then positive. *)
Example project_in_front :
  let p := createScreenCoord Track_fields 5 in
  project_traced Renderer_fields p 0 1000 0
  = ({| world := WorldCoord.mk 0 0 1000;
        camera := WorldCoord.mk 0 (-1000) 1000;
        screen := Screen.mk 320 442 538;
        scale := 0.00083999999999999993 |},
     [1000; 2; 2; 2; 2; 2])%float.
Proof. vm_compute. reflexivity. Qed.

(** ** Track length *)

(** C7: after [buildFromData] on any track file and after [buildRandomTrack]
    on any random source, [trackLength] equals [segments.length *
    segmentLength]; a file whose pieces emit no segment gives the straight of
    100 segments. *)
Theorem trackLength_after_build :
  (forall t d, holds (buildFromData t d) (fun built =>
     trackLength built
     = (Num.of_int (segments_length built) * segmentLength built)%float /\
     (segments (fold_left addPiece (pieces d)
                  (set_currentPieces (set_segments t []) (pieces d))) = [] ->
      segments_length built = 100%Z /\
      trackLength built = (100 * segmentLength t)%float))) /\
  (forall g t,
     let built := fst (buildRandomTrack g t) in
     trackLength built
     = (Num.of_int (segments_length built) * segmentLength built)%float).
Proof.
  split.
  - intros t d. rewrite buildFromData_eq. cbn [holds].
    destruct (buildRoad_spec t d) as (Hs & _ & _ & Hl & _ & H100).
    set (r := buildRoad t d) in *.
    assert (Hlen : segments_length (set_segments r (decorated (segments r) (placed d)))
                   = segments_length r).
    { unfold segments_length. cbn [segments set_segments]. now rewrite length_decorated. }
    rewrite Hlen. cbn [trackLength segmentLength set_segments].
    split; [exact Hl|]. intros Hnil. specialize (H100 Hnil).
    split; [exact H100|]. now rewrite Hl, H100, Hs.
  - intros g t. cbv zeta.
    destruct (buildRandomTrack_tail g t) as (road & g' & -> & _).
    set (X := calculateYPositions
                (set_trackLength road
                   (Num.of_int (segments_length road) * segmentLength road))).
    destruct (addSprites_spec g' X) as ((Hs & _ & Ht & _) & Hlen & _).
    cbv zeta in Hs, Ht, Hlen. unfold segments_length. rewrite Ht, Hs, Hlen.
    unfold X, calculateYPositions.
    cbn [segments trackLength segmentLength set_segments set_trackLength].
    now rewrite length_elevate.
Qed.

(** The scenario of the specification (one straight of 50 segments of length
    200 has length 10000), the empty file, and a procedural track. *)
Example trackLength_samples :
  holds (buildFromData Track_fields (single_piece Straight 50 0)) (fun t =>
    length (segments t) = 50%nat /\ trackLength t = 10000%float) /\
  holds (buildFromData Track_fields {| pieces := []; placed := [] |}) (fun t =>
    length (segments t) = 100%nat /\ trackLength t = 20000%float) /\
  (let t := fst (buildRandomTrack zero_rng Track_fields) in
   length (segments t) = 430%nat /\ trackLength t = 86000%float).
Proof. vm_compute. repeat split; reflexivity. Qed.

(** ** The elevation pass *)

(** C8, as stated, fails: numbers are binary64, and [(y + hill) - y] is not
    always [hill].  On the default track ([createDefaultTrackData]) segment
    169 has hill 27.500000000000004, starts at 2835 and ends at 2862.5, so
    [p2.world.y - p1.world.y] is 27.5 and the comparison with [hill] is
    false. *)
Lemma elevation_difference_not_exact :
  holds (buildFromData Track_fields (fst (createDefaultTrackData zero_rng))) (fun t =>
    option_map (fun seg => (hill seg, y1 seg, y2 seg, (y2 seg - y1 seg)%float,
                            (y2 seg - y1 seg =? hill seg)%float))
               (segments t !! 169%nat)
    = Some (27.500000000000004, 2835, 2862.5, 27.5, false)%float).
Proof. vm_compute. reflexivity. Qed.

(** The same on the smallest hill: length 4 and height 0.1. *)
Example elevation_difference_small_hill :
  holds (buildFromData Track_fields (single_piece Hill 4 0.1)) (fun t =>
    map (fun seg => (hill seg, y1 seg, y2 seg, (y2 seg - y1 seg =? hill seg)%float))
        (segments t)
    = [ (0, 0, 0, true);
        (0.1, 0, 0.1, true);
        (0.1, 0.1, 0.2, true);
        (0.1, 0.2, 0.30000000000000004, false) ]%float).
Proof. vm_compute. reflexivity. Qed.

(** C8 (amended): after the elevation pass, and so after every build, the
    first segment starts at 0, every segment's [p2.world.y] is the binary64
    sum [p1.world.y + hill], and every segment starts where the one before
    ends; the difference [p2.world.y - p1.world.y] equals [hill] up to the
    rounding of that sum only. *)
Theorem elevation_running_sum :
  (forall t, runningSum (segments (calculateYPositions t))) /\
  (forall t d, holds (buildFromData t d) (fun built => runningSum (segments built))) /\
  (forall g t, runningSum (segments (fst (buildRandomTrack g t)))).
Proof.
  split; [|split].
  - intros t. apply runningSum_elevate.
  - intros t d. rewrite buildFromData_eq. cbn [holds segments set_segments].
    eapply runningSum_same_road; [|apply decorated_same_road].
    unfold buildRoad, calculateYPositions. cbv zeta. cbn [segments set_segments].
    apply runningSum_elevate.
  - intros g t. destruct (buildRandomTrack_tail g t) as (road & g' & -> & _).
    eapply runningSum_same_road; [|apply addSprites_spec].
    apply runningSum_elevate.
Qed.

(** ** Sprites out of range *)


(** Four segments; sprites addressed to segments -1, 4, 100, 2 and 0: the
    first three are skipped. *)
Example out_of_range_sample :
  let mk i ty := {| placed_id := IdString "s"; segmentIndex := i;
                    placed_type := ty; placed_offset := 1.5 |} in
  holds (buildFromData Track_fields
           {| pieces := pieces (single_piece Straight 4 0);
              placed := [ mk (-1)%Z "tree1"%string; mk 4%Z "tree2"%string;
                          mk 100%Z "bush1"%string; mk 2%Z "cactus"%string;
                          mk 0%Z "stump"%string ] |})
        (fun t => map (fun seg => map sprite_type (sprites seg)) (segments t)
                  = [ ["stump"%string]; []; ["cactus"%string]; [] ]).
Proof. vm_compute. reflexivity. Qed.

(** ** Segment lookup *)

Lemma is_finite_floorZ x : is_finite x = true -> exists k, Num.floorZ x = Some k.
Proof.
  unfold is_finite, is_nan, is_infinity, Num.floorZ.
  rewrite !FloatAxioms.eqb_spec, abs_spec.
  change (Prim2SF infinity) with (S754_infinity false).
  destruct (Prim2SF x) as [s|[]| |s m e]; cbn; intros H; try discriminate; eauto.
Qed.

(** The lookup for any segment length, as long as the quotient is finite. *)
Lemma getSegment_finite_quotient (t : Track) (z : number) :
  segments t <> [] ->
  is_finite (z / segmentLength t) = true ->
  exists (i : nat) seg,
    (i < length (segments t))%nat /\
    segments t !! i = Some seg /\
    getSegment t z = Some seg.
Proof.
  intros Hne Hfin. unfold getSegment.
  destruct (is_finite_floorZ _ Hfin) as [k ->].
  assert (Hn : (0 < segments_length t)%Z).
  { unfold segments_length. destruct (segments t); [congruence|]. simpl length. lia. }
  replace (segments_length t =? 0)%Z with false by (symmetry; apply Z.eqb_neq; lia).
  set (n := segments_length t) in *.
  set (i := if (Z.rem k n <? 0)%Z then (Z.rem k n + n)%Z else Z.rem k n).
  assert (Hi : (0 <= i < n)%Z).
  { unfold i. destruct (Z.ltb_spec (Z.rem k n) 0);
      Z.to_euclidean_division_equations; lia. }
  destruct (lookup_lt_is_Some_2 (segments t) (Z.to_nat i)) as [seg Hseg].
  { unfold n, segments_length in Hi. lia. }
  exists (Z.to_nat i), seg. repeat split; try assumption.
  unfold n, segments_length in Hi. lia.
Qed.

(** C10: for every track with the segment length of the game and a store
    that is not empty, and every finite [z], negative or beyond the track,
    [getSegment] returns the segment at an index [i] with
    [0 <= i < segments.length]. *)
Theorem getSegment_in_bounds (t : Track) (z : number) :
  segments t <> [] ->
  segmentLength t = ROAD.SEGMENT_LENGTH ->
  is_finite z = true ->
  exists (i : nat) seg,
    (i < length (segments t))%nat /\
    segments t !! i = Some seg /\
    getSegment t z = Some seg.
Proof.
  intros Hne Hlen Hfin. apply getSegment_finite_quotient; [exact Hne|].
  rewrite Hlen. now apply div_200_finite.
Qed.

Lemma getSegment_in_bounds_witness :
  let t := addStraight Track_fields 50 in
  segments t <> [] /\
  segmentLength t = ROAD.SEGMENT_LENGTH /\
  is_finite (-250) = true /\
  exists (i : nat) seg,
    (i < length (segments t))%nat /\ segments t !! i = Some seg /\
    getSegment t (-250) = Some seg.
Proof.
  cbv zeta.
  assert (Hne : segments (addStraight Track_fields 50) <> [])
    by (vm_compute; discriminate).
  assert (Hlen : segmentLength (addStraight Track_fields 50) = ROAD.SEGMENT_LENGTH)
    by (vm_compute; reflexivity).
  assert (Hfin : is_finite (-250) = true) by (vm_compute; reflexivity).
  split; [exact Hne|]. split; [exact Hlen|]. split; [exact Hfin|].
  exact (getSegment_in_bounds (addStraight Track_fields 50) (-250) Hne Hlen Hfin).
Defined.

(** The scenario of the specification, and indices at the ends of the range
    of finite numbers: the quotient by the segment length stays finite. *)
Example getSegment_samples :
  holds (buildFromData Track_fields (single_piece Straight 50 0)) (fun t =>
    option_map index (getSegment t 0) = Some 0%Z /\
    option_map index (getSegment t (-1)) = Some 49%Z /\
    option_map index (getSegment t 10000) = Some 0%Z /\
    option_map index (getSegment t 12345.5) = Some 11%Z /\
    option_map index (getSegment t (-1.7976931348623157e308)) = Some 6%Z /\
    option_map index (getSegment t 1.7976931348623157e308) = Some 44%Z /\
    option_map index (getSegment t nan) = None /\
    Forall (fun seg => curve seg = 0%float /\ hill seg = 0%float) (segments t) /\
    is_finite (1.7976931348623157e308 / segmentLength t) = true /\
    is_finite (-1.7976931348623157e308 / segmentLength t) = true).
Proof.
  vm_compute. repeat split; try reflexivity.
  repeat constructor.
Qed.

(* ===================================================================== *)
(** * Further properties of the track builder *)
(* ===================================================================== *)

(** ** How many segments a piece makes *)

Lemma for_range_addSegment_length t count (f h : Z -> number) :
  segments_length (for_range count (fun i t => addSegment t (f i) (h i)) t)
  = (segments_length t + Z.max 0 count)%Z.
Proof.
  destruct (for_range_addSegment t count f h) as [H _]. cbv zeta in H.
  unfold segments_length. rewrite H, length_app, length_emitted. lia.
Qed.

Lemma addStraight_length t count :
  segments_length (addStraight t count) = (segments_length t + Z.max 0 count)%Z.
Proof.
  unfold addStraight.
  apply (for_range_addSegment_length t count (fun _ => 0%float) (fun _ => 0%float)).
Qed.

Lemma addCurve_length t count c :
  segments_length (addCurve t count c) = (segments_length t + phaseCount count)%Z.
Proof.
  destruct (addCurve_segments t count c) as [H _]. cbv zeta in H.
  unfold segments_length, phaseCount. rewrite H, !length_app, !length_emitted. lia.
Qed.

Lemma addHill_length t count v :
  segments_length (addHill t count v) = (segments_length t + phaseCount count)%Z.
Proof.
  destruct (addHill_segments t count v) as [H _]. cbv zeta in H.
  unfold segments_length, phaseCount. rewrite H, !length_app, !length_emitted. lia.
Qed.

Lemma addCurveWithHill_length t count c v :
  segments_length (addCurveWithHill t count c v)
  = (segments_length t + phaseCount count)%Z.
Proof.
  destruct (three_loops t (count / 4) (count / 2) (count - count / 4 - count / 2)
              (fun i => (c * (Num.of_int i / Num.of_int (count / 4)))%float)
              (fun i => (v * (Num.of_int i / Num.of_int (count / 4)))%float)
              (fun _ => c) (fun _ => v)
              (fun i => (c * (1 - Num.of_int i
                                  / Num.of_int (count - count / 4 - count / 2)))%float)
              (fun i => (v * (1 - Num.of_int i
                                  / Num.of_int (count - count / 4 - count / 2)))%float))
    as [H _].
  cbv zeta in H. unfold addCurveWithHill. cbv zeta.
  unfold segments_length, phaseCount. rewrite H, !length_app, !length_emitted. lia.
Qed.

Lemma phaseCount_nonneg count : (0 <= count)%Z -> phaseCount count = count.
Proof. intros H. unfold phaseCount. Z.div_mod_to_equations. lia. Qed.

Lemma phaseCount_neg count :
  (count < 0)%Z -> phaseCount count = if (count =? -1)%Z then 1%Z else 0%Z.
Proof.
  intros H. unfold phaseCount.
  destruct (Z.eqb_spec count (-1)) as [->|Hne]; [reflexivity|].
  Z.div_mod_to_equations. lia.
Qed.

Lemma addPiece_length t p :
  segments_length (addPiece t p) = (segments_length t + pieceCount p)%Z.
Proof.
  unfold addPiece, pieceCount. destruct (piece_type p).
  - apply addStraight_length.
  - apply addCurve_length.
  - apply addHill_length.
Qed.

Lemma fold_addPiece_length ps : forall t,
  segments_length (fold_left addPiece ps t) = (segments_length t + totalCount ps)%Z.
Proof.
  induction ps as [|p ps IH]; intros t; cbn [fold_left totalCount fold_right].
  - lia.
  - rewrite IH, addPiece_length. fold (totalCount ps). lia.
Qed.

Lemma pieceCount_nonneg p : (0 <= pieceCount p)%Z.
Proof. unfold pieceCount, phaseCount. destruct (piece_type p); lia. Qed.

Lemma totalCount_nonneg ps : (0 <= totalCount ps)%Z.
Proof.
  induction ps as [|p ps IH]; cbn [totalCount fold_right]; [lia|].
  fold (totalCount ps). pose proof (pieceCount_nonneg p). lia.
Qed.

Lemma totalCount_totalLength ps :
  Forall (fun p => (0 <= piece_length p)%Z) ps -> totalCount ps = totalLength ps.
Proof.
  induction 1 as [|p ps Hp _ IH]; [reflexivity|].
  cbn [totalCount totalLength fold_right]. fold (totalCount ps) (totalLength ps).
  rewrite IH. f_equal. unfold pieceCount.
  destruct (piece_type p); [lia| |]; now apply phaseCount_nonneg.
Qed.

Lemma calculateYPositions_length t :
  segments_length (calculateYPositions t) = segments_length t.
Proof.
  unfold calculateYPositions, segments_length. cbn [segments set_segments].
  now rewrite length_elevate.
Qed.

(** The store [buildFromData] leaves: what the pieces make, or the 100
    segments of the fallback. *)
Lemma buildRoad_length t d :
  segments_length (buildRoad t d)
  = if (totalCount (pieces d) =? 0)%Z then 100%Z else totalCount (pieces d).
Proof.
  unfold buildRoad. cbv zeta.
  set (t0 := set_currentPieces (set_segments t []) (pieces d)).
  pose proof (fold_addPiece_length (pieces d) t0) as HL.
  change (segments_length t0) with 0%Z in HL. rewrite Z.add_0_l in HL.
  generalize dependent (fold_left addPiece (pieces d) t0). intros road HL.
  rewrite calculateYPositions_length.
  match goal with
  | |- segments_length (set_trackLength ?x ?v) = _ =>
      change (segments_length (set_trackLength x v)) with (segments_length x)
  end.
  rewrite HL. destruct (Z.eqb_spec (totalCount (pieces d)) 0) as [E|E].
  - rewrite addStraight_length. lia.
  - exact HL.
Qed.

Lemma buildFromData_length t d :
  holds (buildFromData t d) (fun built =>
    segments_length built
    = if (totalCount (pieces d) =? 0)%Z then 100%Z else totalCount (pieces d)).
Proof.
  rewrite buildFromData_eq. cbn [holds]. unfold segments_length at 1.
  cbn [segments set_segments]. rewrite length_decorated.
  apply buildRoad_length.
Qed.

(** X1.  A section of non-negative length [count] appends exactly [count]
    segments to the store, whichever of [addStraight], [addCurve], [addHill]
    and [addCurveWithHill] makes it: the three phases of a curved or hilly
    section (a quarter, a half, and the rest) always add up to the whole. *)
Theorem section_emits_its_length (t : Track) (count : Z) (c v : number) :
  (0 <= count)%Z ->
  segments_length (addStraight t count) = (segments_length t + count)%Z /\
  segments_length (addCurve t count c) = (segments_length t + count)%Z /\
  segments_length (addHill t count v) = (segments_length t + count)%Z /\
  segments_length (addCurveWithHill t count c v) = (segments_length t + count)%Z.
Proof.
  intros H.
  rewrite addStraight_length, addCurve_length, addHill_length, addCurveWithHill_length.
  rewrite (phaseCount_nonneg count H). repeat split; lia.
Qed.

Lemma section_emits_its_length_witness :
  (0 <= 7)%Z /\
  segments_length (addCurve Track_fields 7 2) = 7%Z /\
  segments_length (addCurveWithHill Track_fields 7 2 30) = 7%Z.
Proof.
  pose proof (section_emits_its_length Track_fields 7 2 30 ltac:(lia)) as (_ & C & _ & W).
  split; [lia|]. split; [exact C|exact W].
Defined.

(** X2.  A section of negative length: [addStraight] appends nothing, and so
    do the three phased builders, except for the length -1, where the enter
    and hold counts are [floor(-1/4) = floor(-1/2) = -1] and the exit count
    is [-1 + 1 + 1 = 1]: one segment is appended. *)
Theorem negative_length_section (t : Track) (count : Z) (c v : number) :
  (count < 0)%Z ->
  let extra := if (count =? -1)%Z then 1%Z else 0%Z in
  segments (addStraight t count) = segments t /\
  segments_length (addCurve t count c) = (segments_length t + extra)%Z /\
  segments_length (addHill t count v) = (segments_length t + extra)%Z /\
  segments_length (addCurveWithHill t count c v) = (segments_length t + extra)%Z.
Proof.
  intros H extra.
  rewrite addCurve_length, addHill_length, addCurveWithHill_length.
  rewrite (phaseCount_neg count H). fold extra.
  split; [|repeat split].
  unfold addStraight. rewrite for_range_nonpos by lia. reflexivity.
Qed.

Lemma negative_length_section_witness :
  (-1 < 0)%Z /\
  segments (addStraight Track_fields (-1)) = [] /\
  segments_length (addCurve Track_fields (-1) 2) = 1%Z /\
  segments_length (addHill Track_fields (-1) 30) = 1%Z.
Proof.
  pose proof (negative_length_section Track_fields (-1) 2 30 ltac:(lia)) as (S & C & Hh & _).
  split; [lia|]. split; [exact S|]. split; [exact C|exact Hh].
Defined.

(** X3.  When no piece of a track file has a negative length and the lengths
    do not all vanish, [buildFromData] makes as many segments as the lengths
    add up to, and sets [trackLength] to that number times [segmentLength]. *)
Theorem build_segment_count (t : Track) (d : TrackData) :
  Forall (fun p => (0 <= piece_length p)%Z) (pieces d) ->
  (0 < totalLength (pieces d))%Z ->
  holds (buildFromData t d) (fun built =>
    segments_length built = totalLength (pieces d) /\
    trackLength built = (Num.of_int (totalLength (pieces d)) * segmentLength t)%float).
Proof.
  intros Hnn Hpos.
  pose proof (buildFromData_length t d) as HL.
  rewrite buildFromData_eq in HL |- *. cbn [holds] in HL |- *.
  rewrite (totalCount_totalLength _ Hnn) in HL.
  destruct (Z.eqb_spec (totalLength (pieces d)) 0) as [E|_]; [lia|].
  split; [exact HL|].
  destruct (buildRoad_spec t d) as (Hs & _ & _ & Ht & _).
  cbn [trackLength set_segments]. rewrite Ht, Hs. do 2 f_equal.
  rewrite <- HL. unfold segments_length. cbn [segments set_segments].
  now rewrite length_decorated.
Qed.

Lemma build_segment_count_witness :
  let d := fst (createDefaultTrackData zero_rng) in
  Forall (fun p => (0 <= piece_length p)%Z) (pieces d) /\
  (0 < totalLength (pieces d))%Z /\
  holds (buildFromData Track_fields d) (fun built =>
    segments_length built = 310%Z /\ trackLength built = (Num.of_int 310 * 200)%float).
Proof.
  assert (Hnn : Forall (fun p => (0 <= piece_length p)%Z)
                  (pieces (fst (createDefaultTrackData zero_rng)))).
  { repeat constructor; cbn; lia. }
  assert (Hpos : (0 < totalLength (pieces (fst (createDefaultTrackData zero_rng))))%Z).
  { reflexivity. }
  split; [exact Hnn|]. split; [exact Hpos|].
  exact (build_segment_count Track_fields (fst (createDefaultTrackData zero_rng)) Hnn Hpos).
Defined.

(** ** Segments carry their position *)

Lemma addSegment_indexed t c h : indexed t -> indexed (addSegment t c h).
Proof.
  intros H. rewrite addSegment_eq. unfold indexed, indexedList in *.
  cbn [segments segmentLength set_segments]. intros i seg Hl.
  apply lookup_app_Some in Hl as [Hl|[Hge Hl]]; [now apply H|].
  apply list_lookup_singleton_Some in Hl as [Hi <-].
  assert (Z.of_nat i = segments_length t) as -> by (unfold segments_length; lia).
  repeat split.
Qed.

(** A property of tracks that [addSegment] keeps is kept by every builder. *)
Lemma builders_preserve (P : Track -> Prop) :
  (forall t c h, P t -> P (addSegment t c h)) ->
  forall t count c v,
    P t ->
    P (addStraight t count) /\ P (addCurve t count c) /\ P (addHill t count v) /\
    P (addCurveWithHill t count c v).
Proof.
  intros Hstep t count c v Ht.
  unfold addStraight, addCurve, addHill, addCurveWithHill. cbv zeta.
  repeat split;
    repeat (apply for_range_preserves; [|intros; now apply Hstep]); exact Ht.
Qed.

Lemma addPiece_preserves (P : Track -> Prop) :
  (forall t c h, P t -> P (addSegment t c h)) ->
  forall t p, P t -> P (addPiece t p).
Proof.
  intros Hstep t p Ht. unfold addPiece.
  destruct (builders_preserve P Hstep t (piece_length p) (piece_value p) (piece_value p) Ht)
    as (S & C & Hh & _).
  now destruct (piece_type p).
Qed.

Lemma fold_addPiece_preserves (P : Track -> Prop) :
  (forall t c h, P t -> P (addSegment t c h)) ->
  forall ps t, P t -> P (fold_left addPiece ps t).
Proof.
  intros Hstep ps. induction ps as [|p ps IH]; intros t Ht; cbn [fold_left]; [exact Ht|].
  apply IH. now apply addPiece_preserves.
Qed.

Lemma elevate_positions segs : forall y i seg',
  elevate y segs !! i = Some seg' ->
  exists seg, segs !! i = Some seg /\
    index seg' = index seg /\ z1 seg' = z1 seg /\ z2 seg' = z2 seg.
Proof.
  induction segs as [|seg rest IH]; intros y i seg' H; [discriminate|].
  destruct i as [|i]; cbn in H.
  - injection H as <-. exists seg. repeat split.
  - apply IH in H as (seg0 & H0 & E). exists seg0. split; [exact H0|exact E].
Qed.

Lemma indexedList_elevate sl y segs :
  indexedList sl segs -> indexedList sl (elevate y segs).
Proof.
  intros H i seg' Hl. apply elevate_positions in Hl as (seg & Hs & -> & -> & ->).
  now apply H.
Qed.

Lemma indexedList_same_road sl segs segs' :
  indexedList sl segs ->
  (forall k seg', segs' !! k = Some seg' ->
                  exists seg, segs !! k = Some seg /\ same_road seg seg') ->
  indexedList sl segs'.
Proof.
  intros H Hr i seg' Hl. apply Hr in Hl as (seg & Hs & Hi & Hp1 & Hp2 & _).
  unfold z1, z2. rewrite Hi, Hp1, Hp2. now apply H.
Qed.

Lemma buildRoad_indexed t d : indexed (buildRoad t d).
Proof.
  unfold buildRoad. cbv zeta.
  set (t0 := set_currentPieces (set_segments t []) (pieces d)).
  assert (H0 : indexed t0) by (intros i seg H; discriminate).
  pose proof (fold_addPiece_preserves indexed addSegment_indexed (pieces d) t0 H0) as H1.
  generalize dependent (fold_left addPiece (pieces d) t0). intros road H1.
  assert (H2 : indexed (if (segments_length road =? 0)%Z then addStraight road 100 else road)).
  { destruct (segments_length road =? 0)%Z; [|exact H1].
    apply (builders_preserve indexed addSegment_indexed road 100 0%float 0%float H1). }
  generalize dependent (if (segments_length road =? 0)%Z then addStraight road 100 else road).
  intros road' H2.
  unfold indexed, calculateYPositions. cbn [segments segmentLength set_segments set_trackLength].
  now apply indexedList_elevate.
Qed.

(** The road of [buildRandomTrack], before the length is set, the elevations
    are computed and the sprites are added, satisfies whatever the empty
    track satisfies and [addSegment] and the record of a piece keep. *)
Lemma buildRandomTrack_road (P : Track -> Prop) g t :
  P (set_currentPieces (set_segments t []) []) ->
  (forall t p, P t -> P (push_piece t p)) ->
  (forall t c h, P t -> P (addSegment t c h)) ->
  exists road g',
    buildRandomTrack g t
    = addSprites g'
        (calculateYPositions
           (set_trackLength road (Num.of_int (segments_length road) * segmentLength road)))
    /\ P road.
Proof.
  intros H0 Hpush Hstep.
  pose proof (builders_preserve P Hstep) as Hb.
  assert (HS : forall t count, P t -> P (addStraight t count))
    by (intros ? count H; exact (proj1 (Hb _ count 0%float 0%float H))).
  assert (HC : forall t count c, P t -> P (addCurve t count c))
    by (intros ? count c H; exact (proj1 (proj2 (Hb _ count c 0%float H)))).
  assert (HH : forall t count v, P t -> P (addHill t count v))
    by (intros ? count v H; exact (proj1 (proj2 (proj2 (Hb _ count 0%float v H))))).
  assert (HW : forall t count c v, P t -> P (addCurveWithHill t count c v))
    by (intros ? count c v H; exact (proj2 (proj2 (proj2 (Hb _ count c v H))))).
  clear Hb.
  unfold buildRandomTrack, generateId, random. cbv zeta.
  match goal with
  | |- context [for_range ?n ?body ?s] =>
      pose proof (for_range_preserves (fun st : Track * RNG => P (fst st)) n body s) as Hinv;
      destruct (for_range n body s) as [t1 g1]
  end.
  do 2 eexists. split; [reflexivity|].
  apply HS, Hpush. change (P (fst (t1, g1))). apply Hinv.
  - cbn [fst]. apply HS, Hpush, H0.
  - intros _ [ta ga] Ha. cbn [fst] in Ha.
    unfold randomSection, generateId, random. cbv zeta.
    repeat match goal with
           | |- context [if ?b then _ else _] => destruct b
           end; cbn [fst];
      first [apply HS | apply HC | apply HH | apply HW]; repeat apply Hpush; exact Ha.
Qed.

Lemma indexed_push_piece t p : indexed t -> indexed (push_piece t p).
Proof. intros H. exact H. Qed.

Lemma buildFromData_indexed t d : holds (buildFromData t d) indexed.
Proof.
  rewrite buildFromData_eq. cbn [holds].
  unfold indexed. cbn [segments segmentLength set_segments].
  apply (indexedList_same_road _ (segments (buildRoad t d))).
  - apply buildRoad_indexed.
  - intros k seg'. apply decorated_same_road.
Qed.

Lemma buildRandomTrack_indexed g t : indexed (fst (buildRandomTrack g t)).
Proof.
  destruct (buildRandomTrack_road indexed g t) as (road & g' & -> & Hr).
  - intros i seg H. discriminate.
  - exact indexed_push_piece.
  - exact addSegment_indexed.
  - match goal with |- indexed (fst (addSprites g' ?x)) => set (t1 := x) end.
    destruct (addSprites_spec g' t1) as ((Hsl & _) & _ & Hsame). cbv zeta in *.
    unfold indexed. rewrite Hsl.
    apply (indexedList_same_road _ (segments t1)); [|exact Hsame].
    subst t1. unfold calculateYPositions.
    cbn [segments segmentLength set_segments set_trackLength].
    now apply indexedList_elevate.
Qed.

(** X4.  On every track [buildFromData] or [buildRandomTrack] leaves, the
    segment at position [i] of the store has [index = i], its near edge at
    [world.z = i * segmentLength] and its far edge at
    [(i + 1) * segmentLength]: the elevation pass and the sprites change
    none of the three. *)
Theorem segments_carry_their_position :
  (forall t d, holds (buildFromData t d) indexed) /\
  (forall g t, indexed (fst (buildRandomTrack g t))).
Proof. split; [exact buildFromData_indexed|exact buildRandomTrack_indexed]. Qed.

(** ** What the pieces make of the road *)

Lemma addSegment_Forall (Q : Segment -> Prop) t c h :
  Q (newSegment t (segments_length t) c h) ->
  Forall Q (segments t) -> Forall Q (segments (addSegment t c h)).
Proof.
  intros Hq H. rewrite addSegment_eq. cbn [segments set_segments].
  apply Forall_app_2; [exact H|]. now constructor.
Qed.

Lemma loop_Forall (Q : Segment -> Prop) count (f h : Z -> number) t :
  (forall t n i, Q (newSegment t n (f i) (h i))) ->
  Forall Q (segments t) ->
  Forall Q (segments (for_range count (fun i t => addSegment t (f i) (h i)) t)).
Proof.
  intros Hq H.
  apply (for_range_preserves (fun t => Forall Q (segments t))); [exact H|].
  intros i acc Ha. now apply addSegment_Forall.
Qed.

Lemma addPiece_level t p :
  piece_type p <> Hill ->
  Forall (fun seg => hill seg = 0%float) (segments t) ->
  Forall (fun seg => hill seg = 0%float) (segments (addPiece t p)).
Proof.
  intros Hp H. unfold addPiece, addStraight, addCurve.
  destruct (piece_type p); [| |congruence]; cbv zeta;
    repeat (apply (loop_Forall (fun seg => hill seg = 0%float) _ _ (fun _ => 0%float));
            [reflexivity|]); exact H.
Qed.

Lemma addPiece_unbent t p :
  piece_type p <> Curve ->
  Forall (fun seg => curve seg = 0%float) (segments t) ->
  Forall (fun seg => curve seg = 0%float) (segments (addPiece t p)).
Proof.
  intros Hp H. unfold addPiece, addStraight, addHill.
  destruct (piece_type p); [|congruence|]; cbv zeta;
    repeat (apply (loop_Forall (fun seg => curve seg = 0%float) _ (fun _ => 0%float));
            [reflexivity|]); exact H.
Qed.

Lemma fold_addPiece_Forall (Q : Segment -> Prop) (ok : TrackPiece -> Prop) :
  (forall t p, ok p -> Forall Q (segments t) -> Forall Q (segments (addPiece t p))) ->
  forall ps t, Forall ok ps -> Forall Q (segments t) ->
               Forall Q (segments (fold_left addPiece ps t)).
Proof.
  intros Hstep ps. induction ps as [|p ps IH]; intros t Hok H; cbn [fold_left]; [exact H|].
  inversion Hok; subst. apply IH; [assumption|]. now apply Hstep.
Qed.

(** The segments of the road before the elevation pass all satisfy what the
    segments of every piece and of the fallback straight satisfy. *)
Lemma buildRoad_Forall (Q : Segment -> Prop) (ok : TrackPiece -> Prop) t d :
  (forall t p, ok p -> Forall Q (segments t) -> Forall Q (segments (addPiece t p))) ->
  (forall t n, Q (newSegment t n 0 0)) ->
  Forall ok (pieces d) ->
  exists road,
    buildRoad t d = calculateYPositions road /\ Forall Q (segments road).
Proof.
  intros Hstep Hs Hok. unfold buildRoad. cbv zeta.
  set (t0 := set_currentPieces (set_segments t []) (pieces d)).
  pose proof (fold_addPiece_Forall Q ok Hstep (pieces d) t0 Hok (Forall_nil_2 Q)) as H1.
  generalize dependent (fold_left addPiece (pieces d) t0). intros road H1.
  eexists. split; [reflexivity|]. cbn [segments set_trackLength].
  destruct (segments_length road =? 0)%Z; [|exact H1].
  unfold addStraight.
  apply (loop_Forall Q _ (fun _ => 0%float) (fun _ => 0%float)); [|exact H1].
  intros; apply Hs.
Qed.

Lemma elevate_level segs :
  Forall (fun seg => hill seg = 0%float) segs -> flat (elevate 0 segs).
Proof.
  induction 1 as [|seg rest Hh _ IH]; [constructor|].
  cbn [elevate]. rewrite Hh. change (0 + 0)%float with 0%float.
  constructor; [|exact IH]. repeat split.
Qed.

Lemma elevate_curve segs : forall y,
  Forall (fun seg => curve seg = 0%float) segs -> straight (elevate y segs).
Proof.
  induction segs as [|seg rest IH]; intros y H; [constructor|].
  inversion H; subst. cbn [elevate]. constructor; [assumption|]. now apply IH.
Qed.

Lemma Forall_same_road (Q : Segment -> Prop) segs segs' :
  (forall seg seg', same_road seg seg' -> Q seg -> Q seg') ->
  Forall Q segs ->
  (forall k seg', segs' !! k = Some seg' ->
                  exists seg, segs !! k = Some seg /\ same_road seg seg') ->
  Forall Q segs'.
Proof.
  intros Hq H Hr. apply Forall_lookup. intros k seg' Hl.
  apply Hr in Hl as (seg & Hs & Hsame).
  apply (Hq seg); [exact Hsame|]. exact (proj1 (Forall_lookup _ _) H k seg Hs).
Qed.

(** X5.  A track file without hill pieces builds a flat road: every segment
    has [hill = 0], and the elevation pass leaves both of its edges at
    [world.y = 0]. *)
Theorem flat_without_hill_pieces (t : Track) (d : TrackData) :
  Forall (fun p => piece_type p <> Hill) (pieces d) ->
  holds (buildFromData t d) (fun built => flat (segments built)).
Proof.
  intros Hok. rewrite buildFromData_eq. cbn [holds segments set_segments].
  destruct (buildRoad_Forall (fun seg => hill seg = 0%float)
              (fun p => piece_type p <> Hill) t d addPiece_level) as (road & -> & Hr);
    [reflexivity|exact Hok|].
  unfold calculateYPositions. cbn [segments set_segments].
  apply (Forall_same_road _ (elevate 0 (segments road))).
  - intros seg seg' (_ & Hp1 & Hp2 & _ & Hh & _). unfold y1, y2. now rewrite Hp1, Hp2, Hh.
  - now apply elevate_level.
  - intros k seg'. apply decorated_same_road.
Qed.

Lemma flat_without_hill_pieces_witness :
  Forall (fun p => piece_type p <> Hill) (pieces (single_piece Curve 40 8)) /\
  holds (buildFromData Track_fields (single_piece Curve 40 8))
        (fun built => flat (segments built)).
Proof.
  assert (H : Forall (fun p => piece_type p <> Hill) (pieces (single_piece Curve 40 8)))
    by (repeat constructor; discriminate).
  split; [exact H|].
  exact (flat_without_hill_pieces Track_fields (single_piece Curve 40 8) H).
Defined.

(** X6.  A track file without curve pieces builds a road without bends:
    every segment has [curve = 0]. *)
Theorem straight_without_curve_pieces (t : Track) (d : TrackData) :
  Forall (fun p => piece_type p <> Curve) (pieces d) ->
  holds (buildFromData t d) (fun built => straight (segments built)).
Proof.
  intros Hok. rewrite buildFromData_eq. cbn [holds segments set_segments].
  destruct (buildRoad_Forall (fun seg => curve seg = 0%float)
              (fun p => piece_type p <> Curve) t d addPiece_unbent) as (road & -> & Hr);
    [reflexivity|exact Hok|].
  unfold calculateYPositions. cbn [segments set_segments].
  apply (Forall_same_road _ (elevate 0 (segments road))).
  - intros seg seg' (_ & _ & _ & Hc & _). now rewrite Hc.
  - now apply elevate_curve.
  - intros k seg'. apply decorated_same_road.
Qed.

Lemma straight_without_curve_pieces_witness :
  Forall (fun p => piece_type p <> Curve) (pieces (single_piece Hill 40 60)) /\
  holds (buildFromData Track_fields (single_piece Hill 40 60))
        (fun built => straight (segments built)).
Proof.
  assert (H : Forall (fun p => piece_type p <> Curve) (pieces (single_piece Hill 40 60)))
    by (repeat constructor; discriminate).
  split; [exact H|].
  exact (straight_without_curve_pieces Track_fields (single_piece Hill 40 60) H).
Defined.

(** ** The export *)

Lemma exportSegment_indices sps : forall g i,
  map segmentIndex (fst (exportSegmentSprites g i sps)) = replicate (length sps) i /\
  map to_sprite (fst (exportSegmentSprites g i sps)) = sps.
Proof.
  induction sps as [|sp rest IH]; intros g i; [split; reflexivity|].
  cbn [exportSegmentSprites]. destruct (generateId g) as [id g1].
  specialize (IH g1 i). destruct (exportSegmentSprites g1 i rest) as [out g2].
  cbn [fst map length replicate] in *. destruct IH as [-> IH2]. split; [reflexivity|].
  rewrite IH2. unfold to_sprite at 1. cbn. now destruct sp.
Qed.

Lemma export_indices segs : forall g i,
  map segmentIndex (fst (exportSprites g i segs)) = indicesFrom i segs /\
  map to_sprite (fst (exportSprites g i segs)) = concat (map sprites segs).
Proof.
  induction segs as [|seg rest IH]; intros g i; [split; reflexivity|].
  cbn [exportSprites indicesFrom map concat].
  pose proof (exportSegment_indices (sprites seg) g i) as Ha.
  destruct (exportSegmentSprites g i (sprites seg)) as [a g1].
  specialize (IH g1 (i + 1)%Z). destruct (exportSprites g1 (i + 1) rest) as [b g2].
  cbn [fst] in *. rewrite !map_app.
  destruct Ha as [-> ->], IH as [-> ->]. split; reflexivity.
Qed.

Lemma indicesFrom_bounds segs : forall i,
  Forall (fun k => (i <= k < i + Z.of_nat (length segs))%Z) (indicesFrom i segs).
Proof.
  induction segs as [|seg rest IH]; intros i; [constructor|].
  cbn [indicesFrom length]. apply Forall_app_2.
  - apply Forall_replicate. lia.
  - eapply Forall_impl; [apply IH|]. cbn beta. intros k Hk. lia.
Qed.

Lemma sorted_replicate_app n (i : Z) l :
  StronglySorted Z.le l -> Forall (Z.le i) l -> StronglySorted Z.le (replicate n i ++ l).
Proof.
  intros Hs Hl. induction n as [|n IH]; [exact Hs|].
  cbn [replicate app]. constructor; [exact IH|].
  apply Forall_app_2; [|exact Hl]. apply Forall_replicate. lia.
Qed.

Lemma indicesFrom_sorted segs : forall i, StronglySorted Z.le (indicesFrom i segs).
Proof.
  induction segs as [|seg rest IH]; intros i; [constructor|].
  cbn [indicesFrom]. apply sorted_replicate_app; [apply IH|].
  eapply Forall_impl; [apply (indicesFrom_bounds rest (i + 1))|]. cbn beta. intros k Hk.
  lia.
Qed.

(** X7.  [getTrackData] exports the pieces the track was built from and
    every sprite of the store exactly once, in the order of the store: the
    types and offsets are those of the segments' sprite lists one after the
    other, every [segmentIndex] addresses an existing segment, and the
    indices never decrease along the list. *)
Theorem export_keeps_every_sprite_in_order (g : RNG) (t : Track) :
  let d := fst (getTrackData g t) in
  pieces d = currentPieces t /\
  map to_sprite (placed d) = concat (map sprites (segments t)) /\
  Forall (fun sp => (0 <= segmentIndex sp < segments_length t)%Z) (placed d) /\
  StronglySorted Z.le (map segmentIndex (placed d)).
Proof.
  cbv zeta. rewrite getTrackData_fst. cbn [pieces placed].
  destruct (export_indices (segments t) g 0) as [Hi Hs].
  split; [reflexivity|]. split; [exact Hs|]. split.
  - apply Forall_map with (f := segmentIndex) (P := fun k => (0 <= k < segments_length t)%Z).
    rewrite Hi. exact (indicesFrom_bounds (segments t) 0).
  - rewrite Hi. apply indicesFrom_sorted.
Qed.

(** ** Rebuilding *)

Lemma elevate_elevate segs : forall y y', elevate y (elevate y' segs) = elevate y segs.
Proof.
  induction segs as [|seg rest IH]; intros y y'; [reflexivity|].
  cbn [elevate index p1 p2 curve hill color sprites]. rewrite IH. reflexivity.
Qed.

(** X8.  The elevation pass is idempotent: it reads the [hill] of every
    segment and nothing else, so that running it on its own result changes
    nothing. *)
Theorem calculateYPositions_idempotent (t : Track) :
  calculateYPositions (calculateYPositions t) = calculateYPositions t.
Proof.
  unfold calculateYPositions. cbn [segments set_segments segmentLength rumbleLength
                                   trackLength currentPieces].
  unfold set_segments. cbn [segments segmentLength rumbleLength trackLength currentPieces].
  now rewrite elevate_elevate.
Qed.

(** X9.  [buildFromData] starts from an empty store: the track it makes is
    determined by the track file and by the two fields [segmentLength] and
    [rumbleLength], whatever segments, pieces and length the track held
    before. *)
Theorem buildFromData_forgets_previous_track (t t' : Track) (d : TrackData) :
  segmentLength t' = segmentLength t ->
  rumbleLength t' = rumbleLength t ->
  buildFromData t' d = buildFromData t d.
Proof.
  intros Hs Hr. unfold buildFromData. cbv zeta.
  now rewrite (buildRoad_fields t t' d Hs Hr).
Qed.

Lemma buildFromData_forgets_previous_track_witness :
  let old := fst (buildRandomTrack zero_rng Track_fields) in
  segmentLength old = segmentLength Track_fields /\
  rumbleLength old = rumbleLength Track_fields /\
  buildFromData old (single_piece Hill 40 60)
  = buildFromData Track_fields (single_piece Hill 40 60).
Proof.
  assert (Hs : segmentLength (fst (buildRandomTrack zero_rng Track_fields))
               = segmentLength Track_fields) by (vm_compute; reflexivity).
  assert (Hr : rumbleLength (fst (buildRandomTrack zero_rng Track_fields))
               = rumbleLength Track_fields) by (vm_compute; reflexivity).
  split; [exact Hs|]. split; [exact Hr|].
  exact (buildFromData_forgets_previous_track Track_fields
           (fst (buildRandomTrack zero_rng Track_fields)) (single_piece Hill 40 60) Hs Hr).
Defined.

(** ** The procedural sprites *)

Lemma roadside_undecorated g i seg : undecorated i -> roadside g i seg = (seg, g).
Proof.
  unfold undecorated, decorationIntervals. intros H.
  repeat match type of H with
         | Forall _ (_ :: _) =>
             let E := fresh "E" in apply Forall_cons in H as [E H]; apply Z.eqb_neq in E
         end.
  unfold roadside. cbv zeta. rewrite E, E0, E1, E2, E3, E4, E5. reflexivity.
Qed.

Lemma grows_base n seg : grows n seg seg.
Proof. exists []. split; [now rewrite app_nil_r|cbn; lia]. Qed.

Lemma grows_push n sp seg seg' : grows n seg seg' -> grows (S n) seg (push_sprite sp seg').
Proof.
  intros (added & E & L). exists (added ++ [sp]). cbn [push_sprite sprites set_sprites].
  rewrite E, length_app, app_assoc. split; [reflexivity|cbn; lia].
Qed.

Lemma grows_skip n seg seg' : grows n seg seg' -> grows (S n) seg seg'.
Proof. intros (added & E & L). exists added. split; [exact E|lia]. Qed.

Lemma roadside_appends g i seg : grows 8 seg (fst (roadside g i seg)).
Proof.
  unfold roadside, pick, random. cbv zeta.
  repeat match goal with
         | |- context [if ?b then _ else _] => destruct b
         end; cbn [fst];
    repeat first [apply grows_push | apply grows_skip]; apply grows_base.
Qed.

Lemma has_here (sp : Sprite) seg : sp ∈ sprites (push_sprite sp seg).
Proof.
  cbn [push_sprite sprites set_sprites]. apply elem_of_app. right.
  now apply list_elem_of_singleton.
Qed.

Lemma has_later (sp sp' : Sprite) seg :
  sp ∈ sprites seg -> sp ∈ sprites (push_sprite sp' seg).
Proof.
  intros H. cbn [push_sprite sprites set_sprites]. apply elem_of_app. now left.
Qed.

(** Finds a sprite among those pushed on a segment, last push first. *)
Ltac find_sprite := first [apply has_here | apply has_later; find_sprite].

Lemma roadside_columns g i seg :
  Z.rem i SPRITE_PLACEMENT.COLUMN_INTERVAL = 0%Z ->
  leftColumn ∈ sprites (fst (roadside g i seg)) /\
  rightColumn ∈ sprites (fst (roadside g i seg)).
Proof.
  intros H. unfold roadside, pick, random. cbv zeta. rewrite H. cbn [Z.eqb].
  repeat match goal with
         | |- context [if ?b then _ else _] => destruct b
         end; cbn [fst];
    (split; find_sprite).
Qed.

Lemma addSpritesFrom_lookup segs : forall g j (i : nat) seg,
  segs !! i = Some seg ->
  exists g', fst (addSpritesFrom g j segs) !! i
             = Some (fst (roadside g' (j + Z.of_nat i) seg)).
Proof.
  induction segs as [|s rest IH]; intros g j i seg H; [discriminate|].
  cbn [addSpritesFrom].
  destruct (roadside g j s) as [s1 g1] eqn:E1.
  specialize (IH g1 (j + 1)%Z).
  destruct (addSpritesFrom g1 (j + 1) rest) as [rest1 g2]. cbn [fst] in *.
  destruct i as [|i].
  - injection H as <-. exists g. rewrite Z.add_0_r, E1. reflexivity.
  - change (rest !! i = Some seg) in H.
    destruct (IH i seg H) as [g' Hg]. exists g'.
    change ((s1 :: rest1) !! Datatypes.S i) with (rest1 !! i).
    rewrite Hg. do 3 f_equal. lia.
Qed.

(** X10.  What [addSprites] does to the segment at position [i]: it keeps
    the geometry and the sprites the segment had and appends at most eight
    sprites (two trees, two bushes, two columns, a rock, a billboard); it
    leaves the segment as it was when [i] is a multiple of none of the
    intervals 12, 15, 20, 25, 30, 40, 80; and it puts a column at either side
    of the road, at offsets -1.1 and 1.1, when [i] is a multiple of 30. *)
Theorem addSprites_decorates_at_intervals (g : RNG) (t : Track) (i : nat) (seg : Segment) :
  segments t !! i = Some seg ->
  exists seg',
    segments (fst (addSprites g t)) !! i = Some seg' /\
    same_road seg seg' /\
    grows 8 seg seg' /\
    (undecorated (Z.of_nat i) -> seg' = seg) /\
    (Z.rem (Z.of_nat i) 30 = 0%Z ->
     leftColumn ∈ sprites seg' /\ rightColumn ∈ sprites seg').
Proof.
  intros H. unfold addSprites.
  destruct (addSpritesFrom_lookup (segments t) g 0 i seg H) as [g' Hg].
  destruct (addSpritesFrom g 0 (segments t)) as [segs g2]. cbn [fst segments set_segments] in *.
  rewrite Z.add_0_l in Hg. eexists. split; [exact Hg|].
  split; [apply roadside_same_road|]. split; [apply roadside_appends|]. split.
  - intros Hu. now rewrite roadside_undecorated.
  - apply roadside_columns.
Qed.

Lemma addSprites_decorates_at_intervals_witness :
  let t := addStraight Track_fields 40 in
  exists seg seg',
    segments t !! 30%nat = Some seg /\
    segments (fst (addSprites zero_rng t)) !! 30%nat = Some seg' /\
    (Z.rem 30 30 = 0%Z -> leftColumn ∈ sprites seg' /\ rightColumn ∈ sprites seg').
Proof.
  cbv zeta.
  assert (H : segments (addStraight Track_fields 40) !! 30%nat
              = Some (newSegment Track_fields 30 0 0)) by (vm_compute; reflexivity).
  destruct (addSprites_decorates_at_intervals zero_rng (addStraight Track_fields 40) 30
              (newSegment Track_fields 30 0 0) H) as (seg' & Hl & _ & _ & _ & Hc).
  exists (newSegment Track_fields 30 0 0), seg'. split; [exact H|]. split; [exact Hl|exact Hc].
Defined.

(** ** The size of a random track *)

Lemma binary_round_aux_signed s m e l : SFsigned s (binary_round_aux prec emax s m e l).
Proof.
  unfold binary_round_aux.
  destruct (shr_fexp prec emax m e l) as [mrs' e'].
  destruct (shr_fexp prec emax _ e' loc_Exact) as [mrs'' e''].
  destruct (shr_m mrs''); [reflexivity| |exact I].
  destruct (e'' <=? emax - prec)%Z; reflexivity.
Qed.

Lemma SFmul_signed sx sy x y :
  SFsigned sx x -> SFsigned sy y -> SFsigned (xorb sx sy) (SFmul prec emax x y).
Proof.
  unfold SFmul. destruct x, y; cbn [SFsigned]; intros; subst;
    try exact I; try reflexivity; apply binary_round_aux_signed.
Qed.

Lemma SFdiv_signed sx sy x y :
  SFsigned sx x -> SFsigned sy y -> SFsigned (xorb sx sy) (SFdiv prec emax x y).
Proof.
  unfold SFdiv. destruct x, y; cbn [SFsigned]; intros; subst;
    try exact I; try reflexivity.
  destruct (SFdiv_core_binary _ _ _ _ _ _) as [[mz ez] lz].
  apply binary_round_aux_signed.
Qed.

Lemma mul_unsigned x y : unsigned x -> unsigned y -> unsigned (x * y).
Proof.
  unfold unsigned. intros Hx Hy. rewrite mul_spec. exact (SFmul_signed false false _ _ Hx Hy).
Qed.

Lemma div_unsigned x y : unsigned x -> unsigned y -> unsigned (x / y).
Proof.
  unfold unsigned. intros Hx Hy. rewrite div_spec. exact (SFdiv_signed false false _ _ Hx Hy).
Qed.

Lemma of_int_unsigned n : (0 <= n)%Z -> unsigned (Num.of_int n).
Proof.
  intros Hn. unfold unsigned. destruct n as [|p|p]; [reflexivity| |lia].
  unfold Num.of_int. rewrite of_uint63_spec.
  pose proof (Uint63.to_Z_bounded (Uint63.of_Z (Z.pos p))) as [Hb _].
  destruct (Uint63.to_Z (Uint63.of_Z (Z.pos p))) as [|q|q]; [reflexivity| |lia].
  unfold binary_normalize, binary_round.
  destruct (shl_align _ _ _) as [mz ez]. apply binary_round_aux_signed.
Qed.

(** A draw of the random source is not negative. *)
Lemma draw_unsigned k : unsigned (Num.of_int (k mod two53) / Num.of_int two53).
Proof.
  apply div_unsigned; apply of_int_unsigned; [|unfold two53; lia].
  apply Z.mod_pos_bound. reflexivity.
Qed.

Lemma floorInt_unsigned x : unsigned x -> (0 <= floorInt x)%Z.
Proof.
  unfold unsigned, floorInt, Num.floorZ.
  destruct (Prim2SF x) as [s|s| |s m e]; cbn [SFsigned default from_option id];
    intros H; try lia.
  subst s. apply Z.shiftl_nonneg. unfold Num.signed. lia.
Qed.

(** [Math.floor(Math.random() * k)] is not negative, for [k] not negative. *)
Lemma floor_draw_nonneg k y :
  unsigned y -> (0 <= floorInt (Num.of_int (k mod two53) / Num.of_int two53 * y))%Z.
Proof. intros Hy. apply floorInt_unsigned, mul_unsigned; [apply draw_unsigned|exact Hy]. Qed.

Lemma push_piece_length t p : segments_length (push_piece t p) = segments_length t.
Proof. reflexivity. Qed.

(** Every round of the section loop adds at least 30 segments. *)
Lemma randomSection_grows st :
  (segments_length (fst st) + 30 <= segments_length (fst (randomSection st)))%Z.
Proof.
  destruct st as [t g]. unfold randomSection, generateId, random. cbv zeta.
  repeat match goal with
         | |- context [if ?b then _ else _] => destruct b
         end; cbn [fst];
    rewrite ?addStraight_length, ?addCurve_length, ?addHill_length,
            ?addCurveWithHill_length, ?push_piece_length;
    match goal with
    | |- context [floorInt (Num.of_int (?k mod two53) / Num.of_int two53 * ?y)] =>
        pose proof (floor_draw_nonneg k y eq_refl)
    end;
    rewrite ?phaseCount_nonneg by lia; lia.
Qed.

Lemma addSprites_length g t :
  segments_length (fst (addSprites g t)) = segments_length t.
Proof.
  destruct (addSprites_spec g t) as (_ & H & _). cbv zeta in H.
  unfold segments_length. now rewrite H.
Qed.

Lemma buildRandomTrack_length g t :
  (430 <= segments_length (fst (buildRandomTrack g t)))%Z.
Proof.
  unfold buildRandomTrack, generateId, random. cbv zeta.
  match goal with
  | |- context [for_range ?n ?body ?s] =>
      pose proof (for_range_inv
                    (fun k (st : Track * RNG) =>
                       (30 + 30 * Z.of_nat k <= segments_length (fst st))%Z)
                    n body s) as Hinv;
      assert (Hn : (12 <= n)%Z);
      [|destruct (for_range n body s) as [t1 g1]]
  end.
  { match goal with
    | |- context [floorInt (Num.of_int (?k mod two53) / Num.of_int two53 * ?y)] =>
        pose proof (floor_draw_nonneg k y eq_refl)
    end. lia. }
  cbn [fst] in Hinv.
  rewrite addSprites_length, calculateYPositions_length.
  match goal with
  | |- (_ <= segments_length (set_trackLength ?x ?v))%Z =>
      change (segments_length (set_trackLength x v)) with (segments_length x)
  end.
  rewrite addStraight_length, push_piece_length.
  match goal with
  | |- context [Z.max 0 (40 + floorInt (Num.of_int (?k mod two53) / Num.of_int two53 * ?y))] =>
      pose proof (floor_draw_nonneg k y eq_refl)
  end.
  assert (30 + 30 * Z.of_nat (Z.to_nat
            (12 + floorInt (Num.of_int (draws g (cursor g) mod two53) / Num.of_int two53
                            * Num.of_int (20 - 12)))) <= segments_length t1)%Z as Hloop.
  { apply Hinv.
    - rewrite addStraight_length, push_piece_length.
      match goal with
      | |- context [floorInt (Num.of_int (?k mod two53) / Num.of_int two53 * ?y)] =>
          pose proof (floor_draw_nonneg k y eq_refl)
      end.
      change (segments_length (set_currentPieces (set_segments t []) [])) with 0%Z. lia.
    - intros k acc _ Ha. pose proof (randomSection_grows acc). lia. }
  lia.
Qed.

Lemma buildRandomTrack_segmentLength g t :
  segmentLength (fst (buildRandomTrack g t)) = segmentLength t.
Proof.
  destruct (buildRandomTrack_tail g t) as (road & g' & -> & Hs).
  match goal with |- segmentLength (fst (addSprites g' ?x)) = _ => set (t1 := x) end.
  destruct (addSprites_spec g' t1) as ((-> & _) & _). exact Hs.
Qed.

(** X11.  A random track has at least 430 segments: 30 of the opening
    straight, 30 for each of at least 12 sections, and 40 of the closing
    straight.  Its store is never empty, and its [trackLength] is the
    number of its segments times [segmentLength]. *)
Theorem random_track_is_long (g : RNG) (t : Track) :
  let built := fst (buildRandomTrack g t) in
  (430 <= segments_length built)%Z /\ segments built <> [] /\
  segmentLength built = segmentLength t.
Proof.
  cbv zeta. pose proof (buildRandomTrack_length g t) as H.
  split; [exact H|]. split.
  - intros E. unfold segments_length in H. rewrite E in H. cbn in H. lia.
  - apply buildRandomTrack_segmentLength.
Qed.

(** ** Looking up a segment of a built track *)

Lemma getSegment_indexed (t : Track) (z : number) :
  indexed t -> (0 < segments_length t)%Z ->
  segmentLength t = ROAD.SEGMENT_LENGTH -> is_finite z = true ->
  exists seg,
    getSegment t z = Some seg /\
    (0 <= index seg < segments_length t)%Z /\
    segments t !! Z.to_nat (index seg) = Some seg.
Proof.
  intros Hi Hn Hs Hz.
  destruct (getSegment_finite_quotient t z) as (i & seg & Hlt & Hl & Hg).
  - intros E. unfold segments_length in Hn. rewrite E in Hn. cbn in Hn. lia.
  - rewrite Hs. now apply div_200_finite.
  - exists seg. destruct (Hi i seg Hl) as (-> & _).
    split; [exact Hg|]. unfold segments_length. split; [lia|].
    now rewrite Nat2Z.id.
Qed.

Lemma buildFromData_segmentLength t d :
  holds (buildFromData t d) (fun built => segmentLength built = segmentLength t).
Proof.
  rewrite buildFromData_eq. cbn [holds segmentLength set_segments].
  exact (proj1 (buildRoad_spec t d)).
Qed.

(** X12.  On a track made by [buildFromData] or [buildRandomTrack] with
    segments of length 200, [getSegment] finds a segment for every finite
    position, negative ones included: the store is never empty.  The segment
    it returns sits in the store at the position its [index] names. *)
Theorem getSegment_on_built_track (z : number) :
  is_finite z = true ->
  (forall t d, segmentLength t = ROAD.SEGMENT_LENGTH ->
     holds (buildFromData t d) (fun built =>
       exists seg,
         getSegment built z = Some seg /\
         (0 <= index seg < segments_length built)%Z /\
         segments built !! Z.to_nat (index seg) = Some seg)) /\
  (forall g t, segmentLength t = ROAD.SEGMENT_LENGTH ->
     let built := fst (buildRandomTrack g t) in
     exists seg,
       getSegment built z = Some seg /\
       (0 <= index seg < segments_length built)%Z /\
       segments built !! Z.to_nat (index seg) = Some seg).
Proof.
  intros Hz. split.
  - intros t d Hs.
    pose proof (buildFromData_indexed t d) as Hi. pose proof (buildFromData_length t d) as Hn.
    pose proof (buildFromData_segmentLength t d) as Hsl.
    destruct (buildFromData t d) as [built|]; cbn [holds] in *; [|contradiction].
    apply getSegment_indexed; [exact Hi| |congruence|exact Hz].
    pose proof (totalCount_nonneg (pieces d)).
    destruct (totalCount (pieces d) =? 0)%Z eqn:E; [lia|].
    apply Z.eqb_neq in E. lia.
  - intros g t Hs. cbv zeta. apply getSegment_indexed; [apply buildRandomTrack_indexed| | |exact Hz].
    + pose proof (buildRandomTrack_length g t). lia.
    + now rewrite buildRandomTrack_segmentLength.
Qed.

Lemma getSegment_on_built_track_witness :
  is_finite (-12345.5)%float = true /\
  exists seg,
    getSegment (fst (buildRandomTrack zero_rng Track_fields)) (-12345.5)%float = Some seg /\
    (0 <= index seg < segments_length (fst (buildRandomTrack zero_rng Track_fields)))%Z.
Proof.
  split; [reflexivity|].
  destruct (proj2 (getSegment_on_built_track (-12345.5)%float eq_refl)
              zero_rng Track_fields eq_refl) as (seg & Hg & Hi & _).
  exists seg. split; [exact Hg|exact Hi].
Defined.

(** ** Colour bands *)

Lemma addSegment_banded t0 t c h :
  rumbleLength t = rumbleLength t0 /\ banded (rumbleLength t0) (segments t) ->
  rumbleLength (addSegment t c h) = rumbleLength t0 /\
  banded (rumbleLength t0) (segments (addSegment t c h)).
Proof.
  intros [Hr Hb]. rewrite addSegment_eq. cbn [segments rumbleLength set_segments].
  split; [exact Hr|]. apply Forall_app_2; [exact Hb|].
  constructor; [|constructor]. unfold newSegment, lightBand. cbn [color index].
  now rewrite Hr.
Qed.

Lemma banded_same_road rl segs segs' :
  banded rl segs ->
  (forall k seg', segs' !! k = Some seg' ->
                  exists seg, segs !! k = Some seg /\ same_road seg seg') ->
  banded rl segs'.
Proof.
  intros Hb Hr. apply (Forall_same_road _ segs); [|exact Hb|exact Hr].
  intros seg seg' (Hi & _ & _ & _ & _ & Hc). now rewrite Hi, Hc.
Qed.

Lemma banded_elevate rl y segs : banded rl segs -> banded rl (elevate y segs).
Proof.
  intros Hb. apply Forall_lookup. intros i seg' Hl.
  apply lookup_elevate in Hl as (seg & Hs & Hi & _ & _ & Hc & _).
  rewrite Hi, Hc. exact (proj1 (Forall_lookup _ _) Hb i seg Hs).
Qed.

Lemma buildFromData_banded t d :
  holds (buildFromData t d) (fun built =>
    rumbleLength built = rumbleLength t /\ banded (rumbleLength t) (segments built)).
Proof.
  rewrite buildFromData_eq. cbn [holds segments rumbleLength set_segments].
  split; [exact (proj1 (proj2 (buildRoad_spec t d)))|].
  apply (banded_same_road _ (segments (buildRoad t d)));
    [|intros k seg'; apply decorated_same_road].
  unfold buildRoad. cbv zeta.
  set (P := fun t' : Track => rumbleLength t' = rumbleLength t /\
                              banded (rumbleLength t) (segments t')).
  set (t0 := set_currentPieces (set_segments t []) (pieces d)).
  assert (H0 : P t0) by (split; [reflexivity|constructor]).
  pose proof (fold_addPiece_preserves P (addSegment_banded t) (pieces d) t0 H0) as H1.
  generalize dependent (fold_left addPiece (pieces d) t0). intros road H1.
  assert (H2 : P (if (segments_length road =? 0)%Z then addStraight road 100 else road)).
  { destruct (segments_length road =? 0)%Z; [|exact H1].
    apply (builders_preserve P (addSegment_banded t) road 100 0%float 0%float H1). }
  generalize dependent (if (segments_length road =? 0)%Z then addStraight road 100 else road).
  intros road' [_ H2]. unfold calculateYPositions.
  cbn [segments set_segments set_trackLength]. now apply banded_elevate.
Qed.

Lemma buildRandomTrack_banded g t :
  rumbleLength (fst (buildRandomTrack g t)) = rumbleLength t /\
  banded (rumbleLength t) (segments (fst (buildRandomTrack g t))).
Proof.
  destruct (buildRandomTrack_road
              (fun t' : Track => rumbleLength t' = rumbleLength t /\
                                 banded (rumbleLength t) (segments t')) g t)
    as (road & g' & -> & Hr & Hb).
  - split; [reflexivity|constructor].
  - intros t' p H. exact H.
  - intros t' c h. apply addSegment_banded.
  - match goal with |- context [addSprites g' ?x] => set (t1 := x) end.
    destruct (addSprites_spec g' t1) as ((_ & Hrl & _) & _ & Hsame). cbv zeta in *.
    split; [rewrite Hrl; exact Hr|].
    apply (banded_same_road _ (segments t1)); [|exact Hsame].
    subst t1. unfold calculateYPositions.
    cbn [segments set_segments set_trackLength]. now apply banded_elevate.
Qed.

(** X13.  The track and the renderer agree on the colour bands.  On a track
    made by [buildFromData] or [buildRandomTrack] with [rumbleLength] 3,
    every segment carries the light colours exactly when the renderer, which
    decides the band from [segment.index] anew, draws it as a light one. *)
Theorem band_colours_agree :
  (forall t d, rumbleLength t = ROAD.RUMBLE_LENGTH ->
     holds (buildFromData t d) (fun built =>
       Forall (fun seg => color seg = if isLight seg then COLORS.LIGHT else COLORS.DARK)
              (segments built))) /\
  (forall g t, rumbleLength t = ROAD.RUMBLE_LENGTH ->
     Forall (fun seg => color seg = if isLight seg then COLORS.LIGHT else COLORS.DARK)
            (segments (fst (buildRandomTrack g t)))).
Proof.
  split.
  - intros t d Hr. pose proof (buildFromData_banded t d) as H.
    destruct (buildFromData t d) as [built|]; cbn [holds] in *; [|exact H].
    destruct H as [_ H]. rewrite Hr in H. exact H.
  - intros g t Hr. destruct (buildRandomTrack_banded g t) as [_ H].
    rewrite Hr in H. exact H.
Qed.

Lemma band_colours_agree_witness :
  rumbleLength Track_fields = ROAD.RUMBLE_LENGTH /\
  holds (buildFromData Track_fields (single_piece Straight 8 0)) (fun built =>
    Forall (fun seg => color seg = if isLight seg then COLORS.LIGHT else COLORS.DARK)
           (segments built)).
Proof.
  split; [reflexivity|].
  exact (proj1 band_colours_agree Track_fields (single_piece Straight 8 0) eq_refl).
Defined.

Example band_colours_sample :
  holds (buildFromData Track_fields (single_piece Straight 8 0)) (fun t =>
    map isLight (segments t) = [true; true; true; false; false; false; true; true] /\
    map (fun seg => road (color seg)) (segments t)
    = ["#6b6b6b"; "#6b6b6b"; "#6b6b6b"; "#696969"; "#696969"; "#696969";
       "#6b6b6b"; "#6b6b6b"]%string).
Proof. vm_compute. repeat split. Qed.

(** ** Combined sections of a random track *)






(* ===================================================================== *)
(** * Further properties of the road pass *)
(* ===================================================================== *)

Lemma project_world r p cameraX cameraY cameraZ :
  world (project r p cameraX cameraY cameraZ) = world p.
Proof.
  unfold project, project_traced, traced_div.
  destruct (_ <=? 0)%float; reflexivity.
Qed.

Lemma same_world_refl seg : same_world seg seg.
Proof. repeat split. Qed.

Lemma sorted_snoc (l : list Z) (n : Z) :
  StronglySorted Z.lt l -> Forall (fun m => (m < n)%Z) l -> StronglySorted Z.lt (l ++ [n]).
Proof.
  induction 1 as [|a l Hs IH Ha]; intros Hl; cbn [app].
  - repeat constructor.
  - inversion Hl; subst. constructor; [now apply IH|].
    apply Forall_app_2; [exact Ha|]. now repeat constructor.
Qed.

(** What one iteration does to the list of drawn counters. *)
Lemma roadStep_drawn r t position playerX camPlayerY baseIndex n st st' :
  roadStep r t position playerX camPlayerY baseIndex n st = Ok st' ->
  pool st' = pool st ++ [(Z.rem (baseIndex + n) (Z.of_nat (length (store st))), maxy st)] /\
  (drawn st' = drawn st \/ drawn st' = drawn st ++ [n]) /\
  exists segment,
    store st !! Z.to_nat (Z.rem (baseIndex + n) (Z.of_nat (length (store st))))
    = Some segment /\
    (0 <= Z.rem (baseIndex + n) (Z.of_nat (length (store st))))%Z /\
    store st'
    = <[Z.to_nat (Z.rem (baseIndex + n) (Z.of_nat (length (store st)))) :=
          set_points segment
            (project r (p1 segment) (playerX * roadWidth r - acc_x st)
               (camPlayerY + cameraHeight r)
               (position - (if (Z.rem (baseIndex + n) (Z.of_nat (length (store st)))
                                <? baseIndex)%Z then trackLength t else 0)))
            (project r (p2 segment) (playerX * roadWidth r - acc_x st - acc_dx st)
               (camPlayerY + cameraHeight r)
               (position - (if (Z.rem (baseIndex + n) (Z.of_nat (length (store st)))
                                <? baseIndex)%Z then trackLength t else 0)))]>
        (store st).
Proof.
  unfold roadStep.
  destruct (_ <? 0)%Z eqn:Hneg; [discriminate|]. apply Z.ltb_ge in Hneg.
  destruct (store st !! _) as [segment|] eqn:Hl; [|discriminate].
  cbn [curve set_points maxy horizons drawn store acc_x acc_dx pool].
  destruct (_ <=? cameraDepth r)%float;
    [intros [= <-]; cbn [pool drawn store]; eauto 10|].
  destruct (Screen.y _ <=? Screen.y _)%float;
    [intros [= <-]; cbn [pool drawn store]; eauto 10|].
  destruct (maxy st <=? _)%float;
    [intros [= <-]; cbn [pool drawn store]; eauto 10|].
  intros [= <-]. cbn [pool drawn store]. eauto 10.
Qed.

Lemma roadStep_passInv r t position playerX camPlayerY baseIndex segs0 (k : nat) st st' :
  passInv segs0 k st ->
  roadStep r t position playerX camPlayerY baseIndex (Z.of_nat k) st = Ok st' ->
  passInv segs0 (Datatypes.S k) st'.
Proof.
  intros (Hp & Hpool & Hd & Hs & Hb & Hlen & Hw) H.
  apply roadStep_drawn in H as (Ep & Ed & segment & Hl & Hge & Es).
  assert (Hlt : (Z.to_nat (Z.rem (baseIndex + Z.of_nat k) (Z.of_nat (length (store st))))
                 < length (store st))%nat) by (eapply lookup_lt_Some; eassumption).
  unfold passInv. rewrite Ep, Es. repeat split.
  - rewrite length_app. cbn. lia.
  - apply Forall_app_2; [exact Hpool|]. repeat constructor; cbn [fst]; lia.
  - destruct Ed as [->| ->]; [lia|]. rewrite length_app. cbn. lia.
  - destruct Ed as [->| ->]; [exact Hs|]. apply sorted_snoc; [exact Hs|].
    eapply Forall_impl; [exact Hb|]. cbn beta. lia.
  - destruct Ed as [->| ->].
    + eapply Forall_impl; [exact Hb|]. cbn beta. lia.
    + apply Forall_app_2; [eapply Forall_impl; [exact Hb|]; cbn beta; lia|].
      repeat constructor; lia.
  - now rewrite length_insert.
  - intros i seg' Hi.
    apply list_lookup_insert_Some in Hi as [(<- & <- & _)|(Hne & Hi)]; [|now apply Hw].
    destruct (Hw _ _ Hl) as (seg & Hs0 & Hsw). exists seg. split; [exact Hs0|].
    destruct Hsw as (? & ? & ? & ? & ? & ? & ?).
    unfold same_world. cbn [index curve hill color sprites p1 p2 set_points].
    rewrite !project_world. repeat split; assumption.
Qed.

Lemma roadLoop_passInv r t position playerX camPlayerY baseIndex st0 st :
  passInv (store st0) 0 st0 ->
  roadLoop r t position playerX camPlayerY baseIndex st0 = Ok st ->
  passInv (store st0) (Z.to_nat (drawDistance r)) st.
Proof.
  intros H0 H. unfold roadLoop in H.
  match type of H with
  | for_range ?n ?body ?s = _ =>
      pose proof (for_range_inv
                    (fun k acc => forall st, acc = Ok st -> passInv (store st0) k st)
                    n body s) as P
  end.
  apply P; [| |exact H].
  - intros st1 [= <-]. exact H0.
  - intros k acc _ IH st1. destruct acc as [st2|]; [|discriminate]. cbn [bind].
    apply roadStep_passInv. now apply IH.
Qed.

Lemma renderRoadPass_passInv r t position playerX playerY st :
  renderRoadPass r t position playerX playerY = Ok st ->
  passInv (segments t) (Z.to_nat (drawDistance r)) st.
Proof.
  unfold renderRoadPass. destruct (getSegment t position) as [baseSegment|];
    [|discriminate].
  intros H. apply roadLoop_passInv in H; [exact H|].
  unfold passInv. cbn [pool drawn store length]. repeat split; try constructor.
  intros i seg' Hi. exists seg'. split; [exact Hi|apply same_world_refl].
Qed.



(** X16.  A road pass that ends leaves the track's world data as it was: the
    store has the same length, and every segment keeps its index, curve,
    hill, colour, sprites and the world coordinates of its two points.  The
    pass writes camera and screen coordinates and scales only. *)
Theorem road_pass_keeps_world_data (r : Renderer) (t : Track) (position playerX : number)
    (playerY : option number) (st : RoadPass) :
  renderRoadPass r t position playerX playerY = Ok st ->
  length (store st) = length (segments t) /\
  forall (i : nat) seg', store st !! i = Some seg' ->
    exists seg, segments t !! i = Some seg /\ same_world seg seg'.
Proof.
  intros H. apply renderRoadPass_passInv in H as (_ & _ & _ & _ & _ & Hl & Hw).
  split; assumption.
Qed.

Lemma road_pass_keeps_world_data_witness :
  exists st,
    renderRoadPass Renderer_fields (addCurve Track_fields 40 8) 0 0 None = Ok st /\
    length (store st) = length (segments (addCurve Track_fields 40 8)).
Proof.
  destruct (renderRoadPass Renderer_fields (addCurve Track_fields 40 8) 0 0 None)
    as [st|] eqn:E; [|vm_compute in E; discriminate].
  exists st. split; [reflexivity|].
  exact (proj1 (road_pass_keeps_world_data _ _ _ _ _ _ E)).
Defined.

(** ** The road geometry *)

Lemma buildSegmentGeometry_spec r segment n buf :
  exists added,
    buildSegmentGeometry r segment n buf = buf ++ added /\
    length added = (if isLight segment then 36 else 24)%nat /\
    Forall (fun v => fog v = getFogAmount r (Num.of_int n) /\
                     (pos_y v = Screen.y (screen (p1 segment)) \/
                      pos_y v = Screen.y (screen (p2 segment)))) added.
Proof.
  unfold buildSegmentGeometry. cbv zeta. destruct (isLight segment);
    unfold addQuad; cbv zeta; rewrite <- !app_assoc;
    (eexists; split; [reflexivity|]; split; [reflexivity|]);
    cbn [app];
    repeat (apply List.Forall_cons; [split; [reflexivity|cbn [pos_y]; auto]|]);
    apply List.Forall_nil.
Qed.

Lemma for_range_sim {A B : Type} (R : A -> B -> Prop) count
    (fa : Z -> A -> A) (fb : Z -> B -> B) a b :
  R a b -> (forall i a b, R a b -> R (fa i a) (fb i b)) ->
  R (for_range count fa a) (for_range count fb b).
Proof.
  intros H0 Hstep. unfold for_range. generalize (seq 0 (Z.to_nat count)).
  intros l. revert a b H0. induction l as [|i l IH]; intros a b H0; cbn [fold_left].
  - exact H0.
  - apply IH. now apply Hstep.
Qed.

Lemma renderStep_frameOf r t position playerX camPlayerY baseIndex n accF accP :
  frameOf r accF accP ->
  frameOf r (bind accF (renderStep r t position playerX camPlayerY baseIndex n))
            (bind accP (roadStep r t position playerX camPlayerY baseIndex n)).
Proof.
  unfold frameOf. destruct accP as [st|]; [|intros ->; reflexivity].
  intros (f & -> & <- & Hcount & Hfog). cbn [bind]. unfold renderStep.
  destruct (roadStep r t position playerX camPlayerY baseIndex n (pass f)) as [st'|] eqn:E;
    [|reflexivity].
  cbn [bind].
  apply roadStep_drawn in E as (_ & Ed & segment & Hl & Hge & Es).
  assert (Hlt : (Z.to_nat (Z.rem (baseIndex + n) (Z.of_nat (length (store (pass f)))))
                 < length (store (pass f)))%nat) by (eapply lookup_lt_Some; eassumption).
  destruct Ed as [Ed|Ed]; rewrite Ed.
  - rewrite Nat.ltb_irrefl. eexists. split; [reflexivity|]. split; [reflexivity|].
    unfold frameInv. cbn [pass roadVertices]. rewrite Ed. split; assumption.
  - replace (length (drawn (pass f)) <? length (drawn (pass f) ++ [n]))%nat with true
      by (symmetry; apply Nat.ltb_lt; rewrite length_app; cbn; lia).
    rewrite Es, list_lookup_insert_eq by exact Hlt.
    eexists. split; [reflexivity|]. split; [reflexivity|].
    unfold frameInv. cbn [pass roadVertices]. rewrite Ed, length_app. cbn [length].
    match goal with
    | |- context [buildSegmentGeometry r ?s n ?buf] =>
        destruct (buildSegmentGeometry_spec r s n buf) as (added & -> & Hn & Hf);
        destruct (isLight s)
    end;
      (rewrite length_app, Hn; split; [lia|]);
      (apply Forall_app_2;
       [ eapply Forall_impl; [exact Hfog|]; cbn beta; intros v (m & Hm & Hv);
         exists m; split; [|exact Hv]; apply elem_of_app; now left
       | eapply Forall_impl; [exact Hf|]; cbn beta; intros v (Hv & _);
         exists n; split; [|exact Hv]; apply elem_of_app; right;
         now apply list_elem_of_singleton ]).
Qed.

Lemma renderRoad_frameOf r t position playerX playerY :
  frameOf r (renderRoad r t position playerX playerY)
            (renderRoadPass r t position playerX playerY).
Proof.
  unfold renderRoad, renderRoadPass.
  destruct (getSegment t position) as [baseSegment|]; [|reflexivity].
  unfold renderLoop, roadLoop. cbv zeta.
  apply (for_range_sim (frameOf r)).
  - eexists. split; [reflexivity|]. split; [reflexivity|].
    unfold frameInv. cbn [pass roadVertices drawn length]. split; [lia|constructor].
  - intros i a b. apply renderStep_frameOf.
Qed.

(** X17.  The road geometry stays within its buffers.  The frame fails
    exactly when the road pass does; otherwise the buffers hold between 24
    and 36 vertices for every counter drawn (four quads, and two more on a
    light band), never more than the [drawDistance * 36] the buffers were
    allocated for, and every vertex carries the fog amount of a counter that
    was drawn. *)
Theorem road_geometry_fits_buffers (r : Renderer) (t : Track) (position playerX : number)
    (playerY : option number) :
  match renderRoadPass r t position playerX playerY with
  | Ok st =>
      exists f,
        renderRoad r t position playerX playerY = Ok f /\ pass f = st /\
        (24 * length (drawn st) <= length (roadVertices f) <= 36 * length (drawn st))%nat /\
        (Z.of_nat (length (roadVertices f)) <= Z.max 0 (maxRoadVertices r))%Z /\
        Forall (fun v => exists n, n ∈ drawn st /\ fog v = getFogAmount r (Num.of_int n))
               (roadVertices f)
  | TypeError => renderRoad r t position playerX playerY = TypeError
  end.
Proof.
  pose proof (renderRoad_frameOf r t position playerX playerY) as H.
  unfold frameOf in H.
  destruct (renderRoadPass r t position playerX playerY) as [st|] eqn:E; [|exact H].
  destruct H as (f & Hf & Hp & Hcount & Hfog). exists f.
  apply renderRoadPass_passInv in E as (_ & _ & Hd & _).
  rewrite Hp in Hcount, Hfog.
  split; [exact Hf|]. split; [exact Hp|]. split; [exact Hcount|]. split; [|exact Hfog].
  unfold maxRoadVertices. lia.
Qed.

Example road_geometry_default_track :
  holds (buildFromData Track_fields (fst (createDefaultTrackData zero_rng))) (fun t =>
  holds (renderRoad Renderer_fields t 0 0 (Some 0%float)) (fun f =>
    Z.of_nat (length (drawn (pass f))) = 71%Z /\
    Z.of_nat (length (roadVertices f)) = 2112%Z /\
    last (drawn (pass f)) = Some 165%Z /\
    option_map (fun v => (pos_x v, pos_y v, fog v)) (roadVertices f !! 0%nat)
    = Some (0, 492, 0)%float /\
    option_map (fun v => (pos_x v, pos_y v, fog v)) (last (roadVertices f))
    = Some (359, 229, 0.71874999999999989)%float)).
Proof. vm_compute. repeat split. Qed.

(** ** Fog, divisions and errors of the renderer *)

(** X18.  With the renderer's draw distance of 350 and an integer fog
    density from 0 to 10, the fog amount of every loop counter lies between
    0 and 1 and does not decrease from one counter to the next. *)
Theorem fog_profile_default_renderer (density n : Z) :
  (0 <= density <= 10)%Z -> (0 <= n < RENDER.DRAW_DISTANCE)%Z ->
  let r := with_fogDensity Renderer_fields (Num.of_int density) in
  (0 <=? getFogAmount r (Num.of_int n))%float = true /\
  (getFogAmount r (Num.of_int n) <=? 1)%float = true /\
  (getFogAmount r (Num.of_int n) <=? getFogAmount r (Num.of_int (n + 1)))%float = true.
Proof.
  intros Hd Hn r.
  assert (Hall : forallb (fun d : nat =>
                            fogProfileOk (with_fogDensity Renderer_fields
                                            (Num.of_int (Z.of_nat d))) 350)
                         (seq 0 11) = true) by (vm_compute; reflexivity).
  rewrite forallb_forall in Hall.
  specialize (Hall (Z.to_nat density)). rewrite Z2Nat.id in Hall by lia.
  assert (Hin : In (Z.to_nat density) (seq 0 11)) by (apply in_seq; lia).
  apply Hall in Hin. unfold fogProfileOk in Hin. rewrite forallb_forall in Hin.
  specialize (Hin (Z.to_nat n)). cbv zeta in Hin. rewrite Z2Nat.id in Hin by lia.
  assert (Hin' : In (Z.to_nat n) (seq 0 350))
    by (apply in_seq; unfold RENDER.DRAW_DISTANCE in Hn; lia).
  apply Hin in Hin'. fold r in Hin'.
  apply andb_prop in Hin' as [H12 H3]. apply andb_prop in H12 as [H1 H2].
  repeat split; assumption.
Qed.

Lemma fog_profile_default_renderer_witness :
  (0 <= 5 <= 10)%Z /\ (0 <= 165 < RENDER.DRAW_DISTANCE)%Z /\
  getFogAmount (with_fogDensity Renderer_fields (Num.of_int 5)) (Num.of_int 165)
  = 0.71874999999999989%float /\
  (getFogAmount (with_fogDensity Renderer_fields (Num.of_int 5)) (Num.of_int 165)
   <=? 1)%float = true.
Proof.
  assert (Hd : (0 <= 5 <= 10)%Z) by lia.
  assert (Hn : (0 <= 165 < RENDER.DRAW_DISTANCE)%Z) by (unfold RENDER.DRAW_DISTANCE; lia).
  destruct (fog_profile_default_renderer 5 165 Hd Hn) as (_ & H1 & _).
  split; [exact Hd|]. split; [exact Hn|]. split; [vm_compute; reflexivity|exact H1].
Defined.

Lemma leb_nan_l x : is_nan x = true -> forall y, (x <=? y)%float = false.
Proof.
  intros Hx y. destruct (x <=? y)%float eqn:E; [|reflexivity].
  apply leb_not_nan in E as [E _]. congruence.
Qed.

Lemma div_nan_r x y : is_nan y = true -> is_nan (x / y) = true.
Proof.
  intros Hy. apply not_false_iff_true. intros E. apply is_nan_Prim2SF in E. apply E.
  assert (Hn : Prim2SF y = S754_nan).
  { destruct (Prim2SF y) eqn:Ey; try reflexivity; exfalso;
      assert (is_nan y = false) by (apply Prim2SF_is_nan; rewrite Ey; discriminate);
      congruence. }
  rewrite div_spec, Hn. unfold SF64div, SFdiv. destruct (Prim2SF x); reflexivity.
Qed.

(** X19.  [project] never divides by zero or by a negative number: the
    divisors of the divisions it evaluates are the depth [camera.z], which
    the guard [camera.z <= 0] has let through, and the constant 2.  A depth
    that is NaN passes the guard, and the scale of the point is then NaN. *)
Theorem project_divisors_pass_the_guard (r : Renderer) (p : ScreenCoord)
    (cameraX cameraY cameraZ : number) :
  Forall (fun d => (d <=? 0)%float = false)
         (snd (project_traced r p cameraX cameraY cameraZ)) /\
  ((WorldCoord.z (world p) - cameraZ <=? 0)%float = false ->
   snd (project_traced r p cameraX cameraY cameraZ)
   = [(WorldCoord.z (world p) - cameraZ)%float; 2; 2; 2; 2; 2]%float /\
   scale (project r p cameraX cameraY cameraZ)
   = (cameraDepth r / (WorldCoord.z (world p) - cameraZ))%float) /\
  (is_nan (WorldCoord.z (world p) - cameraZ) = true ->
   is_nan (scale (project r p cameraX cameraY cameraZ)) = true).
Proof.
  unfold project, project_traced, traced_div. cbv zeta. cbn [WorldCoord.z].
  destruct (WorldCoord.z (world p) - cameraZ <=? 0)%float eqn:E; cbn [fst snd scale app].
  - split; [constructor|]. split; [discriminate|].
    intros Hn. now rewrite (leb_nan_l _ Hn) in E.
  - split; [|split].
    + repeat constructor; exact E.
    + intros _. split; reflexivity.
    + intros Hn. now apply div_nan_r.
Qed.

Lemma project_divisors_pass_the_guard_witness :
  let p := createScreenCoord Track_fields 5 in
  (WorldCoord.z (world p) - 0 <=? 0)%float = false /\
  snd (project_traced Renderer_fields p 0 1000 0) = [1000; 2; 2; 2; 2; 2]%float /\
  scale (project Renderer_fields p 0 1000 0) = 0.00083999999999999993%float.
Proof.
  cbv zeta.
  assert (H : (WorldCoord.z (world (createScreenCoord Track_fields 5)) - 0 <=? 0)%float
              = false) by reflexivity.
  split; [exact H|].
  destruct (proj1 (proj2 (project_divisors_pass_the_guard Renderer_fields
                            (createScreenCoord Track_fields 5) 0 1000 0)) H) as [Hd Hs].
  split; [exact Hd|exact Hs].
Defined.







(** ** The sprite pass *)


Section SpritePassFacts.

Variable SPRITESHEET_FRAMES : SpriteType -> option SpriteFrame.
Variable SPRITESHEET_SIZE : number * number.
Variable SPRITE_REGISTRY : SpriteType -> option number.





End SpritePassFacts.


(** ** The constructor *)



(** ** The clip of the sprite pool *)



Lemma drawnBefore_le n l : (drawnBefore n l <= length l)%nat.
Proof.
  unfold drawnBefore. induction l as [|d l IH]; [reflexivity|].
  cbn [List.filter]. destruct (d <? n)%Z; cbn [length]; lia.
Qed.






(* ===================================================================== *)
(** * Further properties of the game loop *)
(* ===================================================================== *)

Lemma wrapDown_exit fuel : forall len pos p,
  wrapDown fuel len pos = Some p -> (len <=? p)%float = false.
Proof.
  induction fuel as [|fuel IH]; intros len pos p; cbn [wrapDown];
    destruct (len <=? pos)%float eqn:E; try discriminate.
  - now intros [= <-].
  - apply IH.
  - now intros [= <-].
Qed.

Lemma wrapUp_exit fuel : forall len pos q,
  wrapUp fuel len pos = Some q ->
  (q <? 0)%float = false /\ ((pos <? 0)%float = false -> q = pos).
Proof.
  induction fuel as [|fuel IH]; intros len pos q; cbn [wrapUp];
    destruct (pos <? 0)%float eqn:E; try discriminate.
  - intros [= <-]. now split.
  - intros H. apply IH in H as [H _]. split; [exact H|discriminate].
  - intros [= <-]. now split.
Qed.

(** More fuel does not change the result of a loop that ended. *)
Lemma wrapDown_fuel fuel : forall len pos p k,
  wrapDown fuel len pos = Some p -> wrapDown (fuel + k) len pos = Some p.
Proof.
  induction fuel as [|fuel IH]; intros len pos p k; cbn [wrapDown Nat.add].
  - destruct (len <=? pos)%float eqn:E; [discriminate|].
    intros [= <-]. destruct k; cbn [wrapDown]; now rewrite E.
  - destruct (len <=? pos)%float; [apply IH|trivial].
Qed.

Lemma wrapUp_fuel fuel : forall len pos p k,
  wrapUp fuel len pos = Some p -> wrapUp (fuel + k) len pos = Some p.
Proof.
  induction fuel as [|fuel IH]; intros len pos p k; cbn [wrapUp Nat.add].
  - destruct (pos <? 0)%float eqn:E; [discriminate|].
    intros [= <-]. destruct k; cbn [wrapUp]; now rewrite E.
  - destruct (pos <? 0)%float; [apply IH|trivial].
Qed.

Lemma wrapDown_stuck fuel len pos :
  (len <=? pos)%float = true -> (pos - len)%float = pos -> wrapDown fuel len pos = None.
Proof.
  intros Hle Hsame. induction fuel as [|fuel IH]; cbn [wrapDown]; rewrite Hle; [reflexivity|].
  now rewrite Hsame.
Qed.

(** X24.  A tick that ends leaves the track, the renderer, the keys and
    the physics parameters as they were, and leaves a position that is not
    negative.  The position is the one the first loop wrapped down below
    [trackLength], unless that one was negative and the second loop had to
    add [trackLength] to it. *)
Theorem update_wraps_position (fuel : nat) (g g' : Game) (dt : number) :
  update fuel g dt = Some (Ok g') ->
  (position g' <? 0)%float = false /\
  (exists p, wrapDown fuel (trackLength (track g)) (advanced g dt) = Some p /\
             (trackLength (track g) <=? p)%float = false /\
             ((p <? 0)%float = false -> position g' = p)) /\
  track g' = track g /\ renderer g' = renderer g /\ input g' = input g /\
  Player.maxSpeed (player g') = Player.maxSpeed (player g) /\
  Player.accel (player g') = Player.accel (player g) /\
  Player.decel (player g') = Player.decel (player g) /\
  Player.offRoadDecel (player g') = Player.offRoadDecel (player g) /\
  Player.offRoadMaxSpeed (player g') = Player.offRoadMaxSpeed (player g) /\
  centrifugalForce g' = centrifugalForce g /\ steeringRate g' = steeringRate g /\
  steeringSpeedScale g' = steeringSpeedScale g.
Proof.
  unfold update, advanced. cbv zeta.
  destruct (getSegment (track g) (position g)) as [segment|]; [|discriminate].
  destruct (getSegment (track g) (position g + segmentLength (track g))) as [nextSegment|];
    [|discriminate].
  destruct (getSegment (track g) _) as [playerSegment|]; [|discriminate].
  destruct (wrapDown fuel _ _) as [p|] eqn:Ed; [|discriminate].
  destruct (wrapUp fuel _ p) as [q|] eqn:Eu; [|discriminate].
  intros [= <-]. cbn [position track renderer input player centrifugalForce steeringRate
                      steeringSpeedScale Player.maxSpeed Player.accel Player.decel
                      Player.offRoadDecel Player.offRoadMaxSpeed].
  apply wrapUp_exit in Eu as [Hq Hp]. pose proof (wrapDown_exit _ _ _ _ Ed) as Hd.
  split; [exact Hq|]. split; [|repeat split].
  exists p. split; [reflexivity|]. split; [exact Hd|exact Hp].
Qed.

Lemma update_wraps_position_witness :
  let g := game_at (buildRoad Track_fields (single_piece Straight 50 0)) 9990
                   (Player.mk 0 600 600 2 0.5 1 200) key_up in
  exists g', update 2 g 0.1 = Some (Ok g') /\
             position g' = 1190%float /\ (position g' <? 0)%float = false.
Proof.
  cbv zeta.
  destruct (update 2 (game_at (buildRoad Track_fields (single_piece Straight 50 0)) 9990
                        (Player.mk 0 600 600 2 0.5 1 200) key_up) 0.1)
    as [[g'|]|] eqn:E; [|vm_compute in E; discriminate|vm_compute in E; discriminate].
  exists g'. split; [reflexivity|].
  destruct (update_wraps_position _ _ _ _ E) as (Hq & _). split; [|exact Hq].
  vm_compute in E. injection E as <-. reflexivity.
Defined.

(** X25.  The first wrap loop does not end when the position is so large
    that subtracting [trackLength] does not change it (or when [trackLength]
    is 0): the tick then never completes, whatever the number of rounds. *)
Theorem tick_hangs_on_unshrinkable_position (g : Game) (dt : number) :
  (trackLength (track g) <=? advanced g dt)%float = true ->
  (advanced g dt - trackLength (track g))%float = advanced g dt ->
  forall fuel g', update fuel g dt <> Some (Ok g').
Proof.
  intros Hle Hsame fuel g'. unfold update. cbv zeta.
  fold (advanced g dt).
  destruct (getSegment (track g) (position g)) as [segment|]; [|discriminate].
  destruct (getSegment (track g) (position g + segmentLength (track g))) as [nextSegment|];
    [|discriminate].
  destruct (getSegment (track g) _) as [playerSegment|]; [|discriminate].
  rewrite (wrapDown_stuck fuel _ _ Hle Hsame). discriminate.
Qed.

Lemma tick_hangs_on_unshrinkable_position_witness :
  let g := game_at (buildRoad Track_fields (single_piece Straight 50 0)) 1e300
                   (Player.mk 0 0 600 2 0.5 1 200) no_keys in
  trackLength (track g) = 10000%float /\ advanced g 0.016 = 1e300%float /\
  forall fuel, update fuel g 0.016 = None.
Proof.
  cbv zeta.
  set (g := game_at (buildRoad Track_fields (single_piece Straight 50 0)) 1e300
                    (Player.mk 0 0 600 2 0.5 1 200) no_keys).
  assert (Hle : (trackLength (track g) <=? advanced g 0.016)%float = true)
    by (vm_compute; reflexivity).
  assert (Hsame : (advanced g 0.016 - trackLength (track g))%float = advanced g 0.016)
    by (vm_compute; reflexivity).
  split; [vm_compute; reflexivity|]. split; [vm_compute; reflexivity|].
  intros fuel. pose proof (tick_hangs_on_unshrinkable_position g 0.016 Hle Hsame fuel) as H.
  destruct (update fuel g 0.016) as [[g'|]|] eqn:E; [now destruct (H g')| |reflexivity].
  exfalso. revert E. unfold update. cbv zeta.
  destruct (getSegment (track g) (position g)) as [s1|] eqn:E1;
    [|vm_compute in E1; discriminate].
  destruct (getSegment (track g) (position g + segmentLength (track g))) as [s2|] eqn:E2;
    [|vm_compute in E2; discriminate].
  destruct (getSegment (track g) _) as [s3|] eqn:E3; [|vm_compute in E3; discriminate].
  destruct (wrapDown fuel _ _) as [p|]; [|discriminate].
  destruct (wrapUp fuel _ p) as [q|]; discriminate.
Defined.

(** ** The frame time and the off-road factor *)

Lemma ltb_asym x y : (x <? y)%float = true -> (y <? x)%float = false.
Proof.
  rewrite !FloatAxioms.ltb_spec. unfold SFltb.
  rewrite (SFcompare_antisym (Prim2SF x) (Prim2SF y)).
  destruct (SFcompare (Prim2SF x) (Prim2SF y)) as [[]|]; cbn; congruence.
Qed.

Lemma ltb_not_nan x y : (x <? y)%float = true -> is_nan x = false /\ is_nan y = false.
Proof. intros H. now apply leb_not_nan, ltb_leb. Qed.

(** X26.  The frame time [loop] hands to [update] is the elapsed time in
    seconds when that is below 0.1, negative values included (there is no
    lower clamp), and 0.1 when it is above; it is never more than 0.1. *)
Theorem frame_dt_clamped_above (elapsed_ms : number) :
  ((elapsed_ms / 1000 <? 0.1)%float = true -> frame_dt elapsed_ms = (elapsed_ms / 1000)%float) /\
  ((0.1 <? elapsed_ms / 1000)%float = true -> frame_dt elapsed_ms = 0.1%float) /\
  (is_nan (frame_dt elapsed_ms) = false -> (frame_dt elapsed_ms <=? 0.1)%float = true).
Proof.
  unfold frame_dt. repeat split.
  - intros H. unfold Math.min. destruct (ltb_not_nan _ _ H) as [-> ->].
    cbn [orb]. now rewrite H.
  - intros H. unfold Math.min. destruct (ltb_not_nan _ _ H) as [-> ->].
    cbn [orb]. now rewrite (ltb_asym _ _ H), H.
  - intros H. destruct (min_not_nan _ _ H) as [Ha Hb].
    exact (proj2 (proj2 (min_spec _ _ Ha Hb))).
Qed.

Lemma frame_dt_clamped_above_witness :
  (16 / 1000 <? 0.1)%float = true /\ (0.1 <? 250 / 1000)%float = true /\
  frame_dt 16 = (16 / 1000)%float /\ frame_dt 250 = 0.1%float.
Proof.
  split; [reflexivity|]. split; [reflexivity|]. split.
  - exact (proj1 (frame_dt_clamped_above 16) eq_refl).
  - exact (proj1 (proj2 (frame_dt_clamped_above 250)) eq_refl).
Defined.

Example frame_dt_samples :
  frame_dt 16 = 0.016%float /\ frame_dt 250 = 0.1%float /\
  frame_dt (-500) = (-0.5)%float /\ is_nan (frame_dt nan) = true.
Proof. vm_compute. repeat split. Qed.

Lemma binary_round_aux_not_nan s m e l :
  (0 <= m)%Z -> binary_round_aux prec emax s m e l <> S754_nan.
Proof.
  intros H0. unfold binary_round_aux.
  pose proof (shr_fexp_bounds m e l
                (Z.max (-1074) (Z.max e (Zdigits2 m + e - prec))) H0) as H1.
  destruct (shr_fexp prec emax m e l) as [mrs' e'].
  destruct H1 as (H1 & _); [lia|lia|lia|].
  destruct (round_nearest_even_bounds (shr_m mrs') (loc_of_shr_record mrs') H1) as [H2 _].
  pose proof (shr_fexp_bounds (round_nearest_even (shr_m mrs') (loc_of_shr_record mrs'))
                e' loc_Exact
                (Z.max (-1074)
                   (Z.max e' (Zdigits2 (round_nearest_even (shr_m mrs')
                                          (loc_of_shr_record mrs')) + e' - prec))) H2) as H3.
  destruct (shr_fexp prec emax _ e' loc_Exact) as [mrs'' e''].
  destruct H3 as (H3 & _); [lia|lia|lia|].
  destruct (shr_m mrs''); [discriminate| |lia].
  destruct (e'' <=? emax - prec)%Z; discriminate.
Qed.

Lemma binary_normalize_not_nan m e : binary_normalize prec emax m e false <> S754_nan.
Proof.
  unfold binary_normalize, binary_round. destruct m as [|p|p]; [discriminate| |];
    destruct (shl_align _ _ _) as [mz ez]; apply binary_round_aux_not_nan; lia.
Qed.

(** Subtracting a finite number from a number gives a number. *)
Lemma sub_not_nan x y :
  is_nan x = false -> is_finite y = true -> is_nan (x - y) = false.
Proof.
  intros Hx Hy. apply is_nan_Prim2SF in Hx. apply is_finite_SFfinite in Hy.
  apply Prim2SF_is_nan. rewrite sub_spec. unfold SF64sub, SFsub.
  destruct (Prim2SF x) as [sx|sx| |sx mx ex], (Prim2SF y) as [sy|sy| |sy my ey];
    cbn [SFfinite] in Hy; try contradiction; try congruence; try discriminate.
  - destruct sx, sy; discriminate.
  - apply binary_normalize_not_nan.
Qed.

Lemma abs_not_nan x : is_nan x = false -> is_nan (Math.abs x) = false.
Proof.
  intros Hx. apply is_nan_Prim2SF in Hx. apply Prim2SF_is_nan.
  unfold Math.abs. rewrite abs_spec. destruct (Prim2SF x); cbn; congruence.
Qed.

(** X27.  For every lateral position that is a number, the off-road amount
    is not negative and the off-road factor lies between 0 and 1; on the
    road the factor is zero. *)
Theorem offRoadFactor_in_unit_interval (x : number) :
  is_nan x = false ->
  (0 <=? offRoadAmount x)%float = true /\
  (0 <=? offRoadFactor x)%float = true /\
  (offRoadFactor x <=? 1)%float = true /\
  (isOffRoad x = false -> (offRoadFactor x <=? 0)%float = true).
Proof.
  intros Hx. unfold offRoadFactor, isOffRoad, offRoadAmount.
  assert (Hd : is_nan (Math.abs x - 1.0) = false)
    by (apply sub_not_nan; [now apply abs_not_nan|reflexivity]).
  destruct (max_spec 0 (Math.abs x - 1.0) eq_refl Hd) as (Hm & H0 & _).
  set (a := Math.max 0 (Math.abs x - 1.0)) in *.
  assert (Ha : is_nan a = false) by (apply (leb_not_nan _ _ H0)).
  destruct (min_spec a 1.0 Ha eq_refl) as (Hmin & Hle_a & Hle_1).
  split; [exact H0|]. split; [|split; [exact Hle_1|]].
  - destruct Hmin as [-> | ->]; [exact H0|reflexivity].
  - intros Hoff. apply (leb_trans _ a); [exact Hle_a|].
    apply not_ltb_leb; [reflexivity|exact Ha|exact Hoff].
Qed.

Lemma offRoadFactor_in_unit_interval_witness :
  is_nan 1.8%float = false /\
  offRoadFactor 1.8 = 0.8%float /\
  (0 <=? offRoadFactor 1.8)%float = true /\ (offRoadFactor 1.8 <=? 1)%float = true.
Proof.
  destruct (offRoadFactor_in_unit_interval 1.8 eq_refl) as (_ & H0 & H1 & _).
  split; [reflexivity|]. split; [vm_compute; reflexivity|]. split; [exact H0|exact H1].
Defined.

(** ** Errors and fuel of a tick *)

Lemma getSegment_empty t z : segments t = [] -> getSegment t z = None.
Proof.
  intros E. unfold getSegment, segments_length. rewrite E.
  destruct (Num.floorZ _); reflexivity.
Qed.

Lemma getSegment_some t z :
  segments t <> [] -> segmentLength t = ROAD.SEGMENT_LENGTH -> is_finite z = true ->
  exists seg, getSegment t z = Some seg.
Proof.
  intros Hne Hs Hz.
  destruct (getSegment_finite_quotient t z Hne) as (i & seg & _ & _ & Hg).
  - rewrite Hs. now apply div_200_finite.
  - now exists seg.
Qed.

(** X28.  The only run-time error of a tick is a failed segment lookup.  On
    an empty store every tick raises it; on a store that is not empty, with
    segments of length 200, a tick raises no error as long as the three
    positions it looks up (the camera, one segment ahead, and the player
    after the move) are finite. *)
Theorem tick_error_is_a_failed_lookup (g : Game) (dt : number) :
  (segments (track g) = [] -> forall fuel, update fuel g dt = Some TypeError) /\
  (segments (track g) <> [] ->
   segmentLength (track g) = ROAD.SEGMENT_LENGTH ->
   is_finite (position g) = true ->
   is_finite (position g + segmentLength (track g)) = true ->
   is_finite (advanced g dt + cameraHeight (renderer g) * cameraDepth (renderer g)) = true ->
   forall fuel, update fuel g dt <> Some TypeError).
Proof.
  split.
  - intros E fuel. unfold update. cbv zeta. now rewrite (getSegment_empty _ _ E).
  - intros Hne Hs H1 H2 H3 fuel. unfold update. cbv zeta. fold (advanced g dt).
    destruct (getSegment_some _ _ Hne Hs H1) as (s1 & ->).
    destruct (getSegment_some _ _ Hne Hs H2) as (s2 & ->).
    destruct (getSegment_some _ _ Hne Hs H3) as (s3 & ->).
    destruct (wrapDown fuel _ _) as [p|]; [|discriminate].
    destruct (wrapUp fuel _ p) as [q|]; discriminate.
Qed.

Lemma tick_error_is_a_failed_lookup_witness :
  let g := game_at (buildRoad Track_fields (single_piece Straight 50 0)) 9990
                   (Player.mk 0 600 600 2 0.5 1 200) key_up in
  update 2 (game_at Track_fields 0 (Player.mk 0 600 600 2 0.5 1 200) key_up) 0.1
  = Some TypeError /\
  segments (track g) <> [] /\ update 2 g 0.1 <> Some TypeError.
Proof.
  cbv zeta. split.
  - exact (proj1 (tick_error_is_a_failed_lookup
                    (game_at Track_fields 0 (Player.mk 0 600 600 2 0.5 1 200) key_up) 0.1)
                 eq_refl 2%nat).
  - assert (Hne : segments (track (game_at (buildRoad Track_fields
                                              (single_piece Straight 50 0)) 9990
                                     (Player.mk 0 600 600 2 0.5 1 200) key_up)) <> [])
      by (vm_compute; discriminate).
    split; [exact Hne|].
    apply (proj2 (tick_error_is_a_failed_lookup _ 0.1) Hne);
      vm_compute; reflexivity.
Defined.

(** The result of a tick does not depend on the fuel, once the loops end. *)
Lemma update_fuel fuel k g dt res :
  update fuel g dt = Some (Ok res) -> update (fuel + k) g dt = Some (Ok res).
Proof.
  unfold update. cbv zeta.
  destruct (getSegment (track g) (position g)) as [segment|]; [|discriminate].
  destruct (getSegment (track g) (position g + segmentLength (track g))) as [nextSegment|];
    [|discriminate].
  destruct (getSegment (track g) _) as [playerSegment|]; [|discriminate].
  destruct (wrapDown fuel _ _) as [p|] eqn:Ed; [|discriminate].
  destruct (wrapUp fuel _ p) as [q|] eqn:Eu; [|discriminate].
  rewrite (wrapDown_fuel _ _ _ _ k Ed), (wrapUp_fuel _ _ _ _ k Eu). trivial.
Qed.

(** ** Keyboard input *)

Lemma handleKey_flag st key pressed :
  handleKey st key pressed
  = match flagOf key with
    | Some 0%nat => {| left := pressed; right := right st; up := up st; down := down st |}
    | Some 1%nat => {| left := left st; right := pressed; up := up st; down := down st |}
    | Some 2%nat => {| left := left st; right := right st; up := pressed; down := down st |}
    | Some 3%nat => {| left := left st; right := right st; up := up st; down := pressed |}
    | _ => st
    end.
Proof.
  unfold handleKey, flagOf.
  repeat match goal with
         | |- context [if ?b then _ else _] => destruct b
         end; reflexivity.
Qed.

(** X29.  A key event writes at most one flag of the input state: the
    twelve bound keys write the flag of their direction (the three keys of
    a direction act alike), any other key leaves the state as it is.  Events
    on keys of different directions commute, and of two events on the same
    direction the later one wins. *)
Theorem key_events_write_one_flag (st : InputState) (k1 k2 : string) (p1 p2 : bool) :
  (flagOf k1 = None -> handleKey st k1 p1 = st) /\
  (flagOf k1 = flagOf k2 -> handleKey st k1 p1 = handleKey st k2 p1) /\
  (flagOf k1 = flagOf k2 ->
   handleKey (handleKey st k1 p1) k2 p2 = handleKey st k2 p2) /\
  (flagOf k1 <> flagOf k2 ->
   handleKey (handleKey st k1 p1) k2 p2 = handleKey (handleKey st k2 p2) k1 p1).
Proof.
  rewrite !handleKey_flag.
  destruct (flagOf k1) as [[|[|[|[|n1]]]]|], (flagOf k2) as [[|[|[|[|n2]]]]|];
    repeat split; intros H; try reflexivity; try discriminate; try congruence.
Qed.

Lemma key_events_write_one_flag_witness :
  flagOf "Escape" = None /\ flagOf "a" <> flagOf "ArrowUp" /\
  handleKey key_up "Escape" true = key_up /\
  handleKey (handleKey no_keys "a" true) "ArrowUp" true
  = handleKey (handleKey no_keys "ArrowUp" true) "a" true.
Proof.
  assert (Hne : flagOf "a" <> flagOf "ArrowUp") by discriminate.
  split; [reflexivity|]. split; [exact Hne|]. split.
  - exact (proj1 (key_events_write_one_flag key_up "Escape" "a" true true) eq_refl).
  - exact (proj2 (proj2 (proj2 (key_events_write_one_flag no_keys "a" "ArrowUp" true true)))
             Hne).
Defined.

Example key_events_sample :
  let st := handleKey (handleKey no_keys "ArrowUp" true) "a" true in
  st = {| left := true; right := false; up := true; down := false |} /\
  handleKey st "W" false = key_left /\
  handleKey st "Escape" true = st /\
  steerDirection (handleKey st "d" true) = 1%float /\
  steerDirection st = (-1)%float.
Proof. vm_compute. repeat split. Qed.
